(** * TamaOS scaffold: configuration loader, bootstrap and device stub

    A shallow embedding of the three Python modules of the repository
    ([century_life.py], [config.py], [main.py]) together with the
    properties they are specified to have.

    Python's [float] is an IEEE-754 binary64 number; it is modelled with
    the executable specification of the Standard Library
    ([SpecFloat.spec_float] at precision 53 and maximal exponent 1024),
    so that rounding, infinities and NaN behave as they do in CPython.
    Python's [int] is an unbounded integer, modelled by [Z]. *)

From Stdlib Require Import ZArith Lia Bool Ascii String.
From Stdlib Require Import Floats.SpecFloat.
From Stdlib Require DecimalString DecimalPos.
From stdpp Require Import base option list strings gmap.

Local Open Scope Z_scope.

(** ** Binary64 arithmetic, as used by CPython's [float] *)

Module Binary64.

Definition prec : Z := 53.
Definition emax : Z := 1024.

Abbreviation float := spec_float.

Definition valid (x : float) : bool := valid_binary prec emax x.

Definition fadd : float -> float -> float := SFadd prec emax.
Definition fmul : float -> float -> float := SFmul prec emax.
Definition fcompare : float -> float -> option comparison := SFcompare.

(** [x == y], [x <= y] and [x >= y] on floats: false as soon as one side
    is NaN. *)
Definition feqb (x y : float) : bool := SFeqb x y.
Definition fleb (x y : float) : bool := SFleb x y.
Definition fgeb (x y : float) : bool := SFleb y x.

Definition is_nan (x : float) : bool :=
  match x with S754_nan => true | _ => false end.

Definition is_finite (x : float) : bool :=
  match x with S754_zero _ | S754_finite _ _ _ => true | _ => false end.

(** The literals that occur in the sources. *)
Definition zero : float := S754_zero false.                       (* 0.0 *)
Definition one : float := S754_finite false 4503599627370496 (-52). (* 1.0 *)
Definition lit_0_15 : float :=
  S754_finite false 5404319552844595 (-55).                       (* 0.15 *)

(** Conversion of a Python [int] to a [float] (what [float.__add__] and
    [float()] do with an [int] operand): the nearest double, ties to
    even; [None] stands for the [OverflowError] "int too large to convert
    to float" raised when that rounding leaves the finite range. *)
Definition of_int (z : Z) : option float :=
  match binary_normalize prec emax z 0 false with
  | S754_infinity _ => None
  | f => Some f
  end.

(** The value of a finite float counted in units of the smallest
    subnormal, [2^-1074]: an integer for every valid float. *)
Definition units (x : float) : Z :=
  match x with
  | S754_finite s m e => cond_Zopp s (Z.pos m * 2 ^ (e + 1074))
  | _ => 0
  end.

(** Values used as sample arguments below. *)
Definition minus_one : float := S754_finite true 4503599627370496 (-52).  (* -1.0 *)
Definition tenth : float := S754_finite false 7205759403792794 (-56).     (* 0.1 *)
Definition two_pow_53 : float := S754_finite false 4503599627370496 1.    (* 9007199254740992.0 *)

(** *** Rounding, stated on integers

    The sum of two finite doubles is an integer number of units, and the
    double returned is that integer rounded to 53 significant bits, ties
    to even.  The next definitions state this directly on [Z]; they are
    the specification that [fadd] is proved to meet. *)

(** Position of a remainder [r] below a divisor [2^n]. *)
Definition loc_of (r n : Z) : location :=
  if r =? 0 then loc_Exact else loc_Inexact (2 * r ?= 2 ^ n).

(** The number of low bits of [N] that do not fit in the mantissa. *)
Definition shift_of (N : Z) : Z := Z.max (Zdigits2 N - 53) 0.

(** [N > 0] rounded to 53 significant bits. *)
Definition round_units (N : Z) : Z :=
  let k := shift_of N in
  round_nearest_even (N / 2 ^ k) (loc_of (N mod 2 ^ k) k) * 2 ^ k.

(** A non-negative value that needs no rounding. *)
Definition representable (V : Z) : bool := V mod 2 ^ shift_of V =? 0.

(** The float of sign [s] and magnitude [V] units, [V] already rounded;
    magnitudes from [2^1024] on are infinite. *)
Definition encode (s : bool) (V : Z) : float :=
  if V =? 0 then S754_zero s
  else if 2 ^ 2098 <=? V then S754_infinity s
  else S754_finite s (Z.to_pos (V / 2 ^ shift_of V)) (shift_of V - 1074).

(** The float nearest to [V] units. *)
Definition rounded (V : Z) : float :=
  match V with
  | Z0 => S754_zero false
  | Zpos _ => encode false (round_units V)
  | Zneg p => encode true (round_units (Z.pos p))
  end.

(** Both floats are finite doubles and their exact sum is one too. *)
Definition exact_sum (x y : float) : bool :=
  valid x && valid y && is_finite x && is_finite y &&
  representable (Z.abs (units x + units y)) &&
  (Z.abs (units x + units y) <? 2 ^ 2098).

End Binary64.

Import Binary64.

(** ** The fragment of Python the three modules rely on *)

Module Py.

(** The exceptions the modelled code can raise. *)
Inductive exn : Set :=
  | ValueError
  | TypeError
  | OverflowError
  | FileNotFoundError
  | FileExistsError
  | NotADirectoryError.

(** Result of evaluating an expression: a value, or a raised exception. *)
Inductive outcome (A : Type) : Type :=
  | Returned (a : A)
  | Raised (e : exn).
Arguments Returned {A} a.
Arguments Raised {A} e.

Definition bind {A B : Type} (o : outcome A) (k : A -> outcome B) : outcome B :=
  match o with
  | Returned a => k a
  | Raised e => Raised e
  end.

Definition raises {A : Type} (o : outcome A) : bool :=
  match o with Raised _ => true | Returned _ => false end.

(** Numeric arguments: an [int] or a [float] ([bool] is a subclass of
    [int] and behaves as [0] or [1]). *)
Inductive number : Type :=
  | Int (z : Z)
  | Float (f : float).

(** The objects stored in dictionaries and module constants. *)
Inductive value : Type :=
  | VInt (z : Z)
  | VFloat (f : float)
  | VStr (s : string).

(** A number is well formed when its float is a double. *)
Definition wf (n : number) : bool :=
  match n with
  | Int _ => true
  | Float f => valid f
  end.

(** [n >= 0]. *)
Definition nonneg (n : number) : bool :=
  match n with
  | Int z => 0 <=? z
  | Float f => fleb zero f
  end.

(** [a == v] for a float [a]: an [int] is compared by its exact value. *)
Definition py_eq (a : float) (v : number) : bool :=
  match v with
  | Float f => feqb a f
  | Int z => is_finite a && (units a =? z * 2 ^ 1074)
  end.

(** Coercion of the right operand of [float.__add__]. *)
Definition as_double (n : number) : outcome float :=
  match n with
  | Float f => Returned f
  | Int z =>
      match of_int z with
      | Some f => Returned f
      | None => Raised OverflowError
      end
  end.

(** [x + n] for a [float] x. *)
Definition float_add (x : float) (n : number) : outcome float :=
  match as_double n with
  | Returned d => Returned (fadd x d)
  | Raised e => Raised e
  end.

(** [k * n] for an [int] k. *)
Definition int_mul (k : Z) (n : number) : outcome number :=
  match n with
  | Int z => Returned (Int (k * z))
  | Float f =>
      match of_int k with
      | Some kf => Returned (Float (fmul kf f))
      | None => Raised OverflowError
      end
  end.

(** *** Numeric literals in strings: [int(s)] and [float(s)]

    Both constructors strip surrounding whitespace, accept one sign and
    allow single underscores between digits.  Only ASCII input is
    modelled; CPython's limit on the length of integer strings is not. *)

Definition is_space (c : ascii) : bool :=
  let n := Z.of_nat (nat_of_ascii c) in
  ((9 <=? n) && (n <=? 13)) || (n =? 32).

Definition is_digit (c : ascii) : bool :=
  let n := Z.of_nat (nat_of_ascii c) in (48 <=? n) && (n <=? 57).

Definition digit_value (c : ascii) : Z := Z.of_nat (nat_of_ascii c) - 48.

Definition is_char (k : ascii) (c : ascii) : bool :=
  Nat.eqb (nat_of_ascii k) (nat_of_ascii c).

(** ASCII lower-casing, for the case-insensitive [inf] and [nan]. *)
Definition lower (c : ascii) : ascii :=
  let n := nat_of_ascii c in
  if (Nat.leb 65 n && Nat.leb n 90)%bool then ascii_of_nat (n + 32) else c.

Fixpoint lstrip (s : list ascii) : list ascii :=
  match s with
  | c :: r => if is_space c then lstrip r else s
  | [] => []
  end.

Definition strip (s : list ascii) : list ascii :=
  rev (lstrip (rev (lstrip s))).

(** After a first digit: more digits, each optionally preceded by one
    underscore.  Returns the digits read and the unread rest. *)
Fixpoint digits_tail (s : list ascii) : list ascii * list ascii :=
  match s with
  | c :: r =>
      if is_digit c then
        let (ds, rest) := digits_tail r in (c :: ds, rest)
      else if is_char "_" c then
        match r with
        | d :: r' =>
            if is_digit d then
              let (ds, rest) := digits_tail r' in (d :: ds, rest)
            else ([], s)
        | [] => ([], s)
        end
      else ([], s)
  | [] => ([], [])
  end.

Definition digitpart (s : list ascii) : option (list ascii * list ascii) :=
  match s with
  | c :: r =>
      if is_digit c then
        let (ds, rest) := digits_tail r in Some (c :: ds, rest)
      else None
  | [] => None
  end.

Definition digits_value (ds : list ascii) : Z :=
  fold_left (fun acc c => 10 * acc + digit_value c) ds 0.

(** An optional sign: [true] for [-]. *)
Definition sign (s : list ascii) : bool * list ascii :=
  match s with
  | c :: r =>
      if is_char "-" c then (true, r)
      else if is_char "+" c then (false, r)
      else (false, s)
  | [] => (false, [])
  end.

(** [int(s)] in base ten. *)
Definition int_of_string (s : string) : option Z :=
  let (neg, body) := sign (strip (list_ascii_of_string s)) in
  match digitpart body with
  | Some (ds, []) => Some (cond_Zopp neg (digits_value ds))
  | _ => None
  end.

(** The double nearest to [m * 10^e10] (ties to even), with sign [neg]:
    what CPython's correctly rounded [strtod] returns, overflow giving an
    infinity. *)
Definition double_of_decimal (neg : bool) (m : Z) (e10 : Z) : float :=
  match m with
  | Z0 => S754_zero neg
  | Zneg _ => S754_nan
  | Zpos _ =>
      if 0 <=? e10 then
        binary_normalize prec emax (cond_Zopp neg (m * 10 ^ e10)) 0 false
      else
        let '(q, e, l) := SFdiv_core_binary prec emax m 0 (10 ^ (- e10)) 0 in
        binary_round_aux prec emax neg q e l
  end.

(** The exponent part of a float literal: [e] or [E], a sign, digits. *)
Definition exponent (s : list ascii) : option (Z * list ascii) :=
  match s with
  | c :: r =>
      if is_char "e" (lower c) then
        let (neg, r') := sign r in
        match digitpart r' with
        | Some (ds, rest) => Some (cond_Zopp neg (digits_value ds), rest)
        | None => None
        end
      else Some (0, s)
  | [] => Some (0, [])
  end.

(** Mantissa digits before and after the point, and the unread rest. *)
Definition mantissa (s : list ascii)
  : option (list ascii * list ascii * list ascii) :=
  let '(ip, r1) :=
    match digitpart s with
    | Some (ds, r) => (ds, r)
    | None => ([], s)
    end in
  match r1 with
  | c :: r2 =>
      if is_char "." c then
        let '(fp, r3) :=
          match digitpart r2 with
          | Some (ds, r) => (ds, r)
          | None => ([], r2)
          end in
        match ip, fp with
        | [], [] => None
        | _, _ => Some (ip, fp, r3)
        end
      else match ip with [] => None | _ => Some (ip, [], r1) end
  | [] => match ip with [] => None | _ => Some (ip, [], []) end
  end.

(** [float(s)]. *)
Definition float_of_string (s : string) : option float :=
  let (neg, body) := sign (strip (list_ascii_of_string s)) in
  let word := string_of_list_ascii (map lower body) in
  if (String.eqb word "inf" || String.eqb word "infinity")%bool then
    Some (S754_infinity neg)
  else if String.eqb word "nan" then Some S754_nan
  else
    match mantissa body with
    | Some (ip, fp, r) =>
        match exponent r with
        | Some (e, []) =>
            Some (double_of_decimal neg (digits_value (ip ++ fp))
                    (e - Z.of_nat (length fp)))
        | _ => None
        end
    | None => None
    end.

(** [int(x)] of a float: truncation towards zero. *)
Definition int_of_float (f : float) : outcome Z :=
  match f with
  | S754_zero _ => Returned 0
  | S754_finite s m e =>
      Returned (cond_Zopp s (if 0 <=? e then Z.pos m * 2 ^ e
                             else Z.pos m / 2 ^ (- e)))
  | S754_infinity _ => Raised OverflowError
  | S754_nan => Raised ValueError
  end.

(** The built-in constructors [float(x)] and [int(x)]. *)
Definition py_float (x : value) : outcome float :=
  match x with
  | VFloat f => Returned f
  | VInt z => as_double (Int z)
  | VStr s =>
      match float_of_string s with
      | Some f => Returned f
      | None => Raised ValueError
      end
  end.

Definition py_int (x : value) : outcome Z :=
  match x with
  | VInt z => Returned z
  | VFloat f => int_of_float f
  | VStr s =>
      match int_of_string s with
      | Some z => Returned z
      | None => Raised ValueError
      end
  end.

End Py.

Import Py.

Notation "'do' x <- c1 ; c2" := (bind c1 (fun x => c2))
  (at level 10, x name, c1 at level 100, c2 at level 200).

(** ** century_life.py *)

Module CenturyLife.

Local Open Scope string_scope.

(** The two instance attributes of a [CenturyLifeDevice]. *)
Record CenturyLifeDevice : Type := mkDevice {
  age : float;
  stage : string
}.

(** [__init__]: [self.age = 0.0], [self.stage = 'Neonate']. *)
Definition __init__ : CenturyLifeDevice :=
  {| age := zero; stage := "Neonate" |}.

(** The default value of the parameter [dt]. *)
Definition dt_default : number := Float one.

(** [tick(self, dt=1.0)]: the object after the call, and what the call
    returns or raises.  [self.age += dt] evaluates [self.age + dt] first
    and assigns only when that succeeded, so an exception leaves the
    object as it was. *)
Definition tick (self : CenturyLifeDevice) (dt : option number)
  : CenturyLifeDevice * outcome (gmap string value) :=
  let dt := default dt_default dt in
  match float_add (age self) dt with
  | Raised e => (self, Raised e)
  | Returned a =>
      let self' := {| age := a; stage := stage self |} in
      (self', Returned {[ "age" := VFloat (age self'); "stage" := VStr (stage self') ]})
  end.

(** [n] successive calls [tick(dt)] on the same object. *)
Fixpoint tick_n (n : nat) (dt : number) (self : CenturyLifeDevice) : CenturyLifeDevice :=
  match n with
  | O => self
  | S k => tick_n k dt (fst (tick self (Some dt)))
  end.

(** The one sum of infinities that is not a number: an age of [-inf]
    and an argument of [+inf]. *)
Definition opposite_infinities (a : float) (dt : number) : bool :=
  match a, dt with
  | S754_infinity true, Float (S754_infinity false) => true
  | _, _ => false
  end.

(** Arguments that are doubles, and arguments that moreover are not
    negative ([None] is the default, [1.0]). *)
Definition good (o : option number) : bool := wf (default dt_default o).
Definition upward (o : option number) : bool :=
  wf (default dt_default o) && nonneg (default dt_default o).

(** The object after a sequence of calls of [tick] on a freshly
    constructed one, each with its own argument (or none). *)
Definition after_calls (calls : list (option number)) : CenturyLifeDevice :=
  fold_left (fun d dt => fst (tick d dt)) calls __init__.

End CenturyLife.

Import CenturyLife.

(** ** config.py *)

Module Config.

Local Open Scope string_scope.

(** [os.environ]: variable names to their (string) values. *)
Abbreviation environ := (gmap string string).

(** [load_dotenv()] with its default [override=False]: every binding of
    the [.env] file it finds is added to [os.environ] unless the name is
    already set there.  [dotenv] holds the bindings of that file, and is
    empty when there is none. *)
Definition load_dotenv (dotenv : environ) (env : environ) : environ :=
  env ∪ dotenv.

(** [os.getenv(key, default)]: the string bound to [key], else the
    [default] object itself. *)
Definition getenv (env : environ) (key : string) (default : value) : value :=
  match env !! key with
  | Some s => VStr s
  | None => default
  end.

(** The module-level constants. *)
Record config : Type := mkConfig {
  CENTURY_REAL_SEC : float;
  BURST_CAP_PER_HOUR : float;
  STASIS_FILL_RATE : float;
  STASIS_MAX_HOURS : Z;
  VFS_PATH : value;
  LOG_PATH : value;
  SKIN_MODE : value
}.

(** Execution of the module body on import, top to bottom: the first
    constructor call that raises aborts the import. *)
Definition load (dotenv process_env : environ) : outcome config :=
  let env := load_dotenv dotenv process_env in
  do century <- py_float (getenv env "CENTURY_REAL_SEC" (VInt 2592000));
  do burst <- py_float (getenv env "BURST_CAP_PER_HOUR" (VFloat one));
  do fill <- py_float (getenv env "STASIS_FILL_RATE" (VFloat lit_0_15));
  do hours <- py_int (getenv env "STASIS_MAX_HOURS" (VInt 72));
  Returned {| CENTURY_REAL_SEC := century;
              BURST_CAP_PER_HOUR := burst;
              STASIS_FILL_RATE := fill;
              STASIS_MAX_HOURS := hours;
              VFS_PATH := getenv env "VFS_PATH" (VStr "./vfs");
              LOG_PATH := getenv env "LOG_PATH" (VStr "./logs");
              SKIN_MODE := getenv env "SKIN_MODE" (VStr "BSS") |}.

(** The variables read with a numeric coercion, and the coercion applied
    to each. *)
Definition coercible (key : string) (s : string) : bool :=
  if String.eqb key "STASIS_MAX_HOURS" then negb (raises (py_int (VStr s)))
  else negb (raises (py_float (VStr s))).

Definition numeric_keys : list string :=
  ["CENTURY_REAL_SEC"; "BURST_CAP_PER_HOUR"; "STASIS_FILL_RATE"; "STASIS_MAX_HOURS"].

Definition config_keys : list string :=
  numeric_keys ++ ["VFS_PATH"; "LOG_PATH"; "SKIN_MODE"].

(** Whether a variable is set, and whether none of a list is. *)
Definition is_set (env : environ) (key : string) : bool :=
  match env !! key with Some _ => true | None => false end.

Definition none_set (env : environ) (keys : list string) : bool :=
  forallb (fun k => negb (is_set env k)) keys.

(** The constants as documented: [2592000.0], [1.0], [0.15], [72] and
    the three strings. *)
Definition defaults : config :=
  {| CENTURY_REAL_SEC := S754_finite false 5566277615616000 (-31);
     BURST_CAP_PER_HOUR := one;
     STASIS_FILL_RATE := lit_0_15;
     STASIS_MAX_HOURS := 72;
     VFS_PATH := VStr "./vfs";
     LOG_PATH := VStr "./logs";
     SKIN_MODE := VStr "BSS" |}.

(** The constructor call wrapped around [os.getenv] for each variable. *)
Definition coerce (key : string) (x : value) : outcome value :=
  if String.eqb key "STASIS_MAX_HOURS" then
    do z <- py_int x; Returned (VInt z)
  else if existsb (String.eqb key) numeric_keys then
    do f <- py_float x; Returned (VFloat f)
  else Returned x.

(** The constant that a variable is read into. *)
Definition constant (c : config) (key : string) : value :=
  if String.eqb key "CENTURY_REAL_SEC" then VFloat (CENTURY_REAL_SEC c)
  else if String.eqb key "BURST_CAP_PER_HOUR" then VFloat (BURST_CAP_PER_HOUR c)
  else if String.eqb key "STASIS_FILL_RATE" then VFloat (STASIS_FILL_RATE c)
  else if String.eqb key "STASIS_MAX_HOURS" then VInt (STASIS_MAX_HOURS c)
  else if String.eqb key "VFS_PATH" then VFS_PATH c
  else if String.eqb key "LOG_PATH" then LOG_PATH c
  else SKIN_MODE c.

(** *** Where [load_dotenv()] takes its file from

    Called without arguments, [load_dotenv()] asks [find_dotenv()] for
    the file: it looks for a regular file named [.env] in a start
    directory, then in each of its parents up to the root, and takes the
    first it meets.  The start directory is that of the module calling
    [load_dotenv()], here the directory of [config.py]; only when Python
    has no main file (an interactive session; the library treats a
    frozen or traced interpreter alike) does the search start in the
    working directory.  In recent releases of python-dotenv the call
    does nothing when the variable [PYTHON_DOTENV_DISABLED] holds a true
    value. *)

(** The directories visited, nearest first: [dir], its parent, and so
    on up to the root [[]]. *)
Fixpoint walk_up (n : nat) (dir : list string) : list (list string) :=
  take n dir :: match n with O => [] | S k => walk_up k dir end.

Definition walk_to_root (dir : list string) : list (list string) :=
  walk_up (length dir) dir.

(** The [.env] files present: the directory of each, with the bindings
    the file holds. *)
Abbreviation dotenv_files := (gmap (list string) environ).

Fixpoint first_dotenv (dirs : list (list string)) (files : dotenv_files)
  : option environ :=
  match dirs with
  | [] => None
  | dir :: rest =>
      match files !! dir with
      | Some bindings => Some bindings
      | None => first_dotenv rest files
      end
  end.

Definition find_dotenv (start : list string) (files : dotenv_files)
  : option environ :=
  first_dotenv (walk_to_root start) files.

(** How the interpreter was started: the directory of [config.py], the
    working directory, and whether the search starts there (an
    interactive session) rather than at [config.py]. *)
Record launch : Type := mkLaunch {
  module_dir : list string;
  working_dir : list string;
  interactive : bool
}.

Definition search_start (l : launch) : list string :=
  if interactive l then working_dir l else module_dir l.

(** [PYTHON_DOTENV_DISABLED] set to [1], [true], [t], [yes] or [y], in
    any case of the letters. *)
Definition dotenv_disabled (env : environ) : bool :=
  match env !! "PYTHON_DOTENV_DISABLED" with
  | None => false
  | Some v =>
      let w := string_of_list_ascii (map lower (list_ascii_of_string v)) in
      existsb (String.eqb w) ["1"; "true"; "t"; "yes"; "y"]
  end.

(** The bindings [load_dotenv()] offers to [os.environ]: those of the
    file found, none when there is no file or loading is disabled. *)
Definition dotenv_bindings (l : launch) (files : dotenv_files) (penv : environ)
  : environ :=
  if dotenv_disabled penv then ∅
  else default ∅ (find_dotenv (search_start l) files).

(** The import of [config] in a given launch and file system. *)
Definition import_config (l : launch) (files : dotenv_files) (penv : environ)
  : outcome config :=
  load (dotenv_bindings l files penv) penv.

End Config.

Import Config.

(** ** main.py *)

Module Main.

Local Open Scope string_scope.

(** *** The file system

    A map from absolute paths (the components below the root, outermost
    first) to the kind of node found there.  The root itself is always a
    directory, and the working directory is taken to be an existing one.
    Symbolic links and permissions are not modelled, nor are the limits
    and refusals of a particular file system (name length, read-only or
    virtual file systems): [os.mkdir] fails below only for the reasons
    that a tree of files and directories itself gives. *)
Inductive node : Set := Dir | File.

Abbreviation filesystem := (gmap (list string) node).

Definition node_at (fs : filesystem) (p : list string) : option node :=
  match p with
  | [] => Some Dir
  | _ => fs !! p
  end.

(** Resolution of the components [comps] starting in the directory
    [cur], as the kernel does it: [..] steps to the parent, any other
    name must be an existing directory. *)
Fixpoint walk (fs : filesystem) (cur : list string) (comps : list string)
  : outcome (list string) :=
  match comps with
  | [] => Returned cur
  | c :: rest =>
      if String.eqb c ".." then walk fs (removelast cur) rest
      else
        match node_at fs (cur ++ [c])%list with
        | Some Dir => walk fs (cur ++ [c])%list rest
        | Some File => Raised NotADirectoryError
        | None => Raised FileNotFoundError
        end
  end.

(** *** pathlib

    A [Path] as pathlib keeps it: whether it is anchored at the root, and
    its components, innermost first (so that [parent] is the tail).
    Empty and [.] components are dropped on construction, [..] is kept. *)
Record Path : Type := mkPath {
  anchored : bool;
  rparts : list string
}.

Fixpoint split_slash (s : string) : list string :=
  match s with
  | EmptyString => [EmptyString]
  | String c r =>
      if is_char "/" c then EmptyString :: split_slash r
      else
        match split_slash r with
        | h :: t => String c h :: t
        | [] => [String c EmptyString]
        end
  end.

Definition kept (c : string) : bool :=
  negb (String.eqb c EmptyString || String.eqb c ".").

Definition path_of_string (s : string) : Path :=
  {| anchored := match s with String c _ => is_char "/" c | EmptyString => false end;
     rparts := rev (filter (fun c => Is_true (kept c)) (split_slash s)) |}.

(** [Path(x)]: only strings are accepted. *)
Definition Path_new (x : value) : outcome Path :=
  match x with
  | VStr s => Returned (path_of_string s)
  | _ => Raised TypeError
  end.

(** Where resolution of a path starts. *)
Definition origin (cwd : list string) (p : Path) : list string :=
  if anchored p then [] else cwd.

(** [os.mkdir(p)]: creates exactly one directory, or raises and leaves
    the file system as it was. *)
Definition os_mkdir (cwd : list string) (p : Path) (fs : filesystem)
  : outcome filesystem :=
  match rparts p with
  | [] => Raised FileExistsError
  | name :: rparent =>
      do dir <- walk fs (origin cwd p) (rev rparent);
      if String.eqb name ".." then Raised FileExistsError
      else
        match node_at fs (dir ++ [name])%list with
        | Some _ => Raised FileExistsError
        | None => Returned (<[(dir ++ [name])%list := Dir]> fs)
        end
  end.

(** [Path.is_dir()]: false when resolution fails. *)
Definition is_dir (cwd : list string) (p : Path) (fs : filesystem) : bool :=
  negb (raises (walk fs (origin cwd p) (rev (rparts p)))).

(** Commands on the file system: the file system after the command, and
    what the command returned or raised. *)
Definition cmd (A : Type) : Type := filesystem -> filesystem * outcome A.

Definition seq {A B : Type} (c : cmd A) (k : A -> cmd B) : cmd B :=
  fun fs =>
    match c fs with
    | (fs', Returned a) => k a fs'
    | (fs', Raised e) => (fs', Raised e)
    end.

(** [Path.mkdir(parents=False, exist_ok=...)]. *)
Definition mkdir_single (exist_ok : bool) (cwd : list string) (p : Path) : cmd unit :=
  fun fs =>
    match os_mkdir cwd p fs with
    | Returned fs' => (fs', Returned tt)
    | Raised FileNotFoundError => (fs, Raised FileNotFoundError)
    | Raised e =>
        if exist_ok && is_dir cwd p fs then (fs, Returned tt) else (fs, Raised e)
    end.

(** [Path.mkdir(parents=True, exist_ok=...)] on the path with components
    [rp]: when a parent is missing, the parents are created first (with
    [exist_ok=True]) and the directory itself is then created without
    [parents]. *)
Fixpoint mkdir_parents (exist_ok : bool) (cwd : list string) (anch : bool)
    (rp : list string) : cmd unit :=
  fun fs =>
    match os_mkdir cwd (mkPath anch rp) fs with
    | Returned fs' => (fs', Returned tt)
    | Raised FileNotFoundError =>
        match rp with
        | [] => (fs, Raised FileNotFoundError)
        | _ :: parent =>
            seq (mkdir_parents true cwd anch parent)
                (fun _ => mkdir_single exist_ok cwd (mkPath anch rp)) fs
        end
    | Raised e =>
        if exist_ok && is_dir cwd (mkPath anch rp) fs then (fs, Returned tt)
        else (fs, Raised e)
    end.

Definition Path_mkdir (parents exist_ok : bool) (cwd : list string) (p : Path)
  : cmd unit :=
  if parents then mkdir_parents exist_ok cwd (anchored p) (rparts p)
  else mkdir_single exist_ok cwd p.

(** [ensure_dirs()], run in working directory [cwd] with the constants
    of the configuration [c]. *)
Definition ensure_dirs (c : config) (cwd : list string) : cmd unit :=
  fun fs =>
    match Path_new (VFS_PATH c) with
    | Raised e => (fs, Raised e)
    | Returned vfs =>
        seq (Path_mkdir true true cwd vfs)
            (fun _ fs1 =>
               match Path_new (LOG_PATH c) with
               | Raised e => (fs1, Raised e)
               | Returned logs => Path_mkdir true true cwd logs fs1
               end) fs
    end.

(** Running [main.py]: the import of [config] comes first, and an
    exception it raises ends the run; then [main()] calls [ensure_dirs()].
    Printing is not modelled. *)
Definition program (dotenv process_env : environ) (cwd : list string) : cmd unit :=
  fun fs =>
    match load dotenv process_env with
    | Raised e => (fs, Raised e)
    | Returned c => ensure_dirs c cwd fs
    end.

End Main.

Import Main.

(** ** Runs, inputs and outputs used by the further properties *)

Module CenturyLifeRuns.

(** The object after a sequence of calls of [tick] started on any
    object [d], each call with its own argument (or none). *)
Definition run_from (d : CenturyLifeDevice) (calls : list (option number))
  : CenturyLifeDevice :=
  fold_left (fun d dt => fst (tick d dt)) calls d.

(** The least magnitude of an [int] that [float.__add__] cannot
    convert: half an ulp below [2^1024]. *)
Definition overflow_threshold : Z := 2 ^ 1024 - 2 ^ 970.

End CenturyLifeRuns.

Import CenturyLifeRuns.

Module Environment.

(** Two environments bind every name of [keys] alike. *)
Definition agree_on (keys : list string) (e1 e2 : environ) : bool :=
  forallb (fun k => bool_decide (e1 !! k = e2 !! k)) keys.

(** The value of [STASIS_MAX_HOURS], if set, has at most 640
    characters: up to that length [int()] reads a string of digits
    whatever limit on integer strings the interpreter runs with
    ([PYTHONINTMAXSTRDIGITS], [sys.set_int_max_str_digits]). *)
Definition short_hours (env : environ) : bool :=
  match env !! "STASIS_MAX_HOURS" with
  | Some s => Nat.leb (String.length s) 640
  | None => true
  end.

(** The string [s] with the characters [l] before it and [r] after. *)
Definition pad (l r : list ascii) (s : string) : string :=
  string_of_list_ascii (l ++ list_ascii_of_string s ++ r).

End Environment.

Import Environment.

Module Layout.

Local Open Scope string_scope.

(** A path none of whose components is [..]. *)
Definition plain (p : Path) : bool :=
  forallb (fun c => negb (String.eqb c "..")) (rparts p).

(** The places on the way from [base] down the components [rp]
    (innermost first), outermost first and ending with the path itself. *)
Fixpoint chain (base : list string) (rp : list string) : list (list string) :=
  match rp with
  | [] => []
  | _ :: parent => chain base parent ++ [(base ++ rev rp)%list]
  end.

(** The places [Path(p).mkdir(parents=True)] may have to fill when run
    in [cwd]. *)
Definition wanted (cwd : list string) (p : Path) : list (list string) :=
  chain (origin cwd p) (rparts p).

Definition is_file (fs : filesystem) (k : list string) : bool :=
  match node_at fs k with Some File => true | _ => false end.

(** [fs'] is [fs] with directories added where nothing was. *)
Definition only_dirs_added (fs fs' : filesystem) : Prop :=
  fs ⊆ fs' /\ forall k n, fs' !! k = Some n -> fs !! k = None -> n = Dir.

End Layout.

Import Layout.

Module Console.

Local Open Scope string_scope.

(** [str(z)], which is also what an f-string makes of an [int]: the
    decimal digits, after a [-] for a negative number. *)
Definition str_int (z : Z) : string :=
  DecimalString.NilZero.string_of_int (Z.to_int z).

(** A replacement field [{x}] of an f-string.  The text of a float is
    its [repr]; the algorithm that picks its digits is not modelled, and
    [repr] stands for it. *)
Definition format (repr : float -> string) (v : value) : string :=
  match v with
  | VStr s => s
  | VInt z => str_int z
  | VFloat f => repr f
  end.

(** [banner()]: the five lines it prints. *)
Definition banner (repr : float -> string) (c : config) : list string :=
  [ "=== TamaOS Boot ===";
    "VFS=" ++ format repr (VFS_PATH c) ++ "  LOGS=" ++ format repr (LOG_PATH c)
      ++ "  SKIN=" ++ format repr (SKIN_MODE c);
    "CENTURY_REAL_SEC=" ++ format repr (VFloat (CENTURY_REAL_SEC c))
      ++ ", BURST_CAP_PER_HOUR=" ++ format repr (VFloat (BURST_CAP_PER_HOUR c));
    "STASIS_FILL_RATE=" ++ format repr (VFloat (STASIS_FILL_RATE c))
      ++ ", STASIS_MAX_HOURS=" ++ format repr (VInt (STASIS_MAX_HOURS c));
    "OK." ].

(** The file system together with the lines written to standard output
    so far.  Writing to standard output is taken never to fail. *)
Record world : Type := mkWorld {
  files : filesystem;
  stdout : list string
}.

(** [main()]: [ensure_dirs()], then [banner()], then one more line.  An
    exception of [ensure_dirs()] ends [main()] before anything is
    printed. *)
Definition main (repr : float -> string) (c : config) (cwd : list string)
  : world -> world * outcome unit :=
  fun w =>
    match ensure_dirs c cwd (files w) with
    | (fs', Raised e) => ({| files := fs'; stdout := stdout w |}, Raised e)
    | (fs', Returned _) =>
        ({| files := fs';
            stdout := stdout w ++ banner repr c
                      ++ ["Stub OS ready. Replace with full kernel/devices."] |},
         Returned tt)
    end.

End Console.

Import Console.

(** * Properties *)

(** ** Binary64 addition is exact addition followed by rounding *)

Section Rounding.

Lemma digits2_log2 (m : positive) : Z.pos (digits2_pos m) = Z.log2 (Z.pos m) + 1.
Proof.
  induction m as [m IH|m IH|]; simpl digits2_pos.
  - rewrite Pos2Z.inj_succ, IH. change (Z.pos m~1) with (2 * Z.pos m + 1).
    rewrite Z.log2_succ_double by lia. lia.
  - rewrite Pos2Z.inj_succ, IH. change (Z.pos m~0) with (2 * Z.pos m).
    rewrite Z.log2_double by lia. lia.
  - reflexivity.
Qed.

Lemma Zdigits2_log2 (n : Z) : 0 < n -> Zdigits2 n = Z.log2 n + 1.
Proof. destruct n; try lia. intros _. apply digits2_log2. Qed.

Lemma digits_bounds (n : Z) : 0 < n -> 2 ^ (Zdigits2 n - 1) <= n < 2 ^ Zdigits2 n.
Proof.
  intros H. rewrite Zdigits2_log2 by lia.
  replace (Z.log2 n + 1 - 1) with (Z.log2 n) by lia.
  replace (Z.log2 n + 1) with (Z.succ (Z.log2 n)) by lia.
  apply Z.log2_spec; lia.
Qed.

Lemma digits_unique (n d : Z) : 2 ^ (d - 1) <= n < 2 ^ d -> 0 < d -> Zdigits2 n = d.
Proof.
  intros H Hd.
  assert (0 < n) by (pose proof (Z.pow_pos_nonneg 2 (d - 1)); lia).
  rewrite Zdigits2_log2 by lia.
  rewrite (Z.log2_unique n (d - 1)); try lia.
  replace (Z.succ (d - 1)) with d by lia. lia.
Qed.

Lemma digits_shift (n j : Z) : 0 < n -> 0 <= j -> Zdigits2 (n * 2 ^ j) = Zdigits2 n + j.
Proof.
  intros Hn Hj. pose proof (digits_bounds n Hn) as [H1 H2].
  assert (0 < Zdigits2 n) by (rewrite Zdigits2_log2 by lia; pose proof (Z.log2_nonneg n); lia).
  apply digits_unique; [|lia].
  replace (Zdigits2 n + j - 1) with (Zdigits2 n - 1 + j) by lia.
  rewrite !Z.pow_add_r by lia.
  pose proof (Z.pow_pos_nonneg 2 j). nia.
Qed.

Lemma iter_xO (m d : positive) : Z.pos (Pos.iter xO m d) = Z.pos m * 2 ^ Z.pos d.
Proof.
  induction d as [|d IH] using Pos.peano_ind.
  - simpl. lia.
  - rewrite Pos.iter_succ, Pos2Z.inj_succ, Z.pow_succ_r by lia.
    rewrite Pos2Z.inj_xO, IH. lia.
Qed.

Lemma iter_pos_iter {A} (f : A -> A) (n : positive) (x : A) :
  SpecFloat.iter_pos f n x = Pos.iter f x n.
Proof.
  revert x. induction n as [n IH|n IH|]; intros x; simpl.
  - rewrite !IH. now rewrite <- !Pos.iter_swap.
  - now rewrite !IH.
  - reflexivity.
Qed.

Lemma shr_1_spec (M n : Z) (mrs : shr_record) :
  0 <= M -> 0 <= n ->
  shr_m mrs = M / 2 ^ n ->
  loc_of_shr_record mrs = loc_of (M mod 2 ^ n) n ->
  shr_m (shr_1 mrs) = M / 2 ^ (n + 1) /\
  loc_of_shr_record (shr_1 mrs) = loc_of (M mod 2 ^ (n + 1)) (n + 1).
Proof.
  intros HM Hn Hm Hl.
  assert (Hp : 0 < 2 ^ n) by (apply Z.pow_pos_nonneg; lia).
  pose proof (Z.mod_pos_bound M (2 ^ n) Hp) as Hr.
  pose proof (Z.div_mod M (2 ^ n) ltac:(lia)) as HMq.
  assert (Hq0 : 0 <= M / 2 ^ n) by (apply Z.div_pos; lia).
  set (q := M / 2 ^ n) in *. set (r := M mod 2 ^ n) in *.
  assert (Hpow : 2 ^ (n + 1) = 2 * 2 ^ n) by (rewrite Z.pow_add_r by lia; lia).
  assert (Hdiv : M / 2 ^ (n + 1) = q / 2).
  { rewrite Hpow, Z.mul_comm, <- Z.div_div by lia. reflexivity. }
  assert (Hmod : M mod 2 ^ (n + 1) = (q mod 2) * 2 ^ n + r).
  { rewrite Hpow, Z.mul_comm, Z.rem_mul_r by lia. fold q r. lia. }
  unfold loc_of. rewrite Hdiv, Hmod, Hpow.
  pose proof (Z.div_mod q 2 ltac:(lia)) as Hq2.
  pose proof (Z.mod_pos_bound q 2 ltac:(lia)) as Hq2b.
  destruct mrs as [m rb sb]. simpl in Hm. subst m.
  assert (Hrs : orb rb sb = negb (r =? 0)).
  { unfold loc_of in Hl. destruct (r =? 0), rb, sb; simpl in *; congruence. }
  unfold shr_1. rewrite Hrs.
  destruct q as [|[p|p|]|p]; try lia; simpl shr_m; simpl loc_of_shr_record.
  - (* q = 0 *) 
    change (0 mod 2) with 0. change (0 / 2) with 0. split; [reflexivity|].
    replace (0 * 2 ^ n + r) with r by lia.
    destruct (Z.eqb_spec r 0); simpl; [reflexivity|].
    f_equal. symmetry. apply Z.compare_lt_iff. lia.
  - (* q = 2p+1 *)
    assert (Hd : Z.pos p~1 / 2 = Z.pos p) by (rewrite Pos2Z.inj_xI in *; lia).
    assert (He : Z.pos p~1 mod 2 = 1) by (rewrite Pos2Z.inj_xI in *; lia).
    rewrite Hd, He. split; [reflexivity|].
    destruct (Z.eqb_spec (1 * 2 ^ n + r) 0); [lia|].
    destruct (Z.eqb_spec r 0); simpl; f_equal; symmetry.
    + apply Z.compare_eq_iff. lia.
    + apply Z.compare_gt_iff. lia.
  - (* q = 2p *)
    assert (Hd : Z.pos p~0 / 2 = Z.pos p) by (rewrite Pos2Z.inj_xO in *; lia).
    assert (He : Z.pos p~0 mod 2 = 0) by (rewrite Pos2Z.inj_xO in *; lia).
    rewrite Hd, He. split; [reflexivity|].
    replace (0 * 2 ^ n + r) with r by lia.
    destruct (Z.eqb_spec r 0); simpl; [reflexivity|].
    f_equal. symmetry. apply Z.compare_lt_iff. lia.
  - (* q = 1 *)
    change (1 / 2) with 0. change (1 mod 2) with 1. split; [reflexivity|].
    destruct (Z.eqb_spec (1 * 2 ^ n + r) 0); [lia|].
    destruct (Z.eqb_spec r 0); simpl; f_equal; symmetry.
    + apply Z.compare_eq_iff. lia.
    + apply Z.compare_gt_iff. lia.
Qed.

Lemma shr_iter (M : Z) (p : positive) :
  0 <= M ->
  let mrs := SpecFloat.iter_pos shr_1 p (Build_shr_record M false false) in
  shr_m mrs = M / 2 ^ Z.pos p /\
  loc_of_shr_record mrs = loc_of (M mod 2 ^ Z.pos p) (Z.pos p).
Proof.
  intros HM. cbv zeta. rewrite iter_pos_iter.
  induction p as [|p IH] using Pos.peano_ind.
  - assert (H1 : shr_m (Build_shr_record M false false) = M / 2 ^ 0)
      by (simpl; now rewrite Z.div_1_r).
    assert (H2 : loc_of_shr_record (Build_shr_record M false false)
                 = loc_of (M mod 2 ^ 0) 0)
      by (simpl; now rewrite Z.mod_1_r).
    exact (shr_1_spec M 0 _ HM (Z.le_refl 0) H1 H2).
  - rewrite Pos.iter_succ, Pos2Z.inj_succ.
    destruct IH as [IH1 IH2].
    replace (Z.succ (Z.pos p)) with (Z.pos p + 1) by lia.
    apply shr_1_spec; auto; lia.
Qed.

Lemma fexp_eq (e : Z) : fexp prec emax e = Z.max (e - 53) (-1074).
Proof. reflexivity. Qed.

Lemma round_aux_noshift (s : bool) (m : positive) (e : Z) :
  fexp prec emax (Z.pos (digits2_pos m) + e) <= e ->
  binary_round_aux prec emax s (Z.pos m) e loc_Exact =
  if e <=? 971 then S754_finite s m e else S754_infinity s.
Proof.
  intros H. unfold binary_round_aux, shr_fexp. simpl Zdigits2.
  unfold shr at 2.
  destruct (fexp prec emax (Z.pos (digits2_pos m) + e) - e) eqn:E; try lia;
    simpl; unfold shr; rewrite E; reflexivity.
Qed.

Lemma round_nearest_even_cases (q : Z) (l : location) :
  round_nearest_even q l = q \/ round_nearest_even q l = q + 1.
Proof.
  destruct l as [|[]]; simpl; auto. destruct (Z.even q); auto.
Qed.

Lemma quotient_bounds (m n : Z) :
  0 < m -> 0 <= n -> Zdigits2 m = n + 53 ->
  2 ^ 52 <= m / 2 ^ n < 2 ^ 53.
Proof.
  intros Hm Hn Hd. pose proof (digits_bounds m Hm) as [H1 H2].
  rewrite Hd in H1, H2.
  assert (Hp : 0 < 2 ^ n) by (apply Z.pow_pos_nonneg; lia).
  replace (n + 53 - 1) with (52 + n) in H1 by lia.
  replace (n + 53) with (53 + n) in H2 by lia.
  rewrite Z.pow_add_r in H1, H2 by lia.
  split.
  - apply Z.div_le_lower_bound; lia.
  - apply Z.div_lt_upper_bound; lia.
Qed.

Lemma round_aux_shift (s : bool) (m p : positive) (e : Z) :
  -1074 <= e ->
  Z.pos (digits2_pos m) = Z.pos p + 53 ->
  binary_round_aux prec emax s (Z.pos m) e loc_Exact =
  let q' := round_nearest_even (Z.pos m / 2 ^ Z.pos p)
              (loc_of (Z.pos m mod 2 ^ Z.pos p) (Z.pos p)) in
  if q' <? 2 ^ 53 then
    if e + Z.pos p <=? 971 then S754_finite s (Z.to_pos q') (e + Z.pos p)
    else S754_infinity s
  else
    if e + Z.pos p + 1 <=? 971 then S754_finite s (2 ^ 52) (e + Z.pos p + 1)
    else S754_infinity s.
Proof.
  intros He Hd.
  pose proof (quotient_bounds (Z.pos m) (Z.pos p) ltac:(lia) ltac:(lia) Hd) as Hq.
  pose proof (shr_iter (Z.pos m) p ltac:(lia)) as [Hm Hl]. cbv zeta in *.
  unfold binary_round_aux. unfold shr_fexp at 1. simpl Zdigits2.
  rewrite fexp_eq.
  replace (Z.max (Z.pos (digits2_pos m) + e - 53) (-1074) - e) with (Z.pos p) by lia.
  unfold shr at 1. simpl shr_record_of_loc.
  rewrite Hm, Hl.
  set (q := Z.pos m / 2 ^ Z.pos p) in *.
  set (l := loc_of (Z.pos m mod 2 ^ Z.pos p) (Z.pos p)).
  pose proof (round_nearest_even_cases q l) as Hq'.
  set (q' := round_nearest_even q l) in *.
  assert (Hq'b : 2 ^ 52 <= q' <= 2 ^ 53) by lia.
  unfold shr_fexp. rewrite fexp_eq.
  destruct (Z.ltb_spec q' (2 ^ 53)) as [Hlt|Hge].
  - assert (Hdq : Zdigits2 q' = 53) by (apply digits_unique; lia).
    rewrite Hdq.
    replace (Z.max (53 + (e + Z.pos p) - 53) (-1074) - (e + Z.pos p)) with 0 by lia.
    simpl shr. simpl shr_m.
    destruct q' as [|q1|q1]; try lia. reflexivity.
  - assert (Hq2 : q' = 2 ^ 53) by lia. rewrite Hq2.
    change (Zdigits2 (2 ^ 53)) with 54.
    replace (Z.max (54 + (e + Z.pos p) - 53) (-1074) - (e + Z.pos p)) with 1 by lia.
    reflexivity.
Qed.

Lemma loc_of_scale (r n j : Z) :
  0 <= j -> 0 <= n -> loc_of (r * 2 ^ j) (n + j) = loc_of r n.
Proof.
  intros Hj Hn. unfold loc_of.
  assert (Hp : 0 < 2 ^ j) by (apply Z.pow_pos_nonneg; lia).
  destruct (Z.eqb_spec r 0) as [->|Hr].
  - reflexivity.
  - destruct (Z.eqb_spec (r * 2 ^ j) 0) as [H0|_]; [nia|].
    f_equal. rewrite Z.pow_add_r by lia.
    replace (2 * (r * 2 ^ j)) with (2 * r * 2 ^ j) by lia.
    symmetry. apply Zmult_compare_compat_r. lia.
Qed.

Lemma pow_le_digits (V d : Z) : 0 < V -> 0 <= d -> (2 ^ d <= V <-> d < Zdigits2 V).
Proof.
  intros HV Hd. pose proof (digits_bounds V HV) as [H1 H2].
  assert (Hdv : 0 < Zdigits2 V)
    by (rewrite Zdigits2_log2 by lia; pose proof (Z.log2_nonneg V); lia).
  split; intros H.
  - destruct (Z.lt_ge_cases d (Zdigits2 V)) as [|Hge]; [assumption|].
    pose proof (Z.pow_le_mono_r 2 (Zdigits2 V) d ltac:(lia) Hge). lia.
  - pose proof (Z.pow_le_mono_r 2 d (Zdigits2 V - 1) ltac:(lia) ltac:(lia)). lia.
Qed.

(** An exact value with at most 53 significant digits is encoded as is. *)
Lemma encode_exact (s : bool) (m : positive) (k : Z) :
  0 <= k ->
  Z.pos (digits2_pos m) <= 53 ->
  (k = 0 \/ Z.pos (digits2_pos m) = 53) ->
  encode s (Z.pos m * 2 ^ k) =
  if k - 1074 <=? 971 then S754_finite s m (k - 1074) else S754_infinity s.
Proof.
  intros Hk Hd Hc.
  assert (Hp : 0 < 2 ^ k) by (apply Z.pow_pos_nonneg; lia).
  assert (HN : 0 < Z.pos m * 2 ^ k) by nia.
  assert (Hdig : Zdigits2 (Z.pos m * 2 ^ k) = Z.pos (digits2_pos m) + k)
    by (apply (digits_shift (Z.pos m)); lia).
  assert (Hs : shift_of (Z.pos m * 2 ^ k) = k) by (unfold shift_of; lia).
  unfold encode. rewrite Hs.
  destruct (Z.eqb_spec (Z.pos m * 2 ^ k) 0); [lia|].
  rewrite Z.div_mul by lia. simpl Z.to_pos.
  pose proof (pow_le_digits (Z.pos m * 2 ^ k) 2098 HN ltac:(lia)) as Hov.
  destruct (Z.leb_spec (2 ^ 2098) (Z.pos m * 2 ^ k));
    destruct (Z.leb_spec (k - 1074) 971); try reflexivity; lia.
Qed.

Lemma round_units_exact (m : positive) (j k : Z) :
  0 <= k <= j -> shift_of (Z.pos m * 2 ^ j) = k ->
  round_units (Z.pos m * 2 ^ j) = Z.pos m * 2 ^ j.
Proof.
  intros Hk Hs. unfold round_units. rewrite Hs.
  assert (Hp : 0 < 2 ^ k) by (apply Z.pow_pos_nonneg; lia).
  replace j with ((j - k) + k) by lia.
  rewrite Z.pow_add_r by lia. rewrite Z.mul_assoc.
  rewrite Z.div_mul, Z.mod_mul by lia.
  reflexivity.
Qed.

(** Rounding to nearest, ties to even, of the positive value
    [m * 2^e], [e] not below the exponent of the subnormals. *)
Lemma binary_round_units (s : bool) (m : positive) (e : Z) :
  -1074 <= e ->
  binary_round prec emax s m e = encode s (round_units (Z.pos m * 2 ^ (e + 1074))).
Proof.
  intros He.
  set (j := e + 1074). set (d := Z.pos (digits2_pos m)).
  assert (Hd0 : 0 < d) by (unfold d; lia).
  assert (Hpj : 0 < 2 ^ j) by (apply Z.pow_pos_nonneg; lia).
  assert (Hdig : Zdigits2 (Z.pos m * 2 ^ j) = d + j)
    by (apply (digits_shift (Z.pos m)); lia).
  assert (Hs : shift_of (Z.pos m * 2 ^ j) = Z.max (d + j - 53) 0)
    by (unfold shift_of; now rewrite Hdig).
  unfold binary_round. rewrite fexp_eq. fold d.
  unfold shl_align.
  destruct (Z.max (d + e - 53) (-1074) - e) as [|n|n] eqn:En.
  - (* already aligned *)
    rewrite round_aux_noshift by (rewrite fexp_eq; fold d; lia).
    rewrite (round_units_exact m j j) by lia.
    rewrite encode_exact by (fold d; lia).
    replace (j - 1074) with e by lia. reflexivity.
  - (* digits are shifted out *)
    assert (Hdn : d = Z.pos n + 53) by lia.
    rewrite (round_aux_shift s m n e He Hdn). cbv zeta.
    unfold round_units. rewrite Hs.
    replace (Z.max (d + j - 53) 0) with (Z.pos n + j) by lia.
    rewrite Z.pow_add_r by lia.
    rewrite Z.div_mul_cancel_r, Z.mul_mod_distr_r by lia.
    rewrite <- Z.pow_add_r by lia. rewrite loc_of_scale by lia.
    pose proof (quotient_bounds (Z.pos m) (Z.pos n) ltac:(lia) ltac:(lia) Hdn) as Hq.
    set (q := Z.pos m / 2 ^ Z.pos n) in *.
    set (l := loc_of (Z.pos m mod 2 ^ Z.pos n) (Z.pos n)).
    pose proof (round_nearest_even_cases q l) as Hq'.
    set (q' := round_nearest_even q l) in *.
    destruct (Z.ltb_spec q' (2 ^ 53)) as [Hlt|Hge].
    + destruct q' as [|q1|q1] eqn:Eq'; try lia.
      assert (Hd1 : Z.pos (digits2_pos q1) = 53)
        by (apply (digits_unique (Z.pos q1)); lia).
      rewrite encode_exact by lia.
      replace (Z.pos n + j - 1074) with (e + Z.pos n) by lia. reflexivity.
    + assert (Hq2 : q' = 2 ^ 53) by lia. rewrite Hq2.
      replace (2 ^ 53 * 2 ^ (Z.pos n + j)) with (Z.pos (2 ^ 52) * 2 ^ (Z.pos n + j + 1))
        by (rewrite (Z.pow_add_r 2 (Z.pos n + j) 1) by lia; lia).
      rewrite encode_exact by (try reflexivity; try lia; right; reflexivity).
      replace (Z.pos n + j + 1 - 1074) with (e + Z.pos n + 1) by lia. reflexivity.
  - (* the mantissa is padded *)
    cbv beta iota zeta.
    assert (Hdz : Z.pos (digits2_pos (Pos.iter xO m n)) = d + Z.pos n).
    { change (Z.pos (digits2_pos (Pos.iter xO m n))) with (Zdigits2 (Z.pos (Pos.iter xO m n))).
      rewrite iter_xO. apply (digits_shift (Z.pos m)); lia. }
    rewrite round_aux_noshift by (rewrite fexp_eq, Hdz; lia).
    set (k := Z.max (d + j - 53) 0) in *.
    rewrite (round_units_exact m j k) by lia.
    replace (Z.pos m * 2 ^ j) with (Z.pos (Pos.iter xO m n) * 2 ^ k).
    2:{ rewrite iter_xO. replace j with (Z.pos n + k) by lia.
        rewrite Z.pow_add_r by lia. lia. }
    rewrite encode_exact by lia.
    replace (k - 1074) with (Z.max (d + e - 53) (-1074)) by lia. reflexivity.
Qed.

Lemma rne_loc (q r k : Z) :
  0 <= r -> 0 <= k ->
  (2 * r < 2 ^ k -> round_nearest_even q (loc_of r k) = q) /\
  (2 ^ k < 2 * r -> round_nearest_even q (loc_of r k) = q + 1) /\
  (2 * r = 2 ^ k -> round_nearest_even q (loc_of r k) = if Z.even q then q else q + 1).
Proof.
  intros Hr Hk. assert (Hp : 0 < 2 ^ k) by (apply Z.pow_pos_nonneg; lia).
  unfold loc_of. destruct (Z.eqb_spec r 0) as [->|Hr0].
  - simpl. repeat split; intros; lia.
  - destruct (Z.compare_spec (2 * r) (2 ^ k)); simpl; repeat split; intros; try lia; reflexivity.
Qed.

Lemma shift_of_nonneg (N : Z) : 0 <= shift_of N.
Proof. unfold shift_of. lia. Qed.

Lemma digits_pos (N : Z) : 0 < N -> 0 < Zdigits2 N.
Proof.
  intros H. rewrite Zdigits2_log2 by lia. pose proof (Z.log2_nonneg N). lia.
Qed.

Lemma digits_mono (a b : Z) : 0 < a <= b -> Zdigits2 a <= Zdigits2 b.
Proof.
  intros H. rewrite !Zdigits2_log2 by lia.
  pose proof (Z.log2_le_mono a b). lia.
Qed.

(** The quotient and remainder that rounding works on. *)
Lemma shift_split (N : Z) :
  0 < N ->
  let k := shift_of N in
  let q := N / 2 ^ k in
  let r := N mod 2 ^ k in
  N = q * 2 ^ k + r /\ 0 <= r < 2 ^ k /\ 1 <= q < 2 ^ 53 /\
  (0 < k -> 2 ^ 52 <= q /\ Zdigits2 N = k + 53) /\
  (k = 0 -> r = 0 /\ q = N).
Proof.
  intros HN k q r.
  assert (Hk : 0 <= k) by apply shift_of_nonneg.
  assert (Hp : 0 < 2 ^ k) by (apply Z.pow_pos_nonneg; lia).
  pose proof (Z.div_mod N (2 ^ k) ltac:(lia)) as Hdm.
  pose proof (Z.mod_pos_bound N (2 ^ k) Hp) as Hrb.
  fold q r in Hdm, Hrb.
  pose proof (digits_bounds N HN) as [Hlo Hhi].
  pose proof (digits_pos N HN) as Hd.
  destruct (Z.eq_dec k 0) as [Hk0|Hk0].
  - assert (Hdn : Zdigits2 N <= 53) by (unfold k, shift_of in Hk0; lia).
    assert (Hq : q = N) by (unfold q; rewrite Hk0; apply Z.div_1_r).
    assert (Hr : r = 0) by (unfold r; rewrite Hk0; apply Z.mod_1_r).
    pose proof (Z.pow_le_mono_r 2 (Zdigits2 N) 53 ltac:(lia) Hdn).
    repeat split; try lia.
  - assert (Hdn : Zdigits2 N = k + 53) by (unfold k, shift_of in *; lia).
    pose proof (quotient_bounds N k HN Hk Hdn) as Hq. fold q in Hq.
    repeat split; try lia.
Qed.

Lemma round_units_cases (N : Z) :
  0 < N ->
  let k := shift_of N in
  let q := N / 2 ^ k in
  let r := N mod 2 ^ k in
  (2 * r < 2 ^ k -> round_units N = q * 2 ^ k) /\
  (2 ^ k < 2 * r -> round_units N = (q + 1) * 2 ^ k) /\
  (2 * r = 2 ^ k -> round_units N = (if Z.even q then q else q + 1) * 2 ^ k).
Proof.
  intros HN k q r.
  pose proof (shift_split N HN) as (_ & Hr & _). fold k r in Hr.
  pose proof (rne_loc q r k ltac:(lia) (shift_of_nonneg N)) as (H1 & H2 & H3).
  unfold round_units. fold k q r.
  repeat split; intros H; [rewrite H1|rewrite H2|rewrite H3]; auto.
Qed.

(** The rounded value is within half a unit in the last place. *)
Lemma round_units_error (N : Z) :
  0 < N -> 2 * Z.abs (round_units N - N) <= 2 ^ shift_of N.
Proof.
  intros HN.
  pose proof (shift_split N HN) as (HNq & Hr & _).
  pose proof (round_units_cases N HN) as (H1 & H2 & H3).
  cbv zeta in *.
  set (k := shift_of N) in *. set (q := N / 2 ^ k) in *. set (r := N mod 2 ^ k) in *.
  destruct (Z.lt_total (2 * r) (2 ^ k)) as [H|[H|H]].
  - rewrite (H1 H). lia.
  - rewrite (H3 H). destruct (Z.even q); lia.
  - rewrite (H2 H). lia.
Qed.

Lemma round_units_bounds (N : Z) :
  0 < N ->
  let k := shift_of N in
  (N / 2 ^ k) * 2 ^ k <= round_units N <= (N / 2 ^ k + 1) * 2 ^ k.
Proof.
  intros HN k.
  pose proof (shift_split N HN) as (HNq & Hr & _).
  pose proof (round_units_cases N HN) as (H1 & H2 & H3).
  cbv zeta in *. fold k in HNq, Hr, H1, H2, H3.
  set (q := N / 2 ^ k) in *. set (r := N mod 2 ^ k) in *.
  destruct (Z.lt_total (2 * r) (2 ^ k)) as [H|[H|H]].
  - rewrite (H1 H). lia.
  - rewrite (H3 H). destruct (Z.even q); lia.
  - rewrite (H2 H). lia.
Qed.

Lemma round_units_fixed (V : Z) :
  0 < V -> representable V = true -> round_units V = V.
Proof.
  intros HV Hr. apply Z.eqb_eq in Hr.
  pose proof (shift_split V HV) as (HVq & Hb & _).
  pose proof (round_units_cases V HV) as (H1 & _).
  cbv zeta in *. rewrite H1; lia.
Qed.

Lemma round_units_pos (N : Z) : 0 < N -> 0 < round_units N.
Proof.
  intros HN. pose proof (round_units_bounds N HN) as [Hlo _]. cbv zeta in Hlo.
  pose proof (shift_split N HN) as (_ & _ & Hq & _). cbv zeta in Hq.
  assert (0 < 2 ^ shift_of N) by (apply Z.pow_pos_nonneg; [lia | apply shift_of_nonneg]).
  nia.
Qed.

Lemma round_units_le_pow (N : Z) : 0 < N -> round_units N <= 2 ^ Zdigits2 N.
Proof.
  intros HN.
  pose proof (shift_split N HN) as (HNq & Hr & Hq & Hk & Hk0).
  pose proof (round_units_bounds N HN) as [_ Hhi].
  pose proof (digits_bounds N HN) as [_ Hd].
  cbv zeta in *.
  set (k := shift_of N) in *. set (q := N / 2 ^ k) in *.
  destruct (Z.eq_dec k 0) as [E|E].
  - destruct (Hk0 E) as [Hr0 HqN].
    pose proof (round_units_cases N HN) as (H1 & _). cbv zeta in H1.
    fold k q in H1. rewrite H1; [|rewrite Hr0, E; simpl; lia].
    rewrite E, Z.pow_0_r. lia.
  - assert (Hkp : 0 < k) by (pose proof (shift_of_nonneg N); lia).
    destruct (Hk Hkp) as [Hq52 Hdn]. rewrite Hdn.
    replace (k + 53) with (53 + k) by lia. rewrite Z.pow_add_r by lia.
    assert (0 < 2 ^ k) by (apply Z.pow_pos_nonneg; lia). nia.
Qed.

Lemma round_units_ge_pow (N : Z) : 0 < N -> 2 ^ (Zdigits2 N - 1) <= round_units N.
Proof.
  intros HN.
  pose proof (shift_split N HN) as (HNq & Hr & Hq & Hk & Hk0).
  pose proof (round_units_bounds N HN) as [Hlo _].
  pose proof (digits_bounds N HN) as [Hd _].
  cbv zeta in *.
  set (k := shift_of N) in *. set (q := N / 2 ^ k) in *.
  destruct (Z.eq_dec k 0) as [E|E].
  - destruct (Hk0 E) as [Hr0 HqN]. rewrite E, Z.pow_0_r in Hlo. lia.
  - assert (Hkp : 0 < k) by (pose proof (shift_of_nonneg N); lia).
    destruct (Hk Hkp) as [Hq52 Hdn]. rewrite Hdn.
    replace (k + 53 - 1) with (52 + k) by lia. rewrite Z.pow_add_r by lia.
    assert (0 < 2 ^ k) by (apply Z.pow_pos_nonneg; lia). nia.
Qed.

(** Rounding preserves the order. *)
Lemma round_units_mono (a b : Z) :
  0 < a <= b -> round_units a <= round_units b.
Proof.
  intros [Ha Hab]. assert (Hb : 0 < b) by lia.
  pose proof (digits_mono a b ltac:(lia)) as Hd.
  destruct (Z.eq_dec (Zdigits2 a) (Zdigits2 b)) as [Hdeq|Hdne].
  - assert (Hk : shift_of a = shift_of b) by (unfold shift_of; now rewrite Hdeq).
    pose proof (shift_split a Ha) as (Haq & Har & _).
    pose proof (shift_split b Hb) as (Hbq & Hbr & _).
    pose proof (round_units_cases a Ha) as (A1 & A2 & A3).
    pose proof (round_units_cases b Hb) as (B1 & B2 & B3).
    pose proof (round_units_bounds a Ha) as [_ Ahi].
    pose proof (round_units_bounds b Hb) as [Blo _].
    cbv zeta in *. rewrite <- Hk in *.
    set (k := shift_of a) in *.
    assert (Hp : 0 < 2 ^ k) by (apply Z.pow_pos_nonneg; [lia | apply shift_of_nonneg]).
    set (qa := a / 2 ^ k) in *. set (ra := a mod 2 ^ k) in *.
    set (qb := b / 2 ^ k) in *. set (rb := b mod 2 ^ k) in *.
    assert (Hq : qa <= qb) by (apply Z.div_le_mono; lia).
    destruct (Z.eq_dec qa qb) as [E|E].
    + assert (Hr : ra <= rb) by nia.
      rewrite <- E in *.
      destruct (Z.lt_total (2 * ra) (2 ^ k)) as [H|[H|H]];
        destruct (Z.lt_total (2 * rb) (2 ^ k)) as [H'|[H'|H']];
        try lia;
        try rewrite (A1 H); try rewrite (A2 H); try rewrite (A3 H);
        try rewrite (B1 H'); try rewrite (B2 H'); try rewrite (B3 H');
        destruct (Z.even qa); nia.
    + assert (qa + 1 <= qb) by lia. nia.
  - pose proof (round_units_le_pow a Ha) as Hup.
    pose proof (round_units_ge_pow b Hb) as Hlow.
    pose proof (Z.pow_le_mono_r 2 (Zdigits2 a) (Zdigits2 b - 1) ltac:(lia) ltac:(lia)).
    lia.
Qed.

Lemma round_units_representable (N : Z) :
  0 < N -> representable (round_units N) = true.
Proof.
  intros HN. unfold representable. apply Z.eqb_eq.
  pose proof (shift_split N HN) as (HNq & Hr & Hq & Hk & Hk0).
  pose proof (round_units_bounds N HN) as [Hlo Hhi].
  pose proof (round_units_cases N HN) as (H1 & H2 & H3).
  cbv zeta in *.
  set (k := shift_of N) in *. set (q := N / 2 ^ k) in *. set (r := N mod 2 ^ k) in *.
  assert (Hk0' : 0 <= k) by apply shift_of_nonneg.
  assert (Hp : 0 < 2 ^ k) by (apply Z.pow_pos_nonneg; lia).
  assert (Hex : exists q', 1 <= q' <= 2 ^ 53 /\ (0 < k -> 2 ^ 52 <= q') /\
                           round_units N = q' * 2 ^ k).
  { destruct (Z.lt_total (2 * r) (2 ^ k)) as [H|[H|H]].
    - exists q. rewrite (H1 H).
      repeat split; try lia; intros Hkp; destruct (Hk Hkp); lia.
    - exists (if Z.even q then q else q + 1). rewrite (H3 H).
      repeat split; destruct (Z.even q); try lia; intros Hkp; destruct (Hk Hkp); lia.
    - exists (q + 1). rewrite (H2 H).
      repeat split; try lia; intros Hkp; destruct (Hk Hkp); lia. }
  destruct Hex as (q' & Hq'b & Hq'k & ->).
  assert (Hsh : shift_of (q' * 2 ^ k) = k \/ shift_of (q' * 2 ^ k) = k + 1 /\ q' = 2 ^ 53).
  { unfold shift_of. rewrite digits_shift by lia.
    destruct (Z.eq_dec q' (2 ^ 53)) as [->|Hne].
    - right. change (Zdigits2 (2 ^ 53)) with 54. lia.
    - left. destruct (Z.eq_dec k 0) as [E|E].
      + assert (Zdigits2 q' <= 53).
        { destruct (Z.le_gt_cases (Zdigits2 q') 53); [assumption|].
          pose proof (pow_le_digits q' 53 ltac:(lia) ltac:(lia)). lia. }
        lia.
      + assert (Zdigits2 q' = 53) by (apply digits_unique; lia). lia. }
  destruct Hsh as [->|[-> ->]].
  - apply Z.mod_mul. lia.
  - rewrite (Z.pow_add_r 2 k 1) by lia.
    replace (2 ^ 53 * 2 ^ k) with (2 ^ 52 * (2 ^ k * 2 ^ 1))
      by (change (2 ^ 53) with (2 ^ 52 * 2); change (2 ^ 1) with 2; lia).
    apply Z.mod_mul. lia.
Qed.

Lemma valid_finite (s : bool) (m : positive) (e : Z) :
  valid (S754_finite s m e) = true <->
  Z.max (Z.pos (digits2_pos m) + e - 53) (-1074) = e /\ e <= 971.
Proof.
  unfold valid, valid_binary, bounded, canonical_mantissa.
  rewrite andb_true_iff, Z.eqb_eq, Z.leb_le, fexp_eq. reflexivity.
Qed.

Lemma valid_units (s : bool) (m : positive) (e : Z) :
  valid (S754_finite s m e) = true ->
  let V := Z.pos m * 2 ^ (e + 1074) in
  0 < V < 2 ^ 2098 /\ representable V = true /\ encode s V = S754_finite s m e.
Proof.
  intros Hv V. apply valid_finite in Hv as [Hc He].
  set (d := Z.pos (digits2_pos m)) in *.
  assert (Hd : 0 < d) by (unfold d; lia).
  assert (Hk : 0 <= e + 1074) by lia.
  assert (Hp : 0 < 2 ^ (e + 1074)) by (apply Z.pow_pos_nonneg; lia).
  assert (HV : 0 < V) by (unfold V; nia).
  assert (Hdig : Zdigits2 V = d + (e + 1074))
    by (apply (digits_shift (Z.pos m)); lia).
  assert (Hs : shift_of V = e + 1074) by (unfold shift_of; lia).
  split; [split; [assumption|]|split].
  - destruct (Z.lt_ge_cases V (2 ^ 2098)) as [|Hge]; [assumption|].
    apply pow_le_digits in Hge; lia.
  - unfold representable. rewrite Hs. apply Z.eqb_eq. apply Z.mod_mul. lia.
  - unfold V. rewrite encode_exact by (fold d; lia).
    replace (e + 1074 - 1074) with e by lia.
    destruct (Z.leb_spec e 971); [reflexivity|lia].
Qed.

Lemma encode_representable (s : bool) (V : Z) :
  0 < V < 2 ^ 2098 -> representable V = true ->
  exists m e, encode s V = S754_finite s m e /\
              valid (S754_finite s m e) = true /\
              Z.pos m * 2 ^ (e + 1074) = V.
Proof.
  intros [HV Hlt] Hr. apply Z.eqb_eq in Hr.
  pose proof (shift_split V HV) as (HVq & Hrb & Hq & Hk & Hk0). cbv zeta in *.
  set (k := shift_of V) in *. set (q := V / 2 ^ k) in *.
  assert (Hk' : 0 <= k) by apply shift_of_nonneg.
  assert (Hp : 0 < 2 ^ k) by (apply Z.pow_pos_nonneg; lia).
  destruct q as [|m|m] eqn:Eq; try lia.
  exists m, (k - 1074).
  assert (Hdv : Zdigits2 V <= 2098).
  { destruct (Z.le_gt_cases (Zdigits2 V) 2098); [assumption|].
    pose proof (pow_le_digits V 2098 HV ltac:(lia)). lia. }
  assert (Hdm : Zdigits2 V = Z.pos (digits2_pos m) + k).
  { rewrite HVq, Hr, Z.add_0_r. apply (digits_shift (Z.pos m)); lia. }
  split; [|split].
  - unfold encode. destruct (Z.eqb_spec V 0); [lia|].
    destruct (Z.leb_spec (2 ^ 2098) V); [lia|].
    fold k. fold q. rewrite Eq. reflexivity.
  - apply valid_finite.
    assert (Hkd : k = Z.max (Zdigits2 V - 53) 0) by reflexivity. lia.
  - replace (k - 1074 + 1074) with k by lia. lia.
Qed.

Lemma encode_overflow (s : bool) (V : Z) :
  2 ^ 2098 <= V -> encode s V = S754_infinity s.
Proof.
  intros H. unfold encode.
  destruct (Z.eqb_spec V 0); [lia|].
  destruct (Z.leb_spec (2 ^ 2098) V); [reflexivity|lia].
Qed.

(** On valid finite floats the comparison is the order of the values. *)
Lemma fcompare_units (x y : float) :
  valid x = true -> valid y = true ->
  is_finite x = true -> is_finite y = true ->
  fcompare x y = Some (units x ?= units y).
Proof.
  assert (Hcmp : forall m1 e1 m2 e2,
    valid (S754_finite false m1 e1) = true ->
    valid (S754_finite false m2 e2) = true ->
    (Z.pos m1 * 2 ^ (e1 + 1074) ?= Z.pos m2 * 2 ^ (e2 + 1074)) =
    match e1 ?= e2 with
    | Lt => Lt
    | Gt => Gt
    | Eq => Pos.compare_cont Eq m1 m2
    end).
  { intros m1 e1 m2 e2 H1 H2.
    apply valid_finite in H1 as [C1 B1]. apply valid_finite in H2 as [C2 B2].
    pose proof (digits_bounds (Z.pos m1) ltac:(lia)) as [L1 U1].
    pose proof (digits_bounds (Z.pos m2) ltac:(lia)) as [L2 U2].
    simpl Zdigits2 in *.
    set (d1 := Z.pos (digits2_pos m1)) in *. set (d2 := Z.pos (digits2_pos m2)) in *.
    assert (P1 : 0 < 2 ^ (e1 + 1074)) by (apply Z.pow_pos_nonneg; lia).
    assert (P2 : 0 < 2 ^ (e2 + 1074)) by (apply Z.pow_pos_nonneg; lia).
    assert (D1 : 2 ^ d1 <= 2 ^ 53) by (apply Z.pow_le_mono_r; lia).
    assert (D2 : 2 ^ d2 <= 2 ^ 53) by (apply Z.pow_le_mono_r; lia).
    destruct (Z.compare_spec e1 e2) as [E|E|E].
    - subst e2. change (Pos.compare_cont Eq m1 m2) with (Z.pos m1 ?= Z.pos m2).
      symmetry. apply Zmult_compare_compat_r. lia.
    - apply Z.compare_lt_iff.
      assert (Hd2 : d2 = 53) by lia. rewrite Hd2 in L2. change (2 ^ (53 - 1)) with (2 ^ 52) in L2.
      replace (e2 + 1074) with ((e2 - e1 - 1) + 1 + (e1 + 1074)) by lia.
      rewrite (Z.pow_add_r 2 (e2 - e1 - 1 + 1) (e1 + 1074)),
        (Z.pow_add_r 2 (e2 - e1 - 1) 1) by lia.
      assert (0 < 2 ^ (e2 - e1 - 1)) by (apply Z.pow_pos_nonneg; lia).
      change (2 ^ 1) with 2. change (2 ^ 53) with (2 * 2 ^ 52) in D1.
      assert (Z.pos m1 < 2 * Z.pos m2) by lia.
      set (P := 2 ^ (e1 + 1074)) in *. set (X := 2 ^ (e2 - e1 - 1)) in *.
      assert (Z.pos m1 * P < 2 * Z.pos m2 * P) by nia.
      assert (2 * Z.pos m2 * P <= Z.pos m2 * (X * 2 * P)) by nia.
      lia.
    - apply Z.compare_gt_iff.
      assert (Hd1 : d1 = 53) by lia. rewrite Hd1 in L1. change (2 ^ (53 - 1)) with (2 ^ 52) in L1.
      replace (e1 + 1074) with ((e1 - e2 - 1) + 1 + (e2 + 1074)) by lia.
      rewrite (Z.pow_add_r 2 (e1 - e2 - 1 + 1) (e2 + 1074)),
        (Z.pow_add_r 2 (e1 - e2 - 1) 1) by lia.
      assert (0 < 2 ^ (e1 - e2 - 1)) by (apply Z.pow_pos_nonneg; lia).
      change (2 ^ 1) with 2. change (2 ^ 53) with (2 * 2 ^ 52) in D2.
      assert (Z.pos m2 < 2 * Z.pos m1) by lia.
      set (P := 2 ^ (e2 + 1074)) in *. set (X := 2 ^ (e1 - e2 - 1)) in *.
      assert (Z.pos m2 * P < 2 * Z.pos m1 * P) by nia.
      assert (2 * Z.pos m1 * P <= Z.pos m1 * (X * 2 * P)) by nia.
      lia. }
  intros Hx Hy Fx Fy.
  destruct x as [sx| |  |sx mx ex]; try discriminate;
  destruct y as [sy| |  |sy my ey]; try discriminate;
  unfold fcompare; cbn [SFcompare units cond_Zopp].
  - reflexivity.
  - assert (0 < Z.pos my * 2 ^ (ey + 1074)).
    { apply valid_finite in Hy as [? ?].
      assert (0 < 2 ^ (ey + 1074)) by (apply Z.pow_pos_nonneg; lia). nia. }
    destruct sy; cbn [cond_Zopp]; f_equal; symmetry;
      [apply Z.compare_gt_iff | apply Z.compare_lt_iff]; lia.
  - assert (0 < Z.pos mx * 2 ^ (ex + 1074)).
    { apply valid_finite in Hx as [? ?].
      assert (0 < 2 ^ (ex + 1074)) by (apply Z.pow_pos_nonneg; lia). nia. }
    destruct sx; cbn [cond_Zopp]; f_equal; symmetry;
      [apply Z.compare_lt_iff | apply Z.compare_gt_iff]; lia.
  - assert (Px : 0 < Z.pos mx * 2 ^ (ex + 1074)).
    { apply valid_finite in Hx as [? ?].
      assert (0 < 2 ^ (ex + 1074)) by (apply Z.pow_pos_nonneg; lia). nia. }
    assert (Py : 0 < Z.pos my * 2 ^ (ey + 1074)).
    { apply valid_finite in Hy as [? ?].
      assert (0 < 2 ^ (ey + 1074)) by (apply Z.pow_pos_nonneg; lia). nia. }
    destruct sx, sy; cbn [cond_Zopp]; f_equal.
    + rewrite Z.compare_opp.
      rewrite (Z.compare_antisym (Z.pos mx * 2 ^ (ex + 1074))), (Hcmp mx ex my ey Hx Hy).
      destruct (ex ?= ey); reflexivity.
    + symmetry. apply Z.compare_lt_iff. lia.
    + symmetry. apply Z.compare_gt_iff. lia.
    + symmetry. apply Hcmp; assumption.
Qed.

Lemma rounded_pos (V : Z) : 0 < V -> rounded V = encode false (round_units V).
Proof. destruct V; try lia. reflexivity. Qed.

Lemma rounded_neg (V : Z) : V < 0 -> rounded V = encode true (round_units (- V)).
Proof. destruct V; try lia. reflexivity. Qed.

Lemma binary_normalize_units (M e : Z) :
  -1074 <= e ->
  binary_normalize prec emax M e false = rounded (M * 2 ^ (e + 1074)).
Proof.
  intros He.
  assert (Hp : 0 < 2 ^ (e + 1074)) by (apply Z.pow_pos_nonneg; lia).
  destruct M as [|m|m]; unfold binary_normalize.
  - reflexivity.
  - rewrite binary_round_units by assumption.
    rewrite rounded_pos by lia. reflexivity.
  - rewrite binary_round_units by assumption.
    rewrite rounded_neg by lia. f_equal. f_equal. lia.
Qed.

Lemma shl_align_fst (m : positive) (e e' : Z) :
  e' <= e -> Z.pos (fst (shl_align m e e')) = Z.pos m * 2 ^ (e - e').
Proof.
  intros H. unfold shl_align.
  destruct (e' - e) as [|d|d] eqn:E; simpl fst; try lia.
  - replace (e - e') with 0 by lia. lia.
  - rewrite iter_xO. f_equal. f_equal. lia.
Qed.

Lemma cond_Zopp_mul (s : bool) (a c : Z) : cond_Zopp s a * c = cond_Zopp s (a * c).
Proof. destruct s; simpl; lia. Qed.

Lemma valid_exponent (s : bool) (m : positive) (e : Z) :
  valid (S754_finite s m e) = true -> -1074 <= e <= 971.
Proof. intros H. apply valid_finite in H. lia. Qed.

Lemma units_rounded (x : float) :
  valid x = true -> is_finite x = true -> x <> S754_zero true ->
  rounded (units x) = x.
Proof.
  intros Hv Hf Hz. destruct x as [[]| | |s m e]; try discriminate; try congruence.
  - reflexivity.
  - pose proof (valid_units s m e Hv) as ([HV _] & Hr & He). cbv zeta in *.
    unfold units. destruct s; cbn [cond_Zopp].
    + rewrite rounded_neg by lia. rewrite Z.opp_involutive.
      rewrite round_units_fixed by assumption. apply (valid_units true m e Hv).
    + rewrite rounded_pos by lia.
      rewrite round_units_fixed by assumption. assumption.
Qed.

(** Addition of finite floats: the exact sum, rounded. *)
Lemma fadd_units (x y : float) :
  valid x = true -> valid y = true ->
  is_finite x = true -> is_finite y = true ->
  x <> S754_zero true \/ y <> S754_zero true ->
  fadd x y = rounded (units x + units y).
Proof.
  intros Hx Hy Fx Fy Hz.
  destruct x as [sx| | |sx mx ex]; try discriminate;
  destruct y as [sy| | |sy my ey]; try discriminate.
  - destruct sx, sy; try reflexivity. destruct Hz; congruence.
  - change (fadd (S754_zero sx) (S754_finite sy my ey)) with (S754_finite sy my ey).
    change (units (S754_zero sx)) with 0. rewrite Z.add_0_l.
    symmetry. apply units_rounded; auto; discriminate.
  - change (fadd (S754_finite sx mx ex) (S754_zero sy)) with (S754_finite sx mx ex).
    change (units (S754_zero sy)) with 0. rewrite Z.add_0_r.
    symmetry. apply units_rounded; auto; discriminate.
  - pose proof (valid_exponent _ _ _ Hx). pose proof (valid_exponent _ _ _ Hy).
    unfold fadd, SFadd.
    rewrite binary_normalize_units by lia.
    rewrite !shl_align_fst by lia.
    f_equal. rewrite Z.mul_add_distr_r, !cond_Zopp_mul.
    unfold units.
    f_equal; f_equal; rewrite <- Z.mul_assoc, <- Z.pow_add_r by lia;
      do 2 f_equal; lia.
Qed.

(** What [rounded] returns, by cases on the value. *)
Lemma rounded_spec (V : Z) :
  V <> 0 ->
  let W := round_units (Z.abs V) in
  0 < W /\ representable W = true /\
  ((2 ^ 2098 <= W /\ rounded V = S754_infinity (V <? 0)) \/
   (W < 2 ^ 2098 /\ valid (rounded V) = true /\ is_finite (rounded V) = true /\
    rounded V <> S754_zero true /\ units (rounded V) = Z.sgn V * W)).
Proof.
  intros HV W.
  assert (HW : 0 < W) by (apply round_units_pos; lia).
  assert (HR : representable W = true) by (apply round_units_representable; lia).
  split; [assumption|]. split; [assumption|].
  assert (Hr : rounded V = encode (V <? 0) W).
  { destruct V as [|p|p]; try lia; reflexivity. }
  rewrite Hr.
  destruct (Z.le_gt_cases (2 ^ 2098) W) as [Hov|Hfin].
  - left. split; [assumption|]. now apply encode_overflow.
  - right. split; [lia|].
    destruct (encode_representable (V <? 0) W ltac:(lia) HR) as (m & e & -> & Hv & Hu).
    repeat split; auto; try discriminate.
    unfold units. rewrite Hu.
    destruct (Z.ltb_spec V 0); cbn [cond_Zopp]; lia.
Qed.

Lemma rounded_valid (V : Z) : valid (rounded V) = true.
Proof.
  destruct (Z.eq_dec V 0) as [->|HV]; [reflexivity|].
  destruct (rounded_spec V HV) as (_ & _ & [[_ ->]|(_ & H & _)]); auto.
Qed.

Lemma rounded_not_neg_zero (V : Z) : rounded V <> S754_zero true.
Proof.
  destruct (Z.eq_dec V 0) as [->|HV]; [discriminate|].
  destruct (rounded_spec V HV) as (_ & _ & [[_ H]|(_ & _ & _ & H & _)]);
    [rewrite H; discriminate | exact H].
Qed.

(** A sum of valid floats is a valid float. *)
Lemma fadd_valid (x y : float) :
  valid x = true -> valid y = true -> valid (fadd x y) = true.
Proof.
  intros Hx Hy.
  destruct (is_finite x) eqn:Fx; [destruct (is_finite y) eqn:Fy|].
  - destruct x as [[]| | |sx mx ex], y as [[]| | |sy my ey]; try discriminate;
      try reflexivity; try assumption;
      (rewrite fadd_units; [apply rounded_valid|auto..]; left; discriminate).
  - destruct x as [[]| | |sx mx ex], y as [| [] | |]; try discriminate; reflexivity.
  - destruct x as [| [] | |], y as [[]|[]| |sy my ey]; try discriminate; reflexivity.
Qed.

(** An exactly representable value is rounded to itself. *)
Lemma rounded_exact (V : Z) :
  representable (Z.abs V) = true -> Z.abs V < 2 ^ 2098 ->
  valid (rounded V) = true /\ is_finite (rounded V) = true /\
  units (rounded V) = V.
Proof.
  intros Hr Hb.
  destruct (Z.eq_dec V 0) as [->|HV]; [repeat split; reflexivity|].
  destruct (rounded_spec V HV) as (HW & _ & H). cbv zeta in *.
  rewrite round_units_fixed in * by (auto; lia).
  destruct H as [[Hov _]|(_ & Hv & Hf & _ & Hu)]; [lia|].
  repeat split; auto. rewrite Hu. lia.
Qed.

Lemma units_bounds (x : float) :
  valid x = true ->
  Z.abs (units x) < 2 ^ 2098 /\
  (units x <> 0 -> round_units (Z.abs (units x)) = Z.abs (units x)).
Proof.
  intros Hv. destruct x as [s|s| |s m e]; simpl units; try (split; [reflexivity|lia]).
  pose proof (valid_units s m e Hv) as ([HV Hb] & Hr & _). cbv zeta in *.
  assert (Ha : Z.abs (cond_Zopp s (Z.pos m * 2 ^ (e + 1074))) = Z.pos m * 2 ^ (e + 1074))
    by (destruct s; cbn [cond_Zopp]; lia).
  rewrite Ha. split; [lia|]. intros _. now apply round_units_fixed.
Qed.

Lemma fleb_units (x y : float) :
  valid x = true -> valid y = true ->
  is_finite x = true -> is_finite y = true ->
  fleb x y = (units x <=? units y).
Proof.
  intros Hx Hy Fx Fy. unfold fleb, SFleb.
  change (SFcompare x y) with (fcompare x y).
  rewrite fcompare_units by assumption.
  unfold Z.leb. destruct (units x ?= units y); reflexivity.
Qed.

(** A float is not above the rounding of any value that is not below
    its own. *)
Lemma rounded_ge (x : float) (S : Z) :
  valid x = true -> is_finite x = true -> units x <= S ->
  fleb x (rounded S) = true.
Proof.
  intros Hx Fx Hle.
  pose proof (units_bounds x Hx) as [Hb Hfix].
  destruct (Z.eq_dec S 0) as [->|HS].
  - rewrite fleb_units by auto. apply Z.leb_le. simpl. lia.
  - destruct (rounded_spec S HS) as (HW & _ & [[Hov Hr]|(Hfin & Hv & Hf & _ & Hu)]);
      cbv zeta in *.
    + rewrite Hr. destruct (Z.ltb_spec S 0) as [Hneg|Hpos].
      * exfalso.
        pose proof (round_units_mono (Z.abs S) (Z.abs (units x)) ltac:(lia)) as Hm.
        rewrite Hfix in Hm by lia. lia.
      * destruct x as [s|s| |s m e]; try discriminate; reflexivity.
    + rewrite fleb_units by auto. apply Z.leb_le. rewrite Hu.
      destruct (Z.lt_total S 0) as [Hneg|[?|Hpos]]; [|lia|].
      * pose proof (round_units_mono (Z.abs S) (Z.abs (units x)) ltac:(lia)) as Hm.
        rewrite Hfix in Hm by lia. lia.
      * destruct (Z.le_gt_cases (units x) 0) as [?|Hxp]; [lia|].
        pose proof (round_units_mono (Z.abs (units x)) (Z.abs S) ltac:(lia)) as Hm.
        rewrite Hfix in Hm by lia. lia.
Qed.

(** Adding a non-negative amount never yields a smaller float. *)
Lemma fadd_nonneg_ge (x d : float) :
  valid x = true -> valid d = true ->
  x <> S754_nan ->
  fleb zero d = true ->
  ~ (x = S754_infinity true /\ d = S754_infinity false) ->
  fleb x (fadd x d) = true.
Proof.
  intros Hx Hd Hnan Hpos Hinf.
  destruct (is_finite x) eqn:Fx; [destruct (is_finite d) eqn:Fd|].
  - assert (Hud : 0 <= units d).
    { rewrite fleb_units in Hpos by auto. apply Z.leb_le in Hpos. exact Hpos. }
    destruct x as [[]| | |sx mx ex] eqn:Ex, d as [[]| | |sd md ed] eqn:Ed;
      try discriminate; try reflexivity;
      rewrite <- ?Ex, <- ?Ed in *;
      (rewrite fadd_units; [apply rounded_ge; auto; lia|auto..]; subst;
       solve [left; discriminate | right; discriminate]).
  - destruct x as [[]| | |sx mx ex], d as [|[]| |]; try discriminate; reflexivity.
  - destruct x as [|[]| |], d as [[]|[]| |[] md ed]; try discriminate; try congruence;
      try reflexivity.
    exfalso. apply Hinf. split; reflexivity.
Qed.


Lemma round_units_rel_error (N : Z) :
  0 < N -> 2 ^ 53 * Z.abs (round_units N - N) <= N.
Proof.
  intros HN.
  pose proof (shift_split N HN) as (HNq & Hr & Hq & Hk & Hk0).
  pose proof (round_units_error N HN) as He.
  cbv zeta in *.
  set (k := shift_of N) in *.
  destruct (Z.eq_dec k 0) as [E|E].
  - destruct (Hk0 E) as [Hr0 _].
    assert (Hfix : round_units N = N).
    { apply round_units_fixed; [assumption|]. unfold representable. fold k.
      apply Z.eqb_eq. assumption. }
    rewrite Hfix, Z.sub_diag. simpl. lia.
  - assert (Hkp : 0 < k) by (pose proof (shift_of_nonneg N); lia).
    destruct (Hk Hkp) as [Hq52 _].
    assert (Hp : 2 ^ k = 2 * 2 ^ (k - 1)).
    { replace k with (1 + (k - 1)) at 1 by lia. rewrite Z.pow_add_r by lia. reflexivity. }
    assert (Hp1 : 0 < 2 ^ (k - 1)) by (apply Z.pow_pos_nonneg; lia).
    set (P := 2 ^ (k - 1)) in *. set (q := N / 2 ^ k) in *.
    set (A := Z.abs (round_units N - N)) in *.
    assert (HA : A <= P) by lia.
    change (2 ^ 53) with (2 * 2 ^ 52).
    assert (2 ^ 52 * (2 * P) <= N) by nia.
    nia.
Qed.

(** Adding finite non-negative floats: the result is off the exact sum
    by at most the fraction [2^-53] of that sum. *)
Lemma fadd_error (x d : float) :
  valid x = true -> valid d = true ->
  is_finite x = true -> is_finite d = true ->
  0 <= units x -> 0 <= units d ->
  is_finite (fadd x d) = true ->
  0 <= units (fadd x d) /\
  2 ^ 53 * Z.abs (units (fadd x d) - (units x + units d)) <= units x + units d.
Proof.
  intros Hx Hd Fx Fd Px Pd Ff.
  destruct (Z.eq_dec (units x + units d) 0) as [E0|E0].
  - assert (Hu : units (fadd x d) = 0).
    { destruct x as [sx| | |sx mx ex], d as [sd| | |sd md ed]; try discriminate.
      - destruct sx, sd; reflexivity.
      - simpl. simpl in E0. lia.
      - simpl. simpl in E0. lia.
      - rewrite fadd_units by (auto; left; discriminate). rewrite E0. reflexivity. }
    rewrite Hu, E0. simpl. lia.
  - assert (Hne : x <> S754_zero true \/ d <> S754_zero true).
    { destruct x as [sx| | |sx mx ex]; try discriminate; [|left; discriminate].
      destruct d as [sd| | |sd md ed]; try discriminate; [|right; discriminate].
      simpl in E0. lia. }
    rewrite fadd_units in * by auto.
    destruct (rounded_spec _ E0) as (HW & _ & [[_ Hr]|(_ & _ & _ & _ & Hu)]).
    + rewrite Hr in Ff. discriminate.
    + rewrite Hu. rewrite Z.abs_eq in * by lia.
      rewrite Z.sgn_pos by lia. rewrite Z.mul_1_l.
      split; [lia|]. apply round_units_rel_error. lia.
Qed.

(** When the exact sum needs no rounding, it is the result. *)
Lemma fadd_exact (x y : float) :
  valid x = true -> valid y = true ->
  is_finite x = true -> is_finite y = true ->
  representable (Z.abs (units x + units y)) = true ->
  Z.abs (units x + units y) < 2 ^ 2098 ->
  is_finite (fadd x y) = true /\ units (fadd x y) = units x + units y.
Proof.
  intros Hx Hy Fx Fy Hr Hb.
  destruct x as [sx| | |sx mx ex] eqn:Ex; try discriminate;
  destruct y as [sy| | |sy my ey] eqn:Ey; try discriminate;
    try (destruct sx, sy; split; reflexivity);
    rewrite <- ?Ex, <- ?Ey in *;
    (rewrite fadd_units by (subst; auto; solve [left; discriminate|right; discriminate]));
    destruct (rounded_exact _ Hr Hb) as (_ & ? & ?); auto.
Qed.

Lemma fadd_not_finite (x y : float) :
  is_finite x = false -> is_finite (fadd x y) = false.
Proof.
  destruct x as [|[]| |]; try discriminate; intros _;
    destruct y as [|[]| |]; reflexivity.
Qed.

Lemma fleb_refl (x : float) : x <> S754_nan -> fleb x x = true.
Proof.
  intros H. destruct x as [s|[]| |[] m e]; try congruence; try reflexivity;
    unfold fleb, SFleb, SFcompare; rewrite Z.compare_refl, Pos.compare_cont_refl;
    reflexivity.
Qed.

(** Conversion of an [int]. *)
Lemma of_int_rounded (z : Z) (f : float) :
  of_int z = Some f -> f = rounded (z * 2 ^ 1074) /\ valid f = true /\ is_finite f = true.
Proof.
  unfold of_int. rewrite binary_normalize_units by lia. change (0 + 1074) with 1074.
  intros H.
  assert (Hf : f = rounded (z * 2 ^ 1074)).
  { destruct (rounded (z * 2 ^ 1074)); congruence. }
  split; [assumption|]. subst f. split; [apply rounded_valid|].
  destruct (Z.eq_dec (z * 2 ^ 1074) 0) as [E|E]; [rewrite E; reflexivity|].
  destruct (rounded_spec _ E) as (_ & _ & [[_ Hr]|(_ & _ & Hfin & _)]); [|assumption].
  rewrite Hr in H. discriminate.
Qed.

Lemma of_int_sign (z : Z) (f : float) :
  of_int z = Some f -> 0 <= z -> 0 <= units f /\ fleb zero f = true.
Proof.
  intros H Hz. destruct (of_int_rounded z f H) as (Hf & Hv & Hfin).
  assert (Hu : 0 <= units f).
  { subst f. destruct (Z.eq_dec (z * 2 ^ 1074) 0) as [E|E]; [rewrite E; simpl; lia|].
    destruct (rounded_spec _ E) as (HW & _ & [[_ Hr]|(_ & _ & _ & _ & Hu)]).
    - rewrite Hr. simpl. lia.
    - rewrite Hu. assert (0 < z * 2 ^ 1074) by lia. rewrite Z.sgn_pos by lia. lia. }
  split; [assumption|].
  rewrite fleb_units by auto. apply Z.leb_le. exact Hu.
Qed.

Lemma int_units_representable (z : Z) :
  Z.abs z <= 2 ^ 53 ->
  representable (Z.abs (z * 2 ^ 1074)) = true /\ Z.abs (z * 2 ^ 1074) < 2 ^ 2098.
Proof.
  intros Hz.
  rewrite Z.abs_mul, (Z.abs_eq (2 ^ 1074)) by lia.
  destruct (Z.eq_dec z 0) as [->|Hz0]; [split; reflexivity|].
  assert (Ha : 0 < Z.abs z) by lia.
  split.
  - unfold representable, shift_of. apply Z.eqb_eq.
    rewrite digits_shift by lia.
    destruct (Z.eq_dec (Z.abs z) (2 ^ 53)) as [->|Hne].
    + reflexivity.
    + assert (Hd : Zdigits2 (Z.abs z) <= 53).
      { destruct (Z.le_gt_cases (Zdigits2 (Z.abs z)) 53); [assumption|].
        pose proof (pow_le_digits (Z.abs z) 53 Ha ltac:(lia)). lia. }
      pose proof (digits_pos _ Ha).
      set (k := Z.max (Zdigits2 (Z.abs z) + 1074 - 53) 0).
      replace 1074 with ((1074 - k) + k) at 1 by lia.
      rewrite Z.pow_add_r by lia. rewrite Z.mul_assoc. apply Z.mod_mul.
      apply Z.pow_nonzero; lia.
  - change (2 ^ 2098) with (2 ^ 1024 * 2 ^ 1074).
    apply Z.mul_lt_mono_pos_r; [lia|].
    assert (2 ^ 53 < 2 ^ 1024) by (apply Z.pow_lt_mono_r; lia). lia.
Qed.

(** Integers up to [2^53] in magnitude convert without rounding. *)
Lemma of_int_exact (z : Z) :
  Z.abs z <= 2 ^ 53 ->
  of_int z = Some (rounded (z * 2 ^ 1074)) /\
  units (rounded (z * 2 ^ 1074)) = z * 2 ^ 1074.
Proof.
  intros Hz. destruct (int_units_representable z Hz) as [Hr Hb].
  destruct (rounded_exact _ Hr Hb) as (Hv & Hf & Hu).
  split; [|assumption].
  unfold of_int. rewrite binary_normalize_units by lia. change (0 + 1074) with 1074.
  destruct (rounded (z * 2 ^ 1074)); try discriminate; reflexivity.
Qed.

Lemma fadd_finite_r (x y : float) :
  is_finite (fadd x y) = true -> is_finite y = true.
Proof.
  destruct x as [[]|[]| |], y as [|[]| |]; try discriminate; reflexivity.
Qed.

Lemma binary_round_aux_units (s : bool) (m : positive) (e : Z) :
  -1074 <= e -> 53 <= Z.pos (digits2_pos m) ->
  binary_round_aux prec emax s (Z.pos m) e loc_Exact =
  encode s (round_units (Z.pos m * 2 ^ (e + 1074))).
Proof.
  intros He Hd. rewrite <- binary_round_units by assumption.
  unfold binary_round, shl_align. rewrite fexp_eq.
  destruct (Z.max (Z.pos (digits2_pos m) + e - 53) (-1074) - e) eqn:E;
    try lia; reflexivity.
Qed.

(** The double of a positive integer up to [2^53]: a normal number. *)
Lemma rounded_int_normal (a : Z) :
  0 < a <= 2 ^ 53 ->
  exists m e, rounded (a * 2 ^ 1074) = S754_finite false m e /\
              Z.pos (digits2_pos m) = 53 /\ -52 <= e /\
              Z.pos m * 2 ^ (e + 1074) = a * 2 ^ 1074.
Proof.
  intros Ha.
  destruct (int_units_representable a ltac:(lia)) as [Hr Hb].
  rewrite Z.abs_eq in Hr, Hb by lia.
  rewrite rounded_pos by lia. rewrite round_units_fixed by (auto; lia).
  destruct (encode_representable false (a * 2 ^ 1074) ltac:(lia) Hr)
    as (m & e & -> & Hv & Hu).
  exists m, e. apply valid_finite in Hv as [Hc He].
  pose proof (digits_bounds (Z.pos m) ltac:(lia)) as [_ Hm]. simpl Zdigits2 in Hm.
  set (d := Z.pos (digits2_pos m)) in *.
  assert (Hd53 : d <= 53) by lia.
  assert (Hlt : Z.pos m < 2 ^ 53).
  { pose proof (Z.pow_le_mono_r 2 d 53 ltac:(lia) Hd53). lia. }
  assert (Hne : e <> -1074).
  { intros ->. change (-1074 + 1074) with 0 in Hu. rewrite Z.pow_0_r in Hu.
    assert (2 ^ 53 <= 2 ^ 1074) by (apply Z.pow_le_mono_r; lia). nia. }
  assert (He52 : -52 <= e).
  { destruct (Z.le_gt_cases (-52) e) as [|Hlow]; [assumption|]. exfalso.
    assert (Hp : 2 ^ (e + 1074) * 2 ^ 53 <= 2 ^ 1074).
    { rewrite <- Z.pow_add_r by lia. apply Z.pow_le_mono_r; lia. }
    assert (0 < 2 ^ (e + 1074)) by (apply Z.pow_pos_nonneg; lia).
    assert (0 < 2 ^ 1074) by (apply Z.pow_pos_nonneg; lia).
    nia. }
  repeat split; auto; lia.
Qed.

(** Multiplication of small integers is exact. *)
Lemma fmul_rounded_int (a b : Z) :
  0 < a <= 2 ^ 53 -> 0 < b <= 2 ^ 53 -> a * b <= 2 ^ 53 ->
  fmul (rounded (a * 2 ^ 1074)) (rounded (b * 2 ^ 1074)) = rounded (a * b * 2 ^ 1074).
Proof.
  intros Ha Hb Hab.
  destruct (rounded_int_normal a Ha) as (ma & ea & -> & Da & Ea & Ua).
  destruct (rounded_int_normal b Hb) as (mb & eb & -> & Db & Eb & Ub).
  unfold fmul, SFmul. simpl xorb.
  assert (Hdig : 53 <= Z.pos (digits2_pos (ma * mb))).
  { change (Z.pos (digits2_pos (ma * mb))) with (Zdigits2 (Z.pos (ma * mb))).
    pose proof (digits_bounds (Z.pos ma) ltac:(lia)) as [La _].
    pose proof (digits_bounds (Z.pos mb) ltac:(lia)) as [Lb _].
    simpl Zdigits2 in La, Lb. rewrite Da in La. rewrite Db in Lb.
    change (2 ^ (53 - 1)) with (2 ^ 52) in *.
    assert (2 ^ 52 <= Z.pos (ma * mb)) by (rewrite Pos2Z.inj_mul; nia).
    apply (pow_le_digits _ 52) in H; lia. }
  rewrite binary_round_aux_units by (auto; lia).
  assert (Hval : Z.pos (ma * mb) * 2 ^ (ea + eb + 1074) = a * b * 2 ^ 1074).
  { assert (Hp : 0 < 2 ^ 1074) by (apply Z.pow_pos_nonneg; lia).
    apply (Z.mul_reg_r _ _ (2 ^ 1074)); [lia|].
    rewrite Pos2Z.inj_mul.
    assert (Hpow : 2 ^ (ea + eb + 1074) * 2 ^ 1074 = 2 ^ (ea + 1074) * 2 ^ (eb + 1074)).
    { rewrite <- !Z.pow_add_r by lia. f_equal. lia. }
    set (P := 2 ^ 1074) in *. set (Pa := 2 ^ (ea + 1074)) in *.
    set (Pb := 2 ^ (eb + 1074)) in *. set (Pab := 2 ^ (ea + eb + 1074)) in *.
    transitivity ((Z.pos ma * Pa) * (Z.pos mb * Pb)).
    - transitivity (Z.pos ma * Z.pos mb * (Pab * P)); [ring|]. rewrite Hpow. ring.
    - rewrite Ua, Ub. ring. }
  rewrite Hval. rewrite rounded_pos by nia. reflexivity.
Qed.

Lemma feqb_refl (x : float) : x <> S754_nan -> feqb x x = true.
Proof.
  intros H. destruct x as [s|[]| |[] m e]; try congruence; try reflexivity;
    unfold feqb, SFeqb, SFcompare; rewrite Z.compare_refl, Pos.compare_cont_refl;
    reflexivity.
Qed.

(** A sum of non-negative floats is non-negative. *)
Lemma fadd_nonneg (a x : float) :
  valid a = true -> valid x = true ->
  fleb zero a = true -> fleb zero x = true ->
  fleb zero (fadd a x) = true.
Proof.
  intros Va Vx Pa Px.
  destruct (is_finite a) eqn:Fa; [destruct (is_finite x) eqn:Fx|].
  - assert (Ua : 0 <= units a).
    { rewrite fleb_units in Pa by auto. now apply Z.leb_le in Pa. }
    assert (Ux : 0 <= units x).
    { rewrite fleb_units in Px by auto. now apply Z.leb_le in Px. }
    destruct a as [[]| | |sa ma ea] eqn:Ea, x as [[]| | |sx mx ex] eqn:Ex;
      try discriminate; try reflexivity;
      rewrite <- ?Ea, <- ?Ex in *;
      (rewrite fadd_units; [apply rounded_ge; auto; simpl; lia|auto..]; subst;
       solve [left; discriminate | right; discriminate]).
  - destruct a as [[]| | |[] ma ea], x as [|[]| |]; try discriminate; reflexivity.
  - destruct a as [|[]| |], x as [[]|[]| |[] mx ex]; try discriminate; reflexivity.
Qed.

End Rounding.

(** ** The device stub *)

Section Device.

Local Open Scope string_scope.

Implicit Types (d : CenturyLifeDevice) (dt : option number).

Lemma tick_stage d dt : stage (fst (tick d dt)) = stage d.
Proof.
  unfold tick. destruct (float_add (age d) (default dt_default dt)); reflexivity.
Qed.

Lemma stage_fold calls d :
  stage (fold_left (fun d dt => fst (tick d dt)) calls d) = stage d.
Proof.
  revert d. induction calls as [|dt calls IH]; intros d; simpl.
  - reflexivity.
  - rewrite IH. apply tick_stage.
Qed.

(** C3. Whatever calls of [tick] were made since construction, with
    whatever arguments, [stage] is the string ["Neonate"], and a call of
    [tick] never changes the field. *)
Theorem stage_is_always_Neonate :
  (forall calls, stage (after_calls calls) = "Neonate") /\
  (forall d dt, stage (fst (tick d dt)) = stage d).
Proof.
  split.
  - intros calls. unfold after_calls. now rewrite stage_fold.
  - apply tick_stage.
Qed.

(** C8. [tick()] and [tick(1.0)] leave the object in the same state and
    return the same value, whatever the state before the call. *)
Theorem tick_default_is_tick_1 d : tick d None = tick d (Some (Float one)).
Proof. reflexivity. Qed.

(** C10. Two objects whose [age] and [stage] fields are the same, called
    with the same argument, end in the same state and return the same
    snapshot (or raise the same exception). *)
Theorem tick_deterministic d1 d2 dt :
  age d1 = age d2 -> stage d1 = stage d2 -> tick d1 dt = tick d2 dt.
Proof.
  destruct d1 as [a1 s1], d2 as [a2 s2]; simpl.
  intros -> ->. reflexivity.
Qed.

Lemma tick_deterministic_witness :
  tick __init__ (Some (Int 3)) = tick (mkDevice zero "Neonate") (Some (Int 3)).
Proof. apply tick_deterministic; reflexivity. Defined.

Lemma tick_age d (dt : number) (x : float) :
  as_double dt = Returned x ->
  tick d (Some dt) =
  ({| age := fadd (age d) x; stage := stage d |},
   Returned {[ "age" := VFloat (fadd (age d) x); "stage" := VStr (stage d) ]}).
Proof.
  intros H. unfold tick, float_add. simpl default. rewrite H. reflexivity.
Qed.

Lemma tick_raises d (dt : number) (e : exn) :
  as_double dt = Raised e -> tick d (Some dt) = (d, Raised e).
Proof.
  intros H. unfold tick, float_add. simpl default. rewrite H. reflexivity.
Qed.

Lemma as_double_wf (dt : number) (x : float) :
  wf dt = true -> as_double dt = Returned x -> valid x = true.
Proof.
  destruct dt as [z|f]; simpl.
  - intros _. destruct (of_int z) as [g|] eqn:E; [|discriminate].
    intros [= <-]. apply (of_int_rounded z g E).
  - intros Hv [= <-]. exact Hv.
Qed.

Lemma as_double_nonneg (dt : number) (x : float) :
  wf dt = true -> nonneg dt = true -> as_double dt = Returned x ->
  fleb zero x = true.
Proof.
  destruct dt as [z|f]; simpl.
  - intros _ Hz. destruct (of_int z) as [g|] eqn:E; [|discriminate].
    intros [= <-]. apply Z.leb_le in Hz. apply (of_int_sign z g E Hz).
  - intros _ Hp [= <-]. exact Hp.
Qed.

Lemma tick_n_not_finite (n : nat) (dt : number) (x : float) d :
  as_double dt = Returned x ->
  is_finite (age d) = false -> is_finite (age (tick_n n dt d)) = false.
Proof.
  intros Hx. revert d. induction n as [|n IH]; intros d Hd; simpl.
  - exact Hd.
  - apply IH. rewrite (tick_age d dt x Hx). simpl. now apply fadd_not_finite.
Qed.

Lemma tick_n_error (n : nat) (dt : number) (x : float) :
  as_double dt = Returned x -> valid x = true -> is_finite x = true ->
  0 <= units x ->
  forall (i : Z) d,
    valid (age d) = true -> is_finite (age d) = true -> 0 <= units (age d) ->
    0 <= i -> i + Z.of_nat n <= 2 ^ 53 ->
    2 ^ 53 * Z.abs (units (age d) - i * units x) <= i * i * units x ->
    is_finite (age (tick_n n dt d)) = true ->
    2 ^ 53 * Z.abs (units (age (tick_n n dt d)) - (i + Z.of_nat n) * units x)
      <= (i + Z.of_nat n) * (i + Z.of_nat n) * units x.
Proof.
  intros Hx Vx Fx Px. induction n as [|n IH]; intros i d Vd Fd Pd Hi Hn Hinv Hfin.
  - simpl tick_n. replace (i + Z.of_nat 0) with i by lia. exact Hinv.
  - simpl tick_n in *. rewrite (tick_age d dt x Hx) in *. simpl fst in *.
    set (d' := {| age := fadd (age d) x; stage := stage d |}) in *.
    assert (Fd' : is_finite (age d') = true).
    { destruct (is_finite (age d')) eqn:E; [reflexivity|].
      rewrite (tick_n_not_finite n dt x d' Hx E) in Hfin. discriminate. }
    destruct (fadd_error (age d) x Vd Vx Fd Fx Pd Px Fd') as [Pd' Herr].
    replace (i + Z.of_nat (S n)) with ((i + 1) + Z.of_nat n) by lia.
    apply IH; auto; try lia.
    + apply fadd_valid; assumption.
    + change (age d') with (fadd (age d) x).
      set (S := units (age d)) in *. set (S' := units (fadd (age d) x)) in *.
      set (D := units x) in *. set (c := 2 ^ 53) in *.
      assert (Hc : 0 < c) by (unfold c; lia).
      assert (Hic : i <= c) by lia.
      set (E := Z.abs (S - i * D)) in *.
      assert (HE : E <= i * D).
      { assert (c * E <= c * (i * D)) by nia. nia. }
      assert (HS : S <= i * D + E) by lia.
      assert (HT : Z.abs (S' - (i + 1) * D) <= Z.abs (S' - (S + D)) + E) by lia.
      nia.
Qed.

(** C1 (amended).  For every device state and every [int] or [float]
    argument [dt]: when [dt] is an [int] too large for a double, the call
    raises and the object is unchanged; otherwise [tick(dt)] stores the
    float sum [age + dt] -- the exact sum rounded to the nearest double,
    ties to even -- and returns the mapping [{'age': a, 'stage': s}] with
    [a] the age just stored and [s] the stage.  The age grows by exactly
    [dt] whenever age, [dt] and their exact sum are finite doubles. *)
Theorem tick_adds_dt_rounded d (dt : number) :
  match as_double dt with
  | Returned x =>
      let a := fadd (age d) x in
      tick d (Some dt) =
      ({| age := a; stage := stage d |},
       Returned {[ "age" := VFloat a; "stage" := VStr (stage d) ]}) /\
      (exact_sum (age d) x = true ->
       is_finite a = true /\ units a = units (age d) + units x)
  | Raised e => e = OverflowError /\ tick d (Some dt) = (d, Raised e)
  end.
Proof.
  destruct (as_double dt) as [x|e] eqn:E.
  - cbv zeta. split; [now apply tick_age|].
    unfold exact_sum. rewrite !andb_true_iff, Z.ltb_lt.
    intros (((((Vd & Vx) & Fd) & Fx) & Hr) & Hb).
    now apply fadd_exact.
  - split; [|now apply tick_raises].
    destruct dt as [z|f]; simpl in E; [|discriminate].
    destruct (of_int z); congruence.
Qed.

Lemma tick_adds_dt_rounded_witness :
  let d := tick_n 3 (Int 5) __init__ in
  exact_sum (age d) one = true /\
  units (age (fst (tick d (Some (Float one))))) = units (age d) + units one.
Proof.
  pose proof (tick_adds_dt_rounded (tick_n 3 (Int 5) __init__) (Float one)) as H.
  cbv zeta. simpl as_double in H. cbv zeta in H. destruct H as [Ht Hex].
  assert (He : exact_sum (age (tick_n 3 (Int 5) __init__)) one = true)
    by (vm_compute; reflexivity).
  split; [exact He|]. rewrite Ht. simpl fst. simpl age at 1. apply (Hex He).
Defined.

(** C1 as stated fails: at age [9007199254740992.0] the call [tick(1.0)]
    leaves the age as it is instead of adding [1.0]; and an [int] beyond
    the range of doubles makes the call raise instead of returning. *)
Lemma tick_does_not_add_exactly :
  let d := fst (tick __init__ (Some (Float two_pow_53))) in
  valid two_pow_53 = true /\
  age (fst (tick d (Some (Float one)))) = age d /\
  units (age (fst (tick d (Some (Float one))))) <> units (age d) + units one /\
  tick __init__ (Some (Int (2 ^ 1024))) = (__init__, Raised OverflowError).
Proof.
  cbv zeta. split; [reflexivity|]. split; [reflexivity|]. split.
  - vm_compute. discriminate.
  - vm_compute. reflexivity.
Qed.

Lemma tick_n_exact (dt : number) (x : float) (k : Z) :
  as_double dt = Returned x -> valid x = true -> is_finite x = true ->
  units x = k * 2 ^ 1074 -> 0 <= k ->
  forall (n : nat) (i : Z) d,
    age d = rounded (i * k * 2 ^ 1074) ->
    0 <= i -> (i + Z.of_nat n) * k <= 2 ^ 53 ->
    age (tick_n n dt d) = rounded ((i + Z.of_nat n) * k * 2 ^ 1074).
Proof.
  intros Hx Vx Fx Ux Hk. induction n as [|n IH]; intros i d Hd Hi Hb.
  - simpl tick_n. replace (i + Z.of_nat 0) with i by lia. exact Hd.
  - simpl tick_n. rewrite (tick_age d dt x Hx). simpl fst.
    replace (i + Z.of_nat (S n)) with ((i + 1) + Z.of_nat n) in * by lia.
    apply IH; try lia. simpl age.
    assert (Hik : Z.abs (i * k) <= 2 ^ 53) by nia.
    destruct (int_units_representable _ Hik) as [Hr Hlt].
    destruct (rounded_exact _ Hr Hlt) as (Va & Fa & Ua).
    rewrite Hd. rewrite fadd_units; auto.
    + rewrite Ua, Ux. f_equal. lia.
    + left. apply rounded_not_neg_zero.
Qed.

(** [n] ticks of the integer [k] count exactly up to [n * k]. *)
Lemma tick_n_integer (dt : number) (x : float) (k : Z) (n : nat) :
  as_double dt = Returned x -> of_int k = Some x ->
  0 <= k -> Z.of_nat n * k <= 2 ^ 53 ->
  age (tick_n n dt __init__) = rounded (Z.of_nat n * k * 2 ^ 1074).
Proof.
  intros Hx Hof Hk Hnk. destruct n as [|n]; [reflexivity|].
  assert (Hk53 : Z.abs k <= 2 ^ 53) by nia.
  destruct (of_int_exact k Hk53) as [Hofk Uk].
  destruct (of_int_rounded k x Hof) as (_ & Vx & Fx).
  assert (Ux : units x = k * 2 ^ 1074) by congruence.
  pose proof (tick_n_exact dt x k Hx Vx Fx Ux Hk (S n) 0 __init__) as H.
  rewrite !Z.add_0_l in H. apply H; auto; lia.
Qed.

(** The product [n * dt] for the integer [k], as Python computes it,
    compares equal to the double of [n * k]. *)
Lemma int_mul_integer (dt : number) (x : float) (k n : Z) :
  of_int k = Some x -> dt = Int k \/ dt = Float x ->
  0 <= k -> 0 <= n <= 2 ^ 53 -> n * k <= 2 ^ 53 ->
  exists v, int_mul n dt = Returned v /\
            py_eq (rounded (n * k * 2 ^ 1074)) v = true.
Proof.
  intros Hof Hdt Hk Hn Hnk.
  assert (Hnk53 : Z.abs (n * k) <= 2 ^ 53) by nia.
  destruct (int_units_representable _ Hnk53) as [Hr Hb].
  destruct (rounded_exact _ Hr Hb) as (Va & Fa & Ua).
  destruct Hdt as [->| ->].
  - exists (Int (n * k)). split; [reflexivity|].
    simpl. rewrite Fa. simpl. apply Z.eqb_eq. exact Ua.
  - destruct (of_int_exact n ltac:(lia)) as [Hofn _].
    simpl. rewrite Hofn. eexists. split; [reflexivity|]. simpl.
    destruct (of_int_rounded k x Hof) as (_ & Vx & Fx).
    destruct (Z.eq_dec n 0) as [->|Hn0].
    { simpl. destruct x as [[]| | |[] mx ex]; try discriminate; reflexivity. }
    destruct (Z.eq_dec k 0) as [->|Hk0].
    { injection Hof as <-. rewrite Z.mul_0_r. simpl Z.mul.
      destruct (rounded_int_normal n ltac:(lia)) as (m & e & -> & _). reflexivity. }
    assert (Hk53 : Z.abs k <= 2 ^ 53) by nia.
    destruct (of_int_exact k Hk53) as [Hofk _].
    assert (x = rounded (k * 2 ^ 1074)) as -> by congruence.
    rewrite fmul_rounded_int by nia.
    apply feqb_refl. intros E. rewrite E in Fa. discriminate.
Qed.

(** C2 (amended).  For every non-negative [int] or [float] [dt], with
    [x] the double it stands for, and every [n] up to [2^53]: after [n]
    calls [tick(dt)] on a fresh device, the age, if still finite, is
    [n * x] up to rounding -- it is off the exact product by at most
    [n^2 * x / 2^53].  When [dt] is an integer [k] (an [int], or a
    [float] holding it) with [n * k] at most [2^53], the age is the
    double [n * k] and [age == n * dt] holds. *)
Theorem age_after_n_ticks (dt : number) (x : float) (n : nat) :
  wf dt = true -> nonneg dt = true -> as_double dt = Returned x ->
  Z.of_nat n <= 2 ^ 53 ->
  let a := age (tick_n n dt __init__) in
  (is_finite a = true ->
   2 ^ 53 * Z.abs (units a - Z.of_nat n * units x)
     <= Z.of_nat n * Z.of_nat n * units x) /\
  (forall k : Z,
     0 <= k -> of_int k = Some x -> dt = Int k \/ dt = Float x ->
     Z.of_nat n * k <= 2 ^ 53 ->
     of_int (Z.of_nat n * k) = Some a /\
     exists v, int_mul (Z.of_nat n) dt = Returned v /\ py_eq a v = true).
Proof.
  intros Hwf Hnn Hx Hn a. subst a.
  pose proof (as_double_wf dt x Hwf Hx) as Vx.
  pose proof (as_double_nonneg dt x Hwf Hnn Hx) as Px.
  split.
  - intros Hfin. destruct n as [|n].
    + simpl. lia.
    + assert (Fx : is_finite x = true).
      { destruct (is_finite x) eqn:E; [reflexivity|]. exfalso.
        simpl tick_n in Hfin. rewrite (tick_age __init__ dt x Hx) in Hfin.
        simpl fst in Hfin.
        rewrite (tick_n_not_finite n dt x _ Hx) in Hfin; [discriminate|].
        simpl age. destruct x as [|[]| |]; try discriminate; reflexivity. }
      assert (Ux : 0 <= units x).
      { rewrite fleb_units in Px by auto. apply Z.leb_le in Px. exact Px. }
      pose proof (tick_n_error (S n) dt x Hx Vx Fx Ux 0 __init__) as H.
      rewrite !Z.add_0_l in H. apply H; auto; try reflexivity; try lia.
  - intros k Hk Hof Hdt Hnk.
    rewrite (tick_n_integer dt x k n Hx Hof Hk Hnk).
    split.
    + apply of_int_exact. nia.
    + apply (int_mul_integer dt x k (Z.of_nat n) Hof Hdt Hk); lia.
Qed.

Lemma age_after_n_ticks_witness :
  2 ^ 53 * Z.abs (units (age (tick_n 6 (Float tenth) __init__)) - 6 * units tenth)
    <= 6 * 6 * units tenth.
Proof.
  refine (proj1 (age_after_n_ticks (Float tenth) tenth 6 _ _ _ _) _);
    try reflexivity.
  vm_compute. discriminate.
Defined.

(** C2 as stated fails: six ticks of [0.1] give [0.6], which is the
    double just below [6 * 0.1 = 0.6000000000000001]. *)
Lemma six_ticks_of_a_tenth :
  wf (Float tenth) = true /\ nonneg (Float tenth) = true /\
  age (tick_n 6 (Float tenth) __init__) = S754_finite false 5404319552844595 (-53) /\
  int_mul 6 (Float tenth) = Returned (Float (S754_finite false 5404319552844596 (-53))) /\
  py_eq (age (tick_n 6 (Float tenth) __init__))
        (Float (S754_finite false 5404319552844596 (-53))) = false.
Proof. repeat split; vm_compute; reflexivity. Qed.

(** C4 (amended).  A call [tick(dt)] with [dt >= 0] (an [int] or a
    [float], so not NaN) on a device whose age is not NaN leaves the age
    greater than or equal to the age before the call; the one exception
    is the age [-inf] with [dt = +inf], whose sum is NaN. *)
Theorem age_not_decreased_by_nonneg_dt d (dt : number) :
  valid (age d) = true -> wf dt = true -> nonneg dt = true ->
  is_nan (age d) = false -> opposite_infinities (age d) dt = false ->
  fgeb (age (fst (tick d (Some dt)))) (age d) = true.
Proof.
  intros Vd Hwf Hnn Hnan Hopp.
  assert (Hn : age d <> S754_nan) by (intros E; rewrite E in Hnan; discriminate).
  unfold fgeb. change SFleb with fleb.
  destruct (as_double dt) as [x|e] eqn:Hx.
  - rewrite (tick_age d dt x Hx). simpl fst. simpl age.
    apply fadd_nonneg_ge; auto.
    + now apply (as_double_wf dt).
    + now apply (as_double_nonneg dt).
    + intros [Ea Ex]. rewrite Ea in Hopp. subst x.
      destruct dt as [z|f]; simpl in Hx.
      * destruct (of_int z) as [g|] eqn:Eg; [|discriminate].
        injection Hx as ->. destruct (of_int_rounded z _ Eg) as (_ & _ & F). discriminate.
      * injection Hx as ->. discriminate.
  - rewrite (tick_raises d dt e Hx). simpl fst. now apply fleb_refl.
Qed.

Lemma age_not_decreased_by_nonneg_dt_witness :
  fgeb (age (fst (tick (tick_n 2 (Float tenth) __init__) (Some (Int 7)))))
       (age (tick_n 2 (Float tenth) __init__)) = true.
Proof. apply age_not_decreased_by_nonneg_dt; reflexivity. Defined.

(** C4 as stated fails: nothing rejects a negative argument, and
    [tick(-1.0)] on a fresh device takes the age from [0.0] to [-1.0]. *)
Lemma age_decreased_by_negative_dt :
  wf (Float minus_one) = true /\
  age (fst (tick __init__ (Some (Float minus_one)))) = minus_one /\
  fgeb (age (fst (tick __init__ (Some (Float minus_one))))) (age __init__) = false.
Proof. repeat split; reflexivity. Qed.

Lemma tick_valid (d : CenturyLifeDevice) (o : option number) :
  valid (age d) = true -> good o = true -> valid (age (fst (tick d o))) = true.
Proof.
  intros Vd Ho. unfold tick, float_add, good in *.
  destruct (as_double (default dt_default o)) as [x|e] eqn:E; simpl; [|assumption].
  apply fadd_valid; [assumption|]. now apply (as_double_wf (default dt_default o)).
Qed.

(** Every age reached by calls with double arguments is a double. *)
Lemma after_calls_valid (calls : list (option number)) :
  forallb good calls = true -> valid (age (after_calls calls)) = true.
Proof.
  unfold after_calls. generalize __init__ (eq_refl : valid (age __init__) = true).
  induction calls as [|o calls IH]; intros d Vd H; simpl in *.
  - exact Vd.
  - apply andb_true_iff in H as [Ho H]. apply IH; [|assumption].
    now apply tick_valid.
Qed.

Lemma tick_upward (d : CenturyLifeDevice) (o : option number) :
  valid (age d) = true -> fleb zero (age d) = true -> upward o = true ->
  valid (age (fst (tick d o))) = true /\ fleb zero (age (fst (tick d o))) = true.
Proof.
  intros Vd Pd Ho. apply andb_true_iff in Ho as [Hw Hn].
  split; [now apply tick_valid|].
  unfold tick, float_add.
  destruct (as_double (default dt_default o)) as [x|e] eqn:E; simpl; [|assumption].
  apply fadd_nonneg; auto.
  - now apply (as_double_wf (default dt_default o)).
  - now apply (as_double_nonneg (default dt_default o)).
Qed.

(** With non-negative arguments only, the age stays a number not below
    zero. *)
Lemma after_calls_upward (calls : list (option number)) :
  forallb upward calls = true ->
  valid (age (after_calls calls)) = true /\
  fleb zero (age (after_calls calls)) = true.
Proof.
  unfold after_calls.
  generalize __init__ (eq_refl : valid (age __init__) = true)
             (eq_refl : fleb zero (age __init__) = true).
  induction calls as [|o calls IH]; intros d Vd Pd H; simpl in *.
  - auto.
  - apply andb_true_iff in H as [Ho H].
    destruct (tick_upward d o Vd Pd Ho). apply IH; assumption.
Qed.

(** Along a run with non-negative arguments only, no call lowers the
    age. *)
Lemma age_never_lowered_on_upward_run (calls : list (option number)) (o : option number) :
  forallb upward calls = true -> upward o = true ->
  fgeb (age (fst (tick (after_calls calls) o))) (age (after_calls calls)) = true.
Proof.
  intros Hc Ho. destruct (after_calls_upward calls Hc) as [Vd Pd].
  set (d := after_calls calls) in *.
  apply andb_true_iff in Ho as [Hw Hn].
  assert (Hnan : age d <> S754_nan) by (intros E; rewrite E in Pd; discriminate).
  unfold fgeb. change SFleb with fleb. unfold tick, float_add.
  destruct (as_double (default dt_default o)) as [x|e] eqn:E; simpl.
  - apply fadd_nonneg_ge; auto.
    + now apply (as_double_wf (default dt_default o)).
    + now apply (as_double_nonneg (default dt_default o)).
    + intros [Ea _]. rewrite Ea in Pd. discriminate.
  - now apply fleb_refl.
Qed.

End Device.

(** ** The configuration loader *)

Section Configuration.
Local Open Scope string_scope.
Implicit Types (dotenv penv env : environ).

Lemma getenv_unset env key dflt : is_set env key = false -> getenv env key dflt = dflt.
Proof. unfold is_set, getenv. destruct (env !! key); [discriminate|reflexivity]. Qed.

Lemma getenv_set env key dflt s : env !! key = Some s -> getenv env key dflt = VStr s.
Proof. unfold getenv. now intros ->. Qed.

(** C5.  When none of the seven variables is set in the environment the
    constants are read from (the process environment completed by
    [load_dotenv]), the loader yields the defaults: [2592000.0], [1.0],
    [0.15] as floats, the integer [72], and the strings ["./vfs"],
    ["./logs"] and ["BSS"]. *)
Theorem defaults_when_nothing_is_set dotenv penv :
  none_set (load_dotenv dotenv penv) config_keys = true ->
  load dotenv penv = Returned defaults.
Proof.
  unfold none_set, config_keys, numeric_keys. cbn [forallb app].
  rewrite !andb_true_iff, !negb_true_iff.
  intros (H1 & H2 & H3 & H4 & H5 & H6 & H7 & _).
  unfold load. rewrite !getenv_unset by assumption. reflexivity.
Qed.

Lemma defaults_when_nothing_is_set_witness :
  load ∅ {[ "HOME" := "/root" ]} = Returned defaults.
Proof. apply defaults_when_nothing_is_set. vm_compute. reflexivity. Defined.

Lemma py_float_str_raises s e : py_float (VStr s) = Raised e -> e = ValueError.
Proof. simpl. destruct (float_of_string s); congruence. Qed.

Lemma py_int_str_raises s e : py_int (VStr s) = Raised e -> e = ValueError.
Proof. simpl. destruct (int_of_string s); congruence. Qed.

Lemma getenv_cases env key dflt :
  (env !! key = None /\ getenv env key dflt = dflt) \/
  (exists s, env !! key = Some s /\ getenv env key dflt = VStr s).
Proof. unfold getenv. destruct (env !! key) as [s|]; eauto. Qed.

Lemma float_key_raises env key dflt f :
  py_float dflt = Returned f ->
  String.eqb key "STASIS_MAX_HOURS" = false ->
  (raises (py_float (getenv env key dflt)) = true <->
   exists s, env !! key = Some s /\ coercible key s = false).
Proof.
  intros Hd Hk. unfold coercible. rewrite Hk.
  destruct (getenv_cases env key dflt) as [[N ->]|(s & S & ->)].
  - rewrite Hd. split; [discriminate|]. intros (s & Hs & _). congruence.
  - split.
    + intros H. exists s. split; [assumption|]. now rewrite H.
    + intros (s' & Hs & Hc). assert (s' = s) as -> by congruence.
      now apply negb_false_iff in Hc.
Qed.

Lemma int_key_raises env dflt z :
  py_int dflt = Returned z ->
  (raises (py_int (getenv env "STASIS_MAX_HOURS" dflt)) = true <->
   exists s, env !! "STASIS_MAX_HOURS" = Some s /\ coercible "STASIS_MAX_HOURS" s = false).
Proof.
  intros Hd. unfold coercible. simpl String.eqb.
  destruct (getenv_cases env "STASIS_MAX_HOURS" dflt) as [[N ->]|(s & S & ->)].
  - rewrite Hd. split; [discriminate|]. intros (s & Hs & _). congruence.
  - split.
    + intros H. exists s. split; [assumption|]. now rewrite H.
    + intros (s' & Hs & Hc). assert (s' = s) as -> by congruence.
      now apply negb_false_iff in Hc.
Qed.

Lemma coercion_raises_ValueError env key dflt f e :
  py_float dflt = Returned f ->
  py_float (getenv env key dflt) = Raised e -> e = ValueError.
Proof.
  intros Hd. destruct (getenv_cases env key dflt) as [[N ->]|(s & S & ->)].
  - congruence.
  - apply py_float_str_raises.
Qed.

(** C6.  Loading the configuration raises exactly when one of the four
    numeric variables is set to a string that its constructor ([float],
    or [int] for [STASIS_MAX_HOURS]) rejects; the exception is then a
    [ValueError], nothing catches it, and the run ends with it before
    touching the file system. *)
Theorem load_fails_iff_not_coercible dotenv penv :
  let env := load_dotenv dotenv penv in
  (raises (load dotenv penv) = true <->
   exists key s, In key numeric_keys /\ env !! key = Some s /\ coercible key s = false) /\
  (forall e, load dotenv penv = Raised e -> e = ValueError) /\
  (forall e cwd fs, load dotenv penv = Raised e -> program dotenv penv cwd fs = (fs, Raised e)).
Proof.
  intros env.
  pose proof (float_key_raises env "CENTURY_REAL_SEC" (VInt 2592000) _
                eq_refl eq_refl) as H1.
  pose proof (float_key_raises env "BURST_CAP_PER_HOUR" (VFloat one) _
                eq_refl eq_refl) as H2.
  pose proof (float_key_raises env "STASIS_FILL_RATE" (VFloat lit_0_15) _
                eq_refl eq_refl) as H3.
  pose proof (int_key_raises env (VInt 72) _ eq_refl) as H4.
  pose proof (fun e => coercion_raises_ValueError env "CENTURY_REAL_SEC"
                         (VInt 2592000) _ e eq_refl) as V1.
  pose proof (fun e => coercion_raises_ValueError env "BURST_CAP_PER_HOUR"
                         (VFloat one) _ e eq_refl) as V2.
  pose proof (fun e => coercion_raises_ValueError env "STASIS_FILL_RATE"
                         (VFloat lit_0_15) _ e eq_refl) as V3.
  assert (V4 : forall e, py_int (getenv env "STASIS_MAX_HOURS" (VInt 72)) = Raised e ->
                         e = ValueError).
  { intros e.
    destruct (getenv_cases env "STASIS_MAX_HOURS" (VInt 72)) as [[N ->]|(s & S & ->)].
    - discriminate.
    - apply py_int_str_raises. }
  assert (Hbad : (exists key s, In key numeric_keys /\ env !! key = Some s /\ coercible key s = false)
                 <-> raises (py_float (getenv env "CENTURY_REAL_SEC" (VInt 2592000))) = true
                  \/ raises (py_float (getenv env "BURST_CAP_PER_HOUR" (VFloat one))) = true
                  \/ raises (py_float (getenv env "STASIS_FILL_RATE" (VFloat lit_0_15))) = true
                  \/ raises (py_int (getenv env "STASIS_MAX_HOURS" (VInt 72))) = true).
  { rewrite H1, H2, H3, H4. split.
    - intros (key & s & Hin & Hs & Hc). simpl in Hin.
      destruct Hin as [<-|[<-|[<-|[<-|[]]]]]; eauto 6.
    - intros [(s & Hs & Hc)|[(s & Hs & Hc)|[(s & Hs & Hc)|(s & Hs & Hc)]]];
        eexists _, s; (split; [|split; eassumption]); simpl; auto. }
  clear H1 H2 H3 H4.
  unfold program, load. fold env.
  destruct (py_float (getenv env "CENTURY_REAL_SEC" (VInt 2592000))) as [c|e1];
  destruct (py_float (getenv env "BURST_CAP_PER_HOUR" (VFloat one))) as [b|e2];
  destruct (py_float (getenv env "STASIS_FILL_RATE" (VFloat lit_0_15))) as [f|e3];
  destruct (py_int (getenv env "STASIS_MAX_HOURS" (VInt 72))) as [h|e4];
  cbn [bind raises] in *;
  (split; [rewrite Hbad; clear; intuition congruence|]);
  (split; [intros e [= <-]; eauto | intros e cwd fs [= <-]; reflexivity]).
Qed.

(** The literals of the source, and a few strings, through the
    constructors. *)
Example float_of_literals :
  py_float (VInt 2592000) = Returned (CENTURY_REAL_SEC defaults) /\
  float_of_string "1.0" = Some one /\
  float_of_string "0.15" = Some lit_0_15 /\
  float_of_string " 1_000.5e1_0 " = float_of_string "10005000000000" /\
  float_of_string "1e400" = Some (S754_infinity false) /\
  float_of_string "-Infinity" = Some (S754_infinity true) /\
  float_of_string "NaN" = Some S754_nan /\
  float_of_string "1__0" = None /\
  float_of_string "." = None /\
  float_of_string EmptyString = None.
Proof. repeat split; vm_compute; reflexivity. Qed.

Example int_of_literals :
  int_of_string "72" = Some 72 /\
  int_of_string " -1_0 " = Some (-10) /\
  int_of_string "+007" = Some 7 /\
  int_of_string "72.5" = None /\
  int_of_string EmptyString = None.
Proof. repeat split; vm_compute; reflexivity. Qed.

(** An uncoercible value makes the import fail. *)
Example load_bad_hours :
  load ∅ {[ "STASIS_MAX_HOURS" := "10.5" ]} = Raised ValueError.
Proof. vm_compute. reflexivity. Qed.

Example load_hours_10 :
  STASIS_MAX_HOURS <$> (match load ∅ {[ "STASIS_MAX_HOURS" := "10" ]} with
                        | Returned c => Some c | Raised _ => None end) = Some 10%Z.
Proof. vm_compute. reflexivity. Qed.

Lemma first_dotenv_agree (dirs : list (list string)) (files files' : dotenv_files) :
  (forall dir, In dir dirs -> files' !! dir = files !! dir) ->
  first_dotenv dirs files' = first_dotenv dirs files.
Proof.
  induction dirs as [|dir dirs IH]; intros H; simpl; [reflexivity|].
  rewrite (H dir (or_introl eq_refl)).
  destruct (files !! dir); [reflexivity|].
  apply IH. intros d Hd. apply H. now right.
Qed.

(** The file found is the nearest one at or above the start directory. *)
Lemma first_dotenv_nearest (n : nat) (dir : list string) (files : dotenv_files)
    (b : environ) :
  first_dotenv (walk_up n dir) files = Some b <->
  exists m, (m <= n)%nat /\ files !! take m dir = Some b /\
            forall k, (m < k <= n)%nat -> files !! take k dir = None.
Proof.
  induction n as [|n IH].
  - simpl. destruct (files !! take 0 dir) as [b'|] eqn:E.
    + split.
      * intros [= <-]. exists 0%nat.
        split; [lia|]. split; [exact E|]. intros k Hk. lia.
      * intros (m & Hm & Hb & _). assert (m = 0)%nat as -> by lia. congruence.
    + split; [discriminate|]. intros (m & Hm & Hb & _).
      assert (m = 0)%nat as -> by lia. congruence.
  - cbn [walk_up first_dotenv]. destruct (files !! take (S n) dir) as [b'|] eqn:E.
    + split.
      * intros [= <-]. exists (S n).
        split; [lia|]. split; [exact E|]. intros k Hk. lia.
      * intros (m & Hm & Hb & Hno). destruct (Nat.eq_dec m (S n)) as [->|Hne];
          [congruence|]. rewrite (Hno (S n)) in E by lia. discriminate.
    + rewrite IH. split.
      * intros (m & Hm & Hb & Hno). exists m.
        split; [lia|]. split; [exact Hb|].
        intros k Hk. destruct (Nat.eq_dec k (S n)) as [->|Hne]; [exact E|].
        apply Hno. lia.
      * intros (m & Hm & Hb & Hno). assert (m <> S n) by congruence.
        exists m. split; [lia|]. split; [exact Hb|].
        intros k Hk. apply Hno. lia.
Qed.

Lemma find_dotenv_nearest (start : list string) (files : dotenv_files) (b : environ) :
  find_dotenv start files = Some b <->
  exists m, (m <= length start)%nat /\ files !! take m start = Some b /\
            forall k, (m < k <= length start)%nat -> files !! take k start = None.
Proof. apply first_dotenv_nearest. Qed.

(** C9 (amended).  The [.env] file that the import of [config] reads is
    the nearest one found from the directory of [config.py] upwards
    (from the working directory in an interactive session): files
    elsewhere, the working directory included, make no difference to
    the constants.  Unless loading is disabled, a variable that the
    process environment lacks and that file binds is read as the string
    from the file, not as the default, and the constant is what the
    constructor makes of that string. *)
Theorem dotenv_value_is_used (l : launch) (files : dotenv_files) penv :
  (forall files' : dotenv_files,
     (forall dir, In dir (walk_to_root (search_start l)) -> files' !! dir = files !! dir) ->
     import_config l files' penv = import_config l files penv) /\
  (forall bindings key s c,
     In key config_keys ->
     penv !! key = None ->
     dotenv_disabled penv = false ->
     find_dotenv (search_start l) files = Some bindings ->
     bindings !! key = Some s ->
     import_config l files penv = Returned c ->
     (forall dflt,
        getenv (load_dotenv (dotenv_bindings l files penv) penv) key dflt = VStr s) /\
     coerce key (VStr s) = Returned (constant c key)).
Proof.
  split.
  - intros files' H. unfold import_config, dotenv_bindings, find_dotenv.
    now rewrite (first_dotenv_agree _ _ _ H).
  - intros bindings key s c Hin Hp Hon Hfind Hd Hload.
    unfold import_config in Hload.
    assert (Hb : dotenv_bindings l files penv = bindings).
    { unfold dotenv_bindings. rewrite Hon, Hfind. reflexivity. }
    rewrite Hb in *.
    assert (Henv : load_dotenv bindings penv !! key = Some s).
    { unfold load_dotenv. rewrite lookup_union_r by assumption. assumption. }
    split; [intros dflt; now apply getenv_set|].
    unfold load in Hload.
    simpl in Hin.
    destruct Hin as [<-|[<-|[<-|[<-|[<-|[<-|[<-|[]]]]]]]];
      rewrite (getenv_set _ _ _ _ Henv) in Hload;
      unfold coerce, constant; cbn [String.eqb Ascii.eqb Bool.eqb existsb numeric_keys orb];
      repeat match type of Hload with
      | bind ?o _ = Returned _ => destruct o; cbn [bind] in Hload; [|discriminate]
      end;
      injection Hload as <-; reflexivity.
Qed.

Lemma dotenv_value_is_used_witness :
  coerce "STASIS_MAX_HOURS" (VStr "10") =
  Returned (constant (mkConfig (S754_finite false 5566277615616000 (-31)) one lit_0_15 10
                        (VStr "/srv/vfs") (VStr "./logs") (VStr "BSS"))
                     "STASIS_MAX_HOURS").
Proof.
  refine (proj2 (proj2 (dotenv_value_is_used
            (mkLaunch ["srv"; "app"; "tamaos"] ["home"; "u"] false)
            {[ ["srv"; "app"] := {[ "STASIS_MAX_HOURS" := "10"; "VFS_PATH" := "/srv/vfs" ]};
               ["srv"] := {[ "STASIS_MAX_HOURS" := "99" ]} ]}
            {[ "HOME" := "/root" ]})
            {[ "STASIS_MAX_HOURS" := "10"; "VFS_PATH" := "/srv/vfs" ]}
            "STASIS_MAX_HOURS" "10" _ _ _ _ _ _ _)).
  - simpl. auto.
  - vm_compute. reflexivity.
  - vm_compute. reflexivity.
  - vm_compute. reflexivity.
  - vm_compute. reflexivity.
  - vm_compute. reflexivity.
Defined.

(** C9 as stated fails.  With [config.py] in [/srv/app/tamaos] and
    the program started in [/home/u], a [.env] file in the working
    directory that binds [SKIN_MODE] is not read: the constants are the
    defaults, [SKIN_MODE] is ["BSS"]. *)
Lemma dotenv_in_working_directory_is_ignored :
  let l := mkLaunch ["srv"; "app"; "tamaos"] ["home"; "u"] false in
  let files : dotenv_files := {[ ["home"; "u"] := {[ "SKIN_MODE" := "dark" ]} ]} in
  let penv : environ := {[ "HOME" := "/home/u" ]} in
  (files !! working_dir l) ≫= (fun bindings => bindings !! "SKIN_MODE") = Some "dark" /\
  penv !! "SKIN_MODE" = None /\
  dotenv_disabled penv = false /\
  import_config l files penv = Returned defaults /\
  SKIN_MODE defaults = VStr "BSS".
Proof. cbv zeta. repeat split; vm_compute; reflexivity. Qed.

End Configuration.

(** ** The bootstrap routine *)

Section Bootstrap.
Local Open Scope string_scope.
Implicit Types (fs : filesystem) (cwd cur : list string) (p : Path).

Lemma node_at_mono fs fs' (k : list string) (n : node) :
  fs ⊆ fs' -> node_at fs k = Some n -> node_at fs' k = Some n.
Proof.
  intros Hsub. destruct k as [|c k]; simpl; [auto|].
  intros H. eapply lookup_weaken; eassumption.
Qed.

Lemma walk_mono fs fs' cur comps r :
  fs ⊆ fs' -> walk fs cur comps = Returned r -> walk fs' cur comps = Returned r.
Proof.
  intros Hsub. revert cur. induction comps as [|c comps IH]; intros cur; simpl.
  - auto.
  - destruct (String.eqb c ".."); [apply IH|].
    destruct (node_at fs (cur ++ [c])) as [[]|] eqn:E; try discriminate.
    rewrite (node_at_mono fs fs' _ _ Hsub E). apply IH.
Qed.

Lemma walk_app fs cur (a b : list string) :
  walk fs cur (a ++ b) = (do c <- walk fs cur a; walk fs c b).
Proof.
  revert cur. induction a as [|x a IH]; intros cur; simpl.
  - reflexivity.
  - destruct (String.eqb x ".."); [apply IH|].
    destruct (node_at fs (cur ++ [x])) as [[]|]; auto.
Qed.

Lemma is_dir_mono cwd p fs fs' :
  fs ⊆ fs' -> is_dir cwd p fs = true -> is_dir cwd p fs' = true.
Proof.
  intros Hsub. unfold is_dir.
  destruct (walk fs (origin cwd p) (rev (rparts p))) as [r|e] eqn:E; [|discriminate].
  intros _. now rewrite (walk_mono fs fs' _ _ r Hsub E).
Qed.

Lemma is_dir_parent cwd anch name rp fs :
  is_dir cwd (mkPath anch (name :: rp)) fs = true ->
  is_dir cwd (mkPath anch rp) fs = true.
Proof.
  unfold is_dir, origin. simpl. rewrite walk_app.
  destruct (walk fs (if anch then [] else cwd) (rev rp)); [reflexivity|discriminate].
Qed.

(** [os.mkdir] either fails or adds one directory, which is then there. *)
Lemma os_mkdir_creates cwd p fs fs' :
  os_mkdir cwd p fs = Returned fs' ->
  fs ⊆ fs' /\ is_dir cwd p fs' = true.
Proof.
  unfold os_mkdir, is_dir. destruct p as [anch [|name rp]]; simpl; [discriminate|].
  set (o := origin cwd _).
  destruct (walk fs o (rev rp)) as [dir|e] eqn:W; simpl; [|discriminate].
  destruct (String.eqb name "..") eqn:N; [discriminate|].
  destruct (node_at fs (dir ++ [name])) eqn:L; [discriminate|].
  intros [= <-].
  assert (Hk : fs !! (dir ++ [name])%list = None).
  { destruct (dir ++ [name])%list eqn:E; [destruct dir; discriminate|exact L]. }
  assert (Hsub : fs ⊆ <[(dir ++ [name])%list := Dir]> fs) by now apply insert_subseteq.
  split; [assumption|].
  unfold origin in *. simpl in *. fold o.
  rewrite walk_app, (walk_mono _ _ _ _ _ Hsub W). simpl. rewrite N.
  assert (Hn : node_at (<[(dir ++ [name])%list := Dir]> fs) (dir ++ [name]) = Some Dir).
  { destruct (dir ++ [name])%list eqn:E; [destruct dir; discriminate|].
    simpl. apply lookup_insert_eq. }
  rewrite Hn. reflexivity.
Qed.

(** On an existing directory [os.mkdir] reports that the file exists. *)
Lemma os_mkdir_existing cwd p fs :
  is_dir cwd p fs = true -> os_mkdir cwd p fs = Raised FileExistsError.
Proof.
  unfold os_mkdir, is_dir. destruct p as [anch [|name rp]]; simpl; [reflexivity|].
  set (o := origin cwd _). unfold origin in *. simpl in *. fold o.
  rewrite walk_app.
  destruct (walk fs o (rev rp)) as [dir|e]; simpl; [|discriminate].
  destruct (String.eqb name ".."); [reflexivity|].
  destruct (node_at fs (dir ++ [name])) as [[]|]; try discriminate; reflexivity.
Qed.

Lemma mkdir_single_spec cwd p fs fs' o :
  mkdir_single true cwd p fs = (fs', o) ->
  fs ⊆ fs' /\ (o = Returned tt -> is_dir cwd p fs' = true) /\
  (forall e, o = Raised e -> fs' = fs).
Proof.
  unfold mkdir_single.
  destruct (os_mkdir cwd p fs) as [fs1|e] eqn:E.
  - intros [= <- <-]. destruct (os_mkdir_creates _ _ _ _ E).
    repeat split; auto. discriminate.
  - destruct (is_dir cwd p fs) eqn:D; destruct e; simpl; intros [= <- <-];
      repeat split; auto; try discriminate.
Qed.

Lemma mkdir_parents_spec cwd anch rp fs fs' o :
  mkdir_parents true cwd anch rp fs = (fs', o) ->
  fs ⊆ fs' /\ (o = Returned tt -> is_dir cwd (mkPath anch rp) fs' = true).
Proof.
  revert fs fs' o. induction rp as [|name rp IH]; intros fs fs' o; simpl.
  - unfold os_mkdir, is_dir. simpl. intros [= <- <-]. split; reflexivity.
  - destruct (os_mkdir cwd (mkPath anch (name :: rp)) fs) as [fs1|e] eqn:E.
    + intros [= <- <-]. destruct (os_mkdir_creates _ _ _ _ E). auto.
    + destruct e;
        try (destruct (is_dir cwd (mkPath anch (name :: rp)) fs) eqn:D; simpl;
             intros [= <- <-];
             (split; [reflexivity|first [intros _; exact D | discriminate]])).
      unfold seq.
      destruct (mkdir_parents true cwd anch rp fs) as [fs1 [[]|e1]] eqn:P.
      * destruct (IH _ _ _ P) as [S1 _].
        intros Hs. destruct (mkdir_single_spec _ _ _ _ _ Hs) as (S2 & Hd & _).
        split; [etrans; eassumption|assumption].
      * intros [= <- <-]. destruct (IH _ _ _ P) as [S1 _].
        split; [assumption|discriminate].
Qed.

(** Once the directory exists, creating it again changes nothing. *)
Lemma mkdir_parents_existing cwd anch rp fs :
  is_dir cwd (mkPath anch rp) fs = true ->
  mkdir_parents true cwd anch rp fs = (fs, Returned tt).
Proof.
  intros D. pose proof (os_mkdir_existing _ _ _ D) as E.
  destruct rp as [|name rp]; simpl; simpl in E; rewrite ?E, ?D; reflexivity.
Qed.

Lemma is_dir_ancestors cwd anch rp fs (k : nat) :
  is_dir cwd (mkPath anch rp) fs = true ->
  is_dir cwd (mkPath anch (drop k rp)) fs = true.
Proof.
  revert rp. induction k as [|k IH]; intros rp H.
  - now rewrite drop_0.
  - destruct rp as [|name rp]; [exact H|]. simpl. apply IH.
    now apply is_dir_parent in H.
Qed.

Lemma Path_mkdir_spec cwd p fs fs' :
  Path_mkdir true true cwd p fs = (fs', Returned tt) ->
  fs ⊆ fs' /\ is_dir cwd p fs' = true.
Proof.
  unfold Path_mkdir. intros H. destruct p as [anch rp].
  destruct (mkdir_parents_spec _ _ _ _ _ _ H). auto.
Qed.

Lemma Path_mkdir_existing cwd p fs :
  is_dir cwd p fs = true -> Path_mkdir true true cwd p fs = (fs, Returned tt).
Proof.
  unfold Path_mkdir. destruct p as [anch rp]. apply mkdir_parents_existing.
Qed.

(** C7 (amended).  From every file system on which [ensure_dirs()]
    returns, the two paths and all their ancestors are directories
    afterwards, nothing that existed was changed, and a second run
    returns too and leaves the file system exactly as the first run
    left it. *)
Theorem ensure_dirs_idempotent_once_succeeded (c : config) cwd fs :
  snd (ensure_dirs c cwd fs) = Returned tt ->
  let fs' := fst (ensure_dirs c cwd fs) in
  (exists vfs logs,
     Path_new (VFS_PATH c) = Returned vfs /\
     Path_new (LOG_PATH c) = Returned logs /\
     (forall k, is_dir cwd (mkPath (anchored vfs) (drop k (rparts vfs))) fs' = true) /\
     (forall k, is_dir cwd (mkPath (anchored logs) (drop k (rparts logs))) fs' = true)) /\
  fs ⊆ fs' /\
  ensure_dirs c cwd fs' = (fs', Returned tt).
Proof.
  destruct (ensure_dirs c cwd fs) as [fs' o] eqn:E. simpl. intros ->.
  revert E. unfold ensure_dirs, seq.
  destruct (Path_new (VFS_PATH c)) as [vfs|e1]; [|discriminate].
  destruct (Path_mkdir true true cwd vfs fs) as [fs1 [[]|e2]] eqn:M1; [|discriminate].
  destruct (Path_new (LOG_PATH c)) as [logs|e3]; [|discriminate].
  intros M2.
  destruct (Path_mkdir_spec _ _ _ _ M1) as [S1 D1].
  destruct (Path_mkdir_spec _ _ _ _ M2) as [S2 D2].
  pose proof (is_dir_mono _ _ _ _ S2 D1) as D1'.
  split; [|split].
  - exists vfs, logs. repeat split; auto; intros k.
    + destruct vfs. now apply is_dir_ancestors.
    + destruct logs. now apply is_dir_ancestors.
  - etrans; eassumption.
  - rewrite (Path_mkdir_existing _ _ _ D1'). now apply Path_mkdir_existing.
Qed.

Lemma ensure_dirs_idempotent_once_succeeded_witness :
  let cwd := ["home"; "u"] in
  let fs : filesystem := {[ ["home"] := Dir; ["home"; "u"] := Dir ]} in
  let fs' := fst (ensure_dirs defaults cwd fs) in
  fs ⊆ fs' /\ ensure_dirs defaults cwd fs' = (fs', Returned tt).
Proof.
  cbv zeta.
  refine (proj2 (ensure_dirs_idempotent_once_succeeded defaults ["home"; "u"]
            {[ ["home"] := Dir; ["home"; "u"] := Dir ]} _)).
  vm_compute. reflexivity.
Defined.

(** C7 as stated fails.  With a regular file at [./vfs], nothing is
    created and every run raises [FileExistsError].  With [VFS_PATH] set
    to [/tmp/x/y] and a regular file at [/tmp/x], the path is absent and
    stays absent: each run raises [NotADirectoryError]. *)
Lemma ensure_dirs_blocked_by_file :
  let cwd := ["home"; "u"] in
  let fs : filesystem :=
    {[ ["home"] := Dir; ["home"; "u"] := Dir; ["home"; "u"; "vfs"] := File;
       ["tmp"] := Dir; ["tmp"; "x"] := File ]} in
  let c := {| CENTURY_REAL_SEC := CENTURY_REAL_SEC defaults;
              BURST_CAP_PER_HOUR := BURST_CAP_PER_HOUR defaults;
              STASIS_FILL_RATE := STASIS_FILL_RATE defaults;
              STASIS_MAX_HOURS := STASIS_MAX_HOURS defaults;
              VFS_PATH := VStr "/tmp/x/y";
              LOG_PATH := LOG_PATH defaults;
              SKIN_MODE := SKIN_MODE defaults |} in
  (ensure_dirs defaults cwd fs = (fs, Raised FileExistsError) /\
   is_dir cwd (path_of_string "./vfs") fs = false /\
   is_dir cwd (path_of_string "./logs") fs = false) /\
  (load ∅ {[ "VFS_PATH" := "/tmp/x/y" ]} = Returned c /\
   ensure_dirs c cwd fs = (fs, Raised NotADirectoryError) /\
   is_dir cwd (path_of_string "/tmp/x/y") fs = false).
Proof. cbv zeta. repeat split; vm_compute; reflexivity. Qed.

End Bootstrap.

(** ** Runs of the device from any state *)

Section DeviceRuns.
Local Open Scope string_scope.

Lemma tick_keeps_nan (d : CenturyLifeDevice) (o : option number) :
  is_nan (age d) = true -> is_nan (age (fst (tick d o))) = true.
Proof.
  intros H. unfold tick, float_add.
  destruct (as_double (default dt_default o)); simpl; [|assumption].
  destruct (age d); try discriminate. reflexivity.
Qed.

Lemma run_from_keeps_nan (calls : list (option number)) (d : CenturyLifeDevice) :
  is_nan (age d) = true -> is_nan (age (run_from d calls)) = true.
Proof.
  unfold run_from. revert d. induction calls as [|o calls IH]; intros d H; simpl.
  - exact H.
  - apply IH. now apply tick_keeps_nan.
Qed.

(** X1.  One call of [tick] with a NaN argument makes the age NaN for
    good: whatever calls follow, with whatever arguments, the age stays
    NaN, and every later call either raises [OverflowError] (an [int]
    too large to convert) or returns a mapping whose ['age'] is NaN. *)
Theorem nan_is_absorbing (d : CenturyLifeDevice) (calls : list (option number)) :
  is_nan (age (run_from (fst (tick d (Some (Float S754_nan)))) calls)) = true /\
  forall o, exists s,
    snd (tick (run_from (fst (tick d (Some (Float S754_nan)))) calls) o)
      = Raised OverflowError \/
    snd (tick (run_from (fst (tick d (Some (Float S754_nan)))) calls) o)
      = Returned {[ "age" := VFloat S754_nan; "stage" := VStr s ]}.
Proof.
  assert (H0 : is_nan (age (fst (tick d (Some (Float S754_nan))))) = true).
  { unfold tick, float_add. simpl. destruct (age d) as [| | |]; try reflexivity;
      destruct s; reflexivity. }
  pose proof (run_from_keeps_nan calls _ H0) as H.
  split; [exact H|]. intros o.
  set (d' := run_from _ calls) in *.
  exists (stage d'). unfold tick, float_add.
  destruct (as_double (default dt_default o)) as [x|e] eqn:E; simpl.
  - right. destruct (age d'); try discriminate. reflexivity.
  - left. destruct (default dt_default o) as [z|f]; simpl in E; [|discriminate].
    destruct (of_int z); congruence.
Qed.

Lemma of_int_None_iff (z : Z) :
  of_int z = None <-> overflow_threshold <= Z.abs z.
Proof.
  unfold of_int. rewrite binary_normalize_units by lia. change (0 + 1074) with 1074.
  assert (Hp : 0 < 2 ^ 1074) by (apply Z.pow_pos_nonneg; lia).
  assert (HT : round_units (overflow_threshold * 2 ^ 1074) = 2 ^ 2098)
    by (vm_compute; reflexivity).
  assert (HT' : round_units ((overflow_threshold - 1) * 2 ^ 1074) < 2 ^ 2098)
    by (vm_compute; reflexivity).
  assert (H0 : 0 < overflow_threshold - 1) by (vm_compute; reflexivity).
  destruct (Z.eq_dec z 0) as [->|Hz].
  - simpl. split; [discriminate|]. intros H. exfalso. simpl in H. lia.
  - assert (HV : z * 2 ^ 1074 <> 0) by nia.
    destruct (rounded_spec _ HV) as (HW & _ & Hcase). cbv zeta in *.
    rewrite Z.abs_mul, (Z.abs_eq (2 ^ 1074)) in * by lia.
    destruct (Z.le_gt_cases overflow_threshold (Z.abs z)) as [Hge|Hlt].
    + assert (Hm : 2 ^ 2098 <= round_units (Z.abs z * 2 ^ 1074)).
      { rewrite <- HT. apply round_units_mono. nia. }
      destruct Hcase as [[_ ->]|[Hfin _]]; [|lia].
      split; auto.
    + assert (Hm : round_units (Z.abs z * 2 ^ 1074) < 2 ^ 2098).
      { eapply Z.le_lt_trans; [|exact HT']. apply round_units_mono. nia. }
      destruct Hcase as [[Hov _]|(_ & _ & Hf & _)]; [lia|].
      split; [|lia]. destruct (rounded (z * 2 ^ 1074)); try discriminate.
Qed.

(** X2.  In every state, [tick(dt)] raises exactly when [dt] is an
    [int] of magnitude at least [2^1024 - 2^970]; every float argument,
    infinities and NaN included, and every smaller [int] is accepted. *)
Theorem tick_raises_iff_int_too_large (d : CenturyLifeDevice) (dt : number) :
  (exists e, snd (tick d (Some dt)) = Raised e) <->
  (exists z, dt = Int z /\ overflow_threshold <= Z.abs z).
Proof.
  unfold tick, float_add. simpl default.
  destruct dt as [z|f]; simpl as_double.
  - destruct (of_int z) as [x|] eqn:E; simpl.
    + split.
      * intros [e He]. discriminate.
      * intros (z' & [= <-] & Hz). apply of_int_None_iff in Hz. congruence.
    + split.
      * intros _. exists z. split; [reflexivity|]. now apply of_int_None_iff.
      * intros _. eexists. reflexivity.
  - simpl. split.
    + intros [e He]. discriminate.
    + intros (z & Hz & _). discriminate.
Qed.

Lemma tick_n_snoc (n : nat) (dt : number) (d : CenturyLifeDevice) :
  tick_n (S n) dt d = fst (tick (tick_n n dt d) (Some dt)).
Proof.
  revert d. induction n as [|n IH]; intros d; [reflexivity|].
  change (tick_n (S (S n)) dt d) with (tick_n (S n) dt (fst (tick d (Some dt)))).
  rewrite IH. reflexivity.
Qed.

(** X3.  Counting with the default step stops at [2^53]: after [n]
    calls [tick()] on a fresh object the age is the double [min n 2^53],
    exactly; from [9007199254740992.0] on, further calls leave the age
    where it is. *)
Theorem default_ticks_saturate (n : nat) :
  age (tick_n n dt_default __init__)
  = rounded (Z.min (Z.of_nat n) (2 ^ 53) * 2 ^ 1074) /\
  units (age (tick_n n dt_default __init__))
  = Z.min (Z.of_nat n) (2 ^ 53) * 2 ^ 1074.
Proof.
  assert (H : age (tick_n n dt_default __init__)
              = rounded (Z.min (Z.of_nat n) (2 ^ 53) * 2 ^ 1074)).
  { induction n as [|n IH]; [reflexivity|].
    destruct (Z.le_gt_cases (Z.of_nat (S n)) (2 ^ 53)) as [Hle|Hgt].
    - rewrite Z.min_l by lia.
      rewrite (tick_n_integer dt_default one 1 (S n)); try reflexivity; try lia.
      f_equal. lia.
    - rewrite Z.min_r by lia. rewrite Z.min_r in IH by lia.
      rewrite tick_n_snoc. rewrite (tick_age _ dt_default one eq_refl). simpl fst.
      simpl age. rewrite IH. vm_compute. reflexivity. }
  split; [exact H|]. rewrite H.
  apply rounded_exact.
  - apply (int_units_representable (Z.min (Z.of_nat n) (2 ^ 53))). lia.
  - apply (int_units_representable (Z.min (Z.of_nat n) (2 ^ 53))). lia.
Qed.

Lemma fleb_trans (x y z : float) :
  valid x = true -> valid y = true -> valid z = true ->
  fleb x y = true -> fleb y z = true -> fleb x z = true.
Proof.
  intros Vx Vy Vz.
  destruct (is_finite x) eqn:Fx, (is_finite y) eqn:Fy, (is_finite z) eqn:Fz.
  - rewrite !fleb_units by assumption. rewrite !Z.leb_le. lia.
  - destruct z as [| [] | |]; try discriminate; intros _;
      destruct y as [[]| | |[]]; try discriminate;
      destruct x as [[]| | |[]]; try discriminate; intros _; reflexivity.
  - destruct y as [| [] | |]; try discriminate;
      destruct x as [[]| | |[]]; try discriminate;
      destruct z as [[]| | |[]]; try discriminate.
  - destruct y as [| [] | |]; try discriminate;
      destruct x as [[]| | |[]]; try discriminate;
      destruct z as [| [] | |]; try discriminate; reflexivity.
  - destruct x as [| [] | |]; try discriminate;
      destruct y as [[]| | |[]]; try discriminate;
      destruct z as [[]| | |[]]; try discriminate; reflexivity.
  - destruct x as [| [] | |]; try discriminate;
      destruct y as [[]| | |[]]; try discriminate;
      destruct z as [| [] | |]; try discriminate; reflexivity.
  - destruct x as [| [] | |]; try discriminate;
      destruct y as [| [] | |]; try discriminate;
      destruct z as [[]| | |[]]; try discriminate; reflexivity.
  - destruct x as [| [] | |]; try discriminate;
      destruct y as [| [] | |]; try discriminate;
      destruct z as [| [] | |]; try discriminate; reflexivity.
Qed.

Lemma after_calls_snoc (calls : list (option number)) (o : option number) :
  after_calls (calls ++ [o]) = fst (tick (after_calls calls) o).
Proof. unfold after_calls. rewrite fold_left_app. reflexivity. Qed.

(** X4.  Along a run of calls whose arguments are all doubles or
    [int]s that are not negative, the age is never below zero and never
    below what it was at any earlier point of the run. *)
Theorem age_is_monotone_on_upward_runs (pre post : list (option number)) :
  forallb upward (pre ++ post) = true ->
  fleb zero (age (after_calls pre)) = true /\
  fleb (age (after_calls pre)) (age (after_calls (pre ++ post))) = true.
Proof.
  induction post as [|o post IH] using rev_ind; intros H.
  - rewrite app_nil_r in *. destruct (after_calls_upward pre H) as [V P].
    split; [exact P|]. apply fleb_refl. intros E. rewrite E in P. discriminate.
  - rewrite app_assoc in *. rewrite forallb_app in H.
    apply andb_true_iff in H as [H Ho]. simpl in Ho. rewrite andb_true_r in Ho.
    destruct (IH H) as [P L]. split; [exact P|].
    rewrite after_calls_snoc.
    pose proof (age_never_lowered_on_upward_run (pre ++ post) o H Ho) as G.
    assert (Hpre : forallb upward pre = true).
    { rewrite forallb_app in H. now apply andb_true_iff in H as [? _]. }
    assert (Hall : forallb upward ((pre ++ post) ++ [o]) = true).
    { rewrite forallb_app, H. simpl. now rewrite Ho. }
    pose proof (after_calls_upward _ Hall) as [V3 _].
    rewrite after_calls_snoc in V3.
    eapply fleb_trans; [| |exact V3|exact L|exact G].
    + apply (after_calls_upward pre Hpre).
    + apply (after_calls_upward _ H).
Qed.

Lemma age_is_monotone_on_upward_runs_witness :
  fleb zero (age (after_calls [None; Some (Float tenth)])) = true /\
  fleb (age (after_calls [None; Some (Float tenth)]))
       (age (after_calls ([None; Some (Float tenth)] ++ [Some (Int 3); None]))) = true.
Proof.
  apply (age_is_monotone_on_upward_runs [None; Some (Float tenth)] [Some (Int 3); None]).
  vm_compute. reflexivity.
Defined.

Lemma tick_not_finite (d : CenturyLifeDevice) (o : option number) :
  is_finite (age d) = false -> is_finite (age (fst (tick d o))) = false.
Proof.
  intros H. unfold tick, float_add.
  destruct (as_double (default dt_default o)); simpl; [|assumption].
  now apply fadd_not_finite.
Qed.

(** X5.  An age that is infinite or NaN never becomes finite again:
    after any further calls it is still not finite, and every mapping a
    later call returns carries a non-finite ['age']. *)
Theorem non_finite_age_is_permanent (d : CenturyLifeDevice) (calls : list (option number)) :
  is_finite (age d) = false ->
  is_finite (age (run_from d calls)) = false /\
  forall o v, snd (tick (run_from d calls) o) = Returned v ->
    exists a, v !! "age" = Some (VFloat a) /\ is_finite a = false.
Proof.
  intros H.
  assert (F : is_finite (age (run_from d calls)) = false).
  { unfold run_from. revert d H. induction calls as [|o calls IH]; intros d H; simpl.
    - exact H.
    - apply IH. now apply tick_not_finite. }
  split; [exact F|]. intros o v.
  pose proof (tick_not_finite (run_from d calls) o F) as G.
  revert G. unfold tick, float_add.
  destruct (as_double (default dt_default o)); simpl; [|discriminate].
  intros G [= <-]. eexists. split; [reflexivity|exact G].
Qed.

Lemma non_finite_age_is_permanent_witness :
  is_finite (age (run_from (mkDevice (S754_infinity false) "Neonate")
                           [Some (Float minus_one); None])) = false.
Proof.
  apply (non_finite_age_is_permanent (mkDevice (S754_infinity false) "Neonate")
           [Some (Float minus_one); None]).
  reflexivity.
Defined.

(** X6.  [tick(-0.0)] changes nothing in any state and returns the
    current age and stage; [tick(0)] and [tick(0.0)] do the same unless
    the age is the negative zero. *)
Theorem tick_of_zero_only_reads (d : CenturyLifeDevice) :
  tick d (Some (Float (S754_zero true)))
  = (d, Returned {[ "age" := VFloat (age d); "stage" := VStr (stage d) ]}) /\
  (age d <> S754_zero true ->
   tick d (Some (Int 0)) = tick d (Some (Float (S754_zero true))) /\
   tick d (Some (Float zero)) = tick d (Some (Float (S754_zero true)))).
Proof.
  destruct d as [a s]. split.
  - unfold tick, float_add. simpl.
    destruct a as [[]| | |]; reflexivity.
  - simpl. intros Ha. unfold tick, float_add. simpl.
    destruct a as [[]| | |]; try (split; reflexivity). congruence.
Qed.

Lemma tick_of_zero_only_reads_witness :
  tick (mkDevice one "Neonate") (Some (Int 0))
  = tick (mkDevice one "Neonate") (Some (Float (S754_zero true))).
Proof.
  apply (tick_of_zero_only_reads (mkDevice one "Neonate")). discriminate.
Defined.

End DeviceRuns.

(** ** The environment the loader reads *)

Section EnvironmentRead.
Local Open Scope string_scope.
Implicit Types (dotenv penv env : environ).

Lemma getenv_agree env1 env2 key dflt :
  env1 !! key = env2 !! key -> getenv env1 key dflt = getenv env2 key dflt.
Proof. unfold getenv. now intros ->. Qed.

Lemma load_agree dotenv1 penv1 dotenv2 penv2 :
  (forall key, In key config_keys ->
     load_dotenv dotenv1 penv1 !! key = load_dotenv dotenv2 penv2 !! key) ->
  load dotenv1 penv1 = load dotenv2 penv2.
Proof.
  intros H. unfold load.
  rewrite (getenv_agree _ _ _ (VInt 2592000) (H "CENTURY_REAL_SEC" ltac:(simpl; auto))).
  rewrite (getenv_agree _ _ _ (VFloat one) (H "BURST_CAP_PER_HOUR" ltac:(simpl; auto))).
  rewrite (getenv_agree _ _ _ (VFloat lit_0_15) (H "STASIS_FILL_RATE" ltac:(simpl; auto))).
  rewrite (getenv_agree _ _ _ (VInt 72) (H "STASIS_MAX_HOURS" ltac:(simpl; auto))).
  rewrite (getenv_agree _ _ _ (VStr "./vfs") (H "VFS_PATH" ltac:(simpl; auto 10))).
  rewrite (getenv_agree _ _ _ (VStr "./logs") (H "LOG_PATH" ltac:(simpl; auto 10))).
  rewrite (getenv_agree _ _ _ (VStr "BSS") (H "SKIN_MODE" ltac:(simpl; auto 10))).
  reflexivity.
Qed.

Lemma load_constant dotenv penv key s c :
  In key config_keys ->
  load_dotenv dotenv penv !! key = Some s ->
  load dotenv penv = Returned c ->
  coerce key (VStr s) = Returned (constant c key).
Proof.
  intros Hin Henv Hload.
  unfold load in Hload.
  simpl in Hin.
  destruct Hin as [<-|[<-|[<-|[<-|[<-|[<-|[<-|[]]]]]]]];
    rewrite (getenv_set _ _ _ _ Henv) in Hload;
    unfold coerce, constant; cbn [String.eqb Ascii.eqb Bool.eqb existsb numeric_keys orb];
    repeat match type of Hload with
    | bind ?o _ = Returned _ => destruct o; cbn [bind] in Hload; [|discriminate]
    end;
    injection Hload as <-; reflexivity.
Qed.

(** X7.  A variable set in the process environment is read from
    there: whatever the [.env] file binds to the same name, or whether
    it binds it at all, makes no difference to the constants, and the
    constant is what the constructor makes of the process value. *)
Theorem process_environment_takes_precedence dotenv penv key s :
  penv !! key = Some s ->
  (forall dflt, getenv (load_dotenv dotenv penv) key dflt = VStr s) /\
  (forall s', load (<[key := s']> dotenv) penv = load dotenv penv) /\
  load (delete key dotenv) penv = load dotenv penv /\
  (forall c, In key config_keys -> load dotenv penv = Returned c ->
     coerce key (VStr s) = Returned (constant c key)).
Proof.
  intros Hp.
  assert (Henv : forall d, load_dotenv d penv !! key = Some s).
  { intros d. unfold load_dotenv. apply lookup_union_Some_l. exact Hp. }
  split; [intros dflt; now apply getenv_set|].
  split; [|split].
  - intros s'. apply load_agree. intros k _. unfold load_dotenv.
    destruct (decide (k = key)) as [->|Hk].
    + rewrite !(lookup_union_Some_l _ _ _ _ Hp). reflexivity.
    + rewrite !lookup_union, lookup_insert_ne by congruence. reflexivity.
  - apply load_agree. intros k _. unfold load_dotenv.
    destruct (decide (k = key)) as [->|Hk].
    + rewrite !(lookup_union_Some_l _ _ _ _ Hp). reflexivity.
    + rewrite !lookup_union, lookup_delete_ne by congruence. reflexivity.
  - intros c Hin Hload. eapply load_constant; eauto.
Qed.

Lemma process_environment_takes_precedence_witness :
  load (<["STASIS_MAX_HOURS" := "oops"]> {[ "VFS_PATH" := "/srv/vfs" ]})
       {[ "STASIS_MAX_HOURS" := "10" ]}
  = load {[ "VFS_PATH" := "/srv/vfs" ]} {[ "STASIS_MAX_HOURS" := "10" ]}.
Proof.
  refine (proj1 (proj2 (process_environment_takes_precedence
            {[ "VFS_PATH" := "/srv/vfs" ]} {[ "STASIS_MAX_HOURS" := "10" ]}
            "STASIS_MAX_HOURS" "10" _)) "oops").
  vm_compute. reflexivity.
Defined.

(** X8.  The constants depend on the environment through the seven
    variables only: two runs whose environments (after [load_dotenv])
    agree on them yield the same constants, or fail alike.  The value
    of [STASIS_MAX_HOURS] is taken to have at most 640 characters, so
    that the interpreter's limit on integer strings, which is set from
    another variable, has no say. *)
Theorem load_reads_only_its_seven_variables dotenv1 penv1 dotenv2 penv2 :
  agree_on config_keys (load_dotenv dotenv1 penv1) (load_dotenv dotenv2 penv2) = true ->
  short_hours (load_dotenv dotenv1 penv1) = true ->
  load dotenv1 penv1 = load dotenv2 penv2 /\
  short_hours (load_dotenv dotenv2 penv2) = true.
Proof.
  intros H Hs.
  assert (Hk : forall key, In key config_keys ->
            load_dotenv dotenv1 penv1 !! key = load_dotenv dotenv2 penv2 !! key).
  { intros key Hin. unfold agree_on in H. rewrite forallb_forall in H.
    specialize (H key Hin). now apply bool_decide_eq_true in H. }
  split; [now apply load_agree|].
  unfold short_hours in *.
  rewrite <- (Hk "STASIS_MAX_HOURS") by (simpl; auto). exact Hs.
Qed.

Lemma load_reads_only_its_seven_variables_witness :
  load {[ "SKIN_MODE" := "dark"; "EDITOR" := "vi" ]} {[ "HOME" := "/root" ]}
  = load ∅ {[ "SKIN_MODE" := "dark"; "LANG" := "C" ]} /\
  short_hours (load_dotenv ∅ {[ "SKIN_MODE" := "dark"; "LANG" := "C" ]}) = true.
Proof.
  apply load_reads_only_its_seven_variables; vm_compute; reflexivity.
Defined.

Lemma lstrip_spaces (l x : list ascii) :
  forallb is_space l = true -> lstrip (l ++ x) = lstrip x.
Proof.
  induction l as [|c l IH]; simpl; [reflexivity|].
  intros H. apply andb_true_iff in H as [-> H]. auto.
Qed.

Lemma lstrip_all_spaces (l : list ascii) :
  forallb is_space l = true -> lstrip l = [].
Proof.
  intros H. rewrite <- (app_nil_r l). now rewrite lstrip_spaces.
Qed.

Lemma lstrip_app (x r : list ascii) :
  forallb is_space r = true ->
  lstrip (x ++ r) = if forallb is_space x then [] else (lstrip x ++ r)%list.
Proof.
  intros Hr. induction x as [|c x IH]; simpl.
  - now apply lstrip_all_spaces.
  - destruct (is_space c); simpl; [exact IH|reflexivity].
Qed.

Lemma forallb_rev {A} (f : A -> bool) (l : list A) :
  forallb f (rev l) = forallb f l.
Proof.
  induction l as [|a l IH]; simpl; [reflexivity|].
  rewrite forallb_app, IH. simpl. rewrite andb_true_r. apply andb_comm.
Qed.

Lemma strip_pad (l r x : list ascii) :
  forallb is_space l = true -> forallb is_space r = true ->
  strip (l ++ x ++ r) = strip x.
Proof.
  intros Hl Hr. unfold strip. rewrite lstrip_spaces by assumption.
  rewrite lstrip_app by assumption.
  destruct (forallb is_space x) eqn:Hx.
  - now rewrite (lstrip_all_spaces x Hx).
  - rewrite rev_app_distr, lstrip_spaces; [reflexivity|].
    now rewrite forallb_rev.
Qed.

Lemma int_of_string_pad (l r : list ascii) (s : string) :
  forallb is_space l = true -> forallb is_space r = true ->
  int_of_string (pad l r s) = int_of_string s.
Proof.
  intros Hl Hr. unfold int_of_string, pad.
  now rewrite list_ascii_of_string_of_list_ascii, strip_pad.
Qed.

Lemma float_of_string_pad (l r : list ascii) (s : string) :
  forallb is_space l = true -> forallb is_space r = true ->
  float_of_string (pad l r s) = float_of_string s.
Proof.
  intros Hl Hr. unfold float_of_string, pad.
  now rewrite list_ascii_of_string_of_list_ascii, strip_pad.
Qed.

Lemma lookup_env_insert (dotenv penv : environ) (key k v : string) :
  load_dotenv dotenv (<[key := v]> penv) !! k =
  if decide (k = key) then Some v else load_dotenv dotenv penv !! k.
Proof.
  unfold load_dotenv. destruct (decide (k = key)) as [->|Hk].
  - apply lookup_union_Some_l. apply lookup_insert_eq.
  - rewrite !lookup_union, lookup_insert_ne by congruence. reflexivity.
Qed.

Lemma getenv_insert (dotenv penv : environ) (key k v : string) (dflt : value) :
  getenv (load_dotenv dotenv (<[key := v]> penv)) k dflt =
  if decide (k = key) then VStr v else getenv (load_dotenv dotenv penv) k dflt.
Proof.
  unfold getenv. rewrite lookup_env_insert. destruct (decide (k = key)); reflexivity.
Qed.

(** X9.  Whitespace around the value of one of the four numeric
    variables is ignored: the run behaves as if the value had been
    given without it. *)
Theorem numeric_variables_ignore_surrounding_whitespace
    (dotenv penv : environ) (key : string) (l r : list ascii) (s : string) :
  In key numeric_keys ->
  forallb is_space l = true -> forallb is_space r = true ->
  load dotenv (<[key := pad l r s]> penv) = load dotenv (<[key := s]> penv).
Proof.
  intros Hin Hl Hr.
  pose proof (float_of_string_pad l r s Hl Hr) as Hf.
  pose proof (int_of_string_pad l r s Hl Hr) as Hi.
  unfold load. rewrite !getenv_insert.
  simpl in Hin. destruct Hin as [<-|[<-|[<-|[<-|[]]]]];
    repeat (destruct (decide _) as [?|?]; try discriminate; try congruence);
    cbn [py_float py_int]; rewrite ?Hf, ?Hi; reflexivity.
Qed.

Lemma numeric_variables_ignore_surrounding_whitespace_witness :
  load ∅ (<["STASIS_MAX_HOURS" := pad [" "%char] ["010"%char] "48"]> ∅)
  = load ∅ (<["STASIS_MAX_HOURS" := "48"]> ∅).
Proof.
  apply (numeric_variables_ignore_surrounding_whitespace ∅ ∅ "STASIS_MAX_HOURS"
           [" "%char] ["010"%char] "48").
  - simpl. auto.
  - reflexivity.
  - reflexivity.
Defined.

Lemma digits_tail_digits (ds : list ascii) :
  forallb is_digit ds = true -> digits_tail ds = (ds, []).
Proof.
  induction ds as [|c ds IH]; simpl; [reflexivity|].
  intros H. apply andb_true_iff in H as [-> H]. now rewrite (IH H).
Qed.

Lemma digits_tail_sound (n : nat) :
  forall s ds rest, (length s <= n)%nat ->
    digits_tail s = (ds, rest) -> forallb is_digit ds = true.
Proof.
  induction n as [|n IH]; intros s ds rest Hn.
  - destruct s; [|simpl in Hn; lia]. simpl. now intros [= <- <-].
  - destruct s as [|c r]; simpl; [now intros [= <- <-]|]. simpl in Hn.
    destruct (is_digit c) eqn:Hc.
    + destruct (digits_tail r) as [ds' rest'] eqn:E. intros [= <- <-]. simpl.
      rewrite Hc. eapply (IH r); [lia|eassumption].
    + destruct (is_char "_" c); [|now intros [= <- <-]].
      destruct r as [|d r']; [now intros [= <- <-]|].
      destruct (is_digit d) eqn:Hd; [|now intros [= <- <-]].
      destruct (digits_tail r') as [ds' rest'] eqn:E. intros [= <- <-]. simpl.
      rewrite Hd. eapply (IH r'); [simpl in Hn; lia|eassumption].
Qed.

Lemma digitpart_sound (s ds rest : list ascii) :
  digitpart s = Some (ds, rest) ->
  forallb is_digit ds = true /\ exists c ds', ds = c :: ds' /\
    exists r, s = c :: r /\ is_digit c = true.
Proof.
  unfold digitpart. destruct s as [|c r]; [discriminate|].
  destruct (is_digit c) eqn:Hc; [|discriminate].
  destruct (digits_tail r) as [ds' rest'] eqn:E. intros [= <- <-]. split.
  - simpl. rewrite Hc. eapply (digits_tail_sound (length r) r); [lia|eassumption].
  - eauto 8.
Qed.

Lemma digit_value_bounds (c : ascii) : is_digit c = true -> 0 <= digit_value c <= 9.
Proof.
  unfold is_digit, digit_value. cbv zeta. intros H.
  apply andb_true_iff in H as [H1 H2]. apply Z.leb_le in H1, H2. lia.
Qed.

Lemma digits_value_acc (ds : list ascii) (acc : Z) :
  forallb is_digit ds = true -> 0 <= acc ->
  0 <= fold_left (fun a c => 10 * a + digit_value c) ds acc.
Proof.
  revert acc. induction ds as [|c ds IH]; intros acc; simpl; [auto|].
  intros H Ha. apply andb_true_iff in H as [Hc H].
  apply IH; [assumption|]. pose proof (digit_value_bounds c Hc). lia.
Qed.

Lemma digits_value_nonneg (ds : list ascii) :
  forallb is_digit ds = true -> 0 <= digits_value ds.
Proof. intros H. apply digits_value_acc; [assumption|lia]. Qed.

Lemma digit_is_no_letter (c : ascii) :
  is_digit c = true ->
  Ascii.eqb (lower c) "i" = false /\ Ascii.eqb (lower c) "n" = false.
Proof.
  destruct c as [[] [] [] [] [] [] [] []]; vm_compute; intros H;
    first [discriminate H | split; reflexivity].
Qed.

Lemma int_literal_as_float (s : string) (z : Z) :
  int_of_string s = Some z ->
  exists neg m, z = cond_Zopp neg m /\ 0 <= m /\
    float_of_string s = Some (double_of_decimal neg m 0).
Proof.
  unfold int_of_string, float_of_string.
  destruct (sign (strip (list_ascii_of_string s))) as [neg body].
  destruct (digitpart body) as [[ds rest]|] eqn:D; [|discriminate].
  destruct rest; [|discriminate]. intros [= <-].
  destruct (digitpart_sound _ _ _ D) as (Hds & c & ds' & -> & r & -> & Hc).
  exists neg, (digits_value (c :: ds')). split; [reflexivity|].
  split; [now apply digits_value_nonneg|].
  destruct (digit_is_no_letter c Hc) as [Hi Hn].
  simpl map. simpl string_of_list_ascii.
  cbn [String.eqb]. rewrite Hi, Hn. cbn [orb].
  unfold mantissa. rewrite D. cbn [exponent]. rewrite app_nil_r. reflexivity.
Qed.

(** X10.  A string that [int] accepts is accepted by every numeric
    variable.  Read by [float] it gives the float of that integer (equal
    as floats: ["-0"] gives [-0.0]); where [float] of the integer itself
    would raise [OverflowError], the string gives an infinity of the
    integer's sign instead. *)
Theorem integer_literal_in_a_float_variable (s : string) (z : Z) :
  int_of_string s = Some z ->
  (forall key, coercible key s = true) /\
  exists f, py_float (VStr s) = Returned f /\
    match py_float (VInt z) with
    | Returned g => feqb f g = true
    | Raised e => e = OverflowError /\ overflow_threshold <= Z.abs z /\
                  f = S754_infinity (z <? 0)%Z
    end.
Proof.
  intros H. destruct (int_literal_as_float s z H) as (neg & m & -> & Hm & F).
  assert (P : exists f, py_float (VStr s) = Returned f /\
    match py_float (VInt (cond_Zopp neg m)) with
    | Returned g => feqb f g = true
    | Raised e => e = OverflowError /\ overflow_threshold <= Z.abs (cond_Zopp neg m) /\
                  f = S754_infinity (cond_Zopp neg m <? 0)%Z
    end).
  { cbn [py_float as_double]. rewrite F. eexists. split; [reflexivity|].
    unfold double_of_decimal.
    destruct m as [|p|p]; [|clear Hm|lia].
    - destruct neg; vm_compute; reflexivity.
    - cbn [Z.leb Z.compare]. change (10 ^ 0) with 1. rewrite Z.mul_1_r.
      set (z := cond_Zopp neg (Z.pos p)).
      destruct (of_int z) as [g|] eqn:G.
      + unfold of_int in G.
        assert (g = binary_normalize prec emax z 0 false) as <-.
        { destruct (binary_normalize prec emax z 0 false); congruence. }
        destruct (of_int_rounded z g) as (_ & _ & Fin).
        { unfold of_int. destruct (binary_normalize prec emax z 0 false); congruence. }
        apply feqb_refl. intros ->. discriminate.
      + split; [reflexivity|]. split; [now apply of_int_None_iff|].
        unfold of_int in G. rewrite binary_normalize_units in * by lia.
        change (0 + 1074) with 1074 in *.
        assert (HV : z * 2 ^ 1074 <> 0).
        { assert (0 < 2 ^ 1074) by (apply Z.pow_pos_nonneg; lia).
          subst z. destruct neg; simpl; lia. }
        destruct (rounded_spec _ HV) as (_ & _ & [[_ E]|(_ & _ & Fin & _)]).
        * rewrite E. f_equal.
          assert (0 < 2 ^ 1074) by (apply Z.pow_pos_nonneg; lia).
          destruct (Z.ltb_spec (z * 2 ^ 1074) 0), (Z.ltb_spec z 0); auto; nia.
        * destruct (rounded (z * 2 ^ 1074)); try discriminate. }
  split; [|exact P]. intros key. unfold coercible.
  destruct P as (f & -> & _). cbn [py_int]. rewrite H.
  destruct (String.eqb key "STASIS_MAX_HOURS"); reflexivity.
Qed.

Lemma integer_literal_in_a_float_variable_witness :
  coercible "STASIS_FILL_RATE" " +3_600 " = true.
Proof.
  refine (proj1 (integer_literal_in_a_float_variable " +3_600 " 3600 _)
            "STASIS_FILL_RATE").
  vm_compute. reflexivity.
Defined.

Ltac digit_arith :=
  unfold digit_value;
  match goal with
  | |- context [Z.of_nat (nat_of_ascii ?c)] =>
      let v := eval vm_compute in (Z.of_nat (nat_of_ascii c)) in
      change (Z.of_nat (nat_of_ascii c)) with v
  end;
  rewrite ?Pos2Z.inj_add, ?Pos2Z.inj_mul; lia.

Lemma uint_chars_digits (d : Decimal.uint) :
  forallb is_digit
    (list_ascii_of_string (DecimalString.NilEmpty.string_of_uint d)) = true.
Proof. induction d; simpl; auto. Qed.

Lemma of_uint_acc_fold (d : Decimal.uint) (acc : positive) :
  Z.pos (Pos.of_uint_acc d acc) =
  fold_left (fun a c => 10 * a + digit_value c)
    (list_ascii_of_string (DecimalString.NilEmpty.string_of_uint d)) (Z.pos acc).
Proof.
  revert acc. induction d; intros acc; cbn [Pos.of_uint_acc DecimalString.NilEmpty.string_of_uint list_ascii_of_string fold_left];
    [reflexivity|rewrite IHd; f_equal; digit_arith..].
Qed.

Lemma of_uint_fold (d : Decimal.uint) :
  Z.of_uint d =
  digits_value (list_ascii_of_string (DecimalString.NilEmpty.string_of_uint d)).
Proof.
  unfold Z.of_uint, digits_value.
  induction d; cbn [Pos.of_uint DecimalString.NilEmpty.string_of_uint list_ascii_of_string fold_left Z.of_N];
    [reflexivity|exact IHd|rewrite of_uint_acc_fold; reflexivity..].
Qed.

Lemma lstrip_digit (c : ascii) (r : list ascii) :
  is_digit c = true -> lstrip (c :: r) = c :: r.
Proof.
  intros H. simpl. replace (is_space c) with false; [reflexivity|].
  revert H. destruct c as [[] [] [] [] [] [] [] []]; vm_compute; congruence.
Qed.

Lemma strip_digits (pre ds : list ascii) :
  forallb is_digit ds = true -> ds <> [] ->
  (forall c, head (pre ++ ds) = Some c -> is_space c = false) ->
  strip (pre ++ ds) = (pre ++ ds)%list.
Proof.
  intros Hd Hne Hh. unfold strip.
  assert (L1 : lstrip (pre ++ ds) = (pre ++ ds)%list).
  { destruct (pre ++ ds)%list as [|c r] eqn:E; [reflexivity|].
    simpl. now rewrite (Hh c eq_refl). }
  rewrite L1.
  destruct (rev ds) as [|c r] eqn:E.
  { apply (f_equal (@rev _)) in E. rewrite rev_involutive in E. contradiction. }
  assert (Hc : is_digit c = true).
  { rewrite <- forallb_rev, E in Hd. simpl in Hd. now apply andb_true_iff in Hd as [? _]. }
  rewrite rev_app_distr, E. rewrite <- app_comm_cons, (lstrip_digit c _ Hc).
  rewrite app_comm_cons, <- E, <- rev_app_distr. apply rev_involutive.
Qed.

Lemma uint_chars_nonempty (d : Decimal.uint) :
  d <> Decimal.Nil ->
  list_ascii_of_string (DecimalString.NilEmpty.string_of_uint d) <> [].
Proof. destruct d; simpl; congruence. Qed.

Lemma digitpart_digits (ds : list ascii) :
  forallb is_digit ds = true -> ds <> [] -> digitpart ds = Some (ds, []).
Proof.
  destruct ds as [|c r]; [congruence|]. simpl. intros H _.
  apply andb_true_iff in H as [-> H]. now rewrite digits_tail_digits.
Qed.

Lemma int_of_string_uint (neg : bool) (d : Decimal.uint) :
  d <> Decimal.Nil ->
  int_of_string ((if neg then "-" else EmptyString)
                 ++ DecimalString.NilEmpty.string_of_uint d)
  = Some (cond_Zopp neg (Z.of_uint d)).
Proof.
  intros Hd. unfold int_of_string.
  set (ds := list_ascii_of_string (DecimalString.NilEmpty.string_of_uint d)).
  pose proof (uint_chars_digits d) as Hds. fold ds in Hds.
  pose proof (uint_chars_nonempty d Hd) as Hne. fold ds in Hne.
  assert (E : list_ascii_of_string ((if neg then "-" else EmptyString)
                 ++ DecimalString.NilEmpty.string_of_uint d)
              = ((if neg then ["-"%char] else []) ++ ds)%list).
  { destruct neg; reflexivity. }
  rewrite E, strip_digits; auto.
  - rewrite of_uint_fold. fold ds.
    destruct neg; simpl app.
    + cbn [sign]. change (is_char "-" "-") with true. cbv iota.
      now rewrite digitpart_digits.
    + destruct ds as [|c r] eqn:Eds; [congruence|].
      pose proof Hds as Hc. simpl in Hc. apply andb_true_iff in Hc as [Hc _].
      assert (S : sign (c :: r) = (false, c :: r)).
      { unfold sign. revert Hc.
        destruct c as [[] [] [] [] [] [] [] []]; vm_compute; congruence. }
      rewrite S. now rewrite digitpart_digits.
  - destruct neg; simpl.
    + intros c [= <-]. reflexivity.
    + destruct ds as [|c r]; [congruence|]. simpl. intros c' [= <-].
      simpl in Hds. apply andb_true_iff in Hds as [Hc _]. revert Hc.
      destruct c as [[] [] [] [] [] [] [] []]; vm_compute; congruence.
Qed.

Lemma string_of_uint_nonnil (d : Decimal.uint) :
  d <> Decimal.Nil ->
  DecimalString.NilZero.string_of_uint d = DecimalString.NilEmpty.string_of_uint d.
Proof. destruct d; [congruence|reflexivity..]. Qed.

Lemma int_of_string_str_int (z : Z) : int_of_string (str_int z) = Some z.
Proof.
  unfold str_int. destruct z as [|p|p]; [reflexivity| |];
    cbn [Z.to_int DecimalString.NilZero.string_of_int];
    pose proof (DecimalPos.Unsigned.to_uint_nonnil p) as Hn;
    rewrite (string_of_uint_nonnil _ Hn).
  - etrans; [exact (int_of_string_uint false _ Hn)|].
    unfold Z.of_uint. now rewrite DecimalPos.Unsigned.of_to.
  - etrans; [exact (int_of_string_uint true _ Hn)|].
    unfold Z.of_uint. now rewrite DecimalPos.Unsigned.of_to.
Qed.

(** X11.  The text [banner()] prints for [STASIS_MAX_HOURS], set as
    the value of that variable, is read back as the same constant, all
    other constants unchanged (for integers within the range CPython
    converts to and from text by default, 4300 digits). *)
Theorem printed_hours_reload (repr : float -> string) (dotenv penv : environ)
    (c : config) :
  load dotenv penv = Returned c ->
  Z.abs (STASIS_MAX_HOURS c) < 10 ^ 4300 ->
  load dotenv (<["STASIS_MAX_HOURS" := format repr (VInt (STASIS_MAX_HOURS c))]> penv)
  = Returned c.
Proof.
  intros L _. revert L. cbn [format]. unfold load. rewrite !getenv_insert.
  repeat (destruct (decide _) as [?|?]; try discriminate; try congruence).
  destruct (py_float (getenv _ "CENTURY_REAL_SEC" _)); [|discriminate].
  destruct (py_float (getenv _ "BURST_CAP_PER_HOUR" _)); [|discriminate].
  destruct (py_float (getenv _ "STASIS_FILL_RATE" _)); [|discriminate].
  destruct (py_int (getenv _ "STASIS_MAX_HOURS" _)); [|discriminate].
  cbn [bind]. intros [= <-]. cbn [STASIS_MAX_HOURS py_int].
  rewrite int_of_string_str_int. reflexivity.
Qed.

Lemma printed_hours_reload_witness :
  load ∅ (<["STASIS_MAX_HOURS" :=
              format (fun _ => "?") (VInt (STASIS_MAX_HOURS defaults))]>
            {[ "HOME" := "/root" ]})
  = Returned defaults.
Proof.
  apply (printed_hours_reload (fun _ => "?") ∅ {[ "HOME" := "/root" ]} defaults).
  - vm_compute. reflexivity.
  - vm_compute. reflexivity.
Defined.

End EnvironmentRead.

(** ** The tree the bootstrap leaves *)

Section Tree.
Local Open Scope string_scope.
Implicit Types (fs : filesystem) (cwd cur : list string) (p : Path).

Lemma walk_raises fs cur comps e :
  walk fs cur comps = Raised e -> e = FileNotFoundError \/ e = NotADirectoryError.
Proof.
  revert cur. induction comps as [|c comps IH]; intros cur; simpl; [discriminate|].
  destruct (String.eqb c ".."); [apply IH|].
  destruct (node_at fs (cur ++ [c])) as [[]|]; [apply IH| |]; intros [= <-]; auto.
Qed.

Lemma os_mkdir_raises cwd p fs e :
  os_mkdir cwd p fs = Raised e ->
  e = FileExistsError \/
  ((e = FileNotFoundError \/ e = NotADirectoryError) /\ is_dir cwd p fs = false /\
   exists name rp, rparts p = name :: rp /\
                   walk fs (origin cwd p) (rev rp) = Raised e).
Proof.
  unfold os_mkdir, is_dir. destruct p as [anch [|name rp]]; simpl.
  - intros [= <-]. auto.
  - set (o := origin cwd _). rewrite walk_app.
    destruct (walk fs o (rev rp)) as [dir|e'] eqn:W; simpl.
    + destruct (String.eqb name ".."); [intros [= <-]; auto|].
      destruct (node_at fs (dir ++ [name])); [intros [= <-]; auto|discriminate].
    + intros [= <-]. right. split; [exact (walk_raises _ _ _ _ W)|].
      split; [reflexivity|]. eauto.
Qed.

(** What [os.mkdir] adds is one directory, at a place where nothing was. *)
Lemma os_mkdir_adds cwd p fs fs' :
  os_mkdir cwd p fs = Returned fs' ->
  exists name rp dir,
    rparts p = name :: rp /\ walk fs (origin cwd p) (rev rp) = Returned dir /\
    fs !! (dir ++ [name])%list = None /\ fs' = <[(dir ++ [name])%list := Dir]> fs.
Proof.
  unfold os_mkdir. destruct p as [anch [|name rp]]; simpl; [discriminate|].
  set (o := origin cwd _).
  destruct (walk fs o (rev rp)) as [dir|e] eqn:W; simpl; [|discriminate].
  destruct (String.eqb name ".."); [discriminate|].
  destruct (node_at fs (dir ++ [name])) eqn:L; [discriminate|].
  intros [= <-]. exists name, rp, dir. repeat split; auto.
  destruct (dir ++ [name])%list eqn:E; [destruct dir; discriminate|exact L].
Qed.

Lemma only_dirs_added_refl fs : only_dirs_added fs fs.
Proof. split; [reflexivity|]. intros k n H1 H2. congruence. Qed.

Lemma only_dirs_added_trans fs1 fs2 fs3 :
  only_dirs_added fs1 fs2 -> only_dirs_added fs2 fs3 -> only_dirs_added fs1 fs3.
Proof.
  intros [S1 D1] [S2 D2]. split; [etrans; eassumption|].
  intros k n H3 H1. destruct (fs2 !! k) as [m|] eqn:E2.
  - assert (fs3 !! k = Some m) by (eapply lookup_weaken; eassumption).
    assert (n = m) as -> by congruence. eapply D1; eassumption.
  - eapply D2; eassumption.
Qed.

Lemma os_mkdir_only_dirs cwd p fs fs' :
  os_mkdir cwd p fs = Returned fs' -> only_dirs_added fs fs'.
Proof.
  intros H. destruct (os_mkdir_adds _ _ _ _ H) as (name & rp & dir & _ & _ & N & ->).
  split; [now apply insert_subseteq|].
  intros k n. destruct (decide (k = (dir ++ [name])%list)) as [->|Hk].
  - rewrite lookup_insert_eq. congruence.
  - rewrite lookup_insert_ne by congruence. congruence.
Qed.

Lemma mkdir_single_only_dirs ok cwd p fs :
  only_dirs_added fs (fst (mkdir_single ok cwd p fs)).
Proof.
  unfold mkdir_single. destruct (os_mkdir cwd p fs) as [fs1|e] eqn:E.
  - simpl. eapply os_mkdir_only_dirs; eassumption.
  - destruct e; try destruct (ok && is_dir cwd p fs); apply only_dirs_added_refl.
Qed.

Lemma mkdir_parents_only_dirs ok cwd anch rp fs :
  only_dirs_added fs (fst (mkdir_parents ok cwd anch rp fs)).
Proof.
  revert ok fs. induction rp as [|name rp IH]; intros ok fs; simpl.
  - unfold os_mkdir. simpl. destruct (ok && _); apply only_dirs_added_refl.
  - destruct (os_mkdir cwd (mkPath anch (name :: rp)) fs) as [fs1|e] eqn:E.
    + simpl. eapply os_mkdir_only_dirs; eassumption.
    + destruct e;
        try (destruct (ok && is_dir cwd (mkPath anch (name :: rp)) fs);
             apply only_dirs_added_refl).
      unfold seq. pose proof (IH true fs) as H1.
      destruct (mkdir_parents true cwd anch rp fs) as [fs1 [[]|e1]]; simpl in *.
      * eapply only_dirs_added_trans; [exact H1|]. apply mkdir_single_only_dirs.
      * exact H1.
Qed.

Lemma Path_mkdir_only_dirs cwd p fs :
  only_dirs_added fs (fst (Path_mkdir true true cwd p fs)).
Proof. unfold Path_mkdir. apply mkdir_parents_only_dirs. Qed.

(** X12.  Whether it returns or raises, [ensure_dirs()] removes
    nothing and changes nothing that existed: whatever is new
    afterwards is a directory.  What it created before failing stays. *)
Theorem ensure_dirs_only_adds_directories (c : config) cwd fs :
  fs ⊆ fst (ensure_dirs c cwd fs) /\
  forall k n, fst (ensure_dirs c cwd fs) !! k = Some n -> fs !! k = None -> n = Dir.
Proof.
  change (only_dirs_added fs (fst (ensure_dirs c cwd fs))).
  unfold ensure_dirs, seq.
  destruct (Path_new (VFS_PATH c)) as [vfs|e1]; [|apply only_dirs_added_refl].
  pose proof (Path_mkdir_only_dirs cwd vfs fs) as H1.
  destruct (Path_mkdir true true cwd vfs fs) as [fs1 [[]|e2]]; simpl in H1; [|exact H1].
  destruct (Path_new (LOG_PATH c)) as [logs|e3]; [|exact H1].
  eapply only_dirs_added_trans; [exact H1|]. apply Path_mkdir_only_dirs.
Qed.

Lemma is_dir_parent_false cwd anch name rp fs :
  is_dir cwd (mkPath anch rp) fs = false ->
  is_dir cwd (mkPath anch (name :: rp)) fs = false.
Proof.
  intros H. destruct (is_dir cwd (mkPath anch (name :: rp)) fs) eqn:E; [|reflexivity].
  apply is_dir_parent in E. congruence.
Qed.

Lemma mkdir_single_raised cwd p fs fs' e :
  mkdir_single true cwd p fs = (fs', Raised e) ->
  fs' = fs /\ is_dir cwd p fs = false /\
  (e = FileExistsError \/ e = NotADirectoryError \/
   (e = FileNotFoundError /\ exists name rp, rparts p = name :: rp /\
      is_dir cwd (mkPath (anchored p) rp) fs = false)).
Proof.
  unfold mkdir_single.
  destruct (os_mkdir cwd p fs) as [fs1|e0] eqn:E; [discriminate|].
  destruct (os_mkdir_raises _ _ _ _ E) as [->|([->| ->] & D & name & rp & Hp & W)].
  - simpl. destruct (is_dir cwd p fs) eqn:D; [discriminate|]. intros [= <- <-]. auto.
  - intros [= <- <-]. repeat split; auto. right. right. split; [reflexivity|].
    exists name, rp. split; [assumption|]. unfold is_dir, origin in *. simpl.
    now rewrite W.
  - simpl. rewrite D. intros [= <- <-]. auto.
Qed.

Lemma mkdir_parents_raised cwd anch rp fs fs' e :
  mkdir_parents true cwd anch rp fs = (fs', Raised e) ->
  (e = FileExistsError \/ e = NotADirectoryError) /\
  is_dir cwd (mkPath anch rp) fs' = false.
Proof.
  revert fs fs' e. induction rp as [|name rp IH]; intros fs fs' e; simpl.
  - unfold os_mkdir, is_dir. simpl. discriminate.
  - destruct (os_mkdir cwd (mkPath anch (name :: rp)) fs) as [fs1|e0] eqn:E;
      [discriminate|].
    destruct (os_mkdir_raises _ _ _ _ E) as [->|([->| ->] & D & _)].
    + simpl. destruct (is_dir cwd (mkPath anch (name :: rp)) fs) eqn:D; [discriminate|].
      intros [= <- <-]. auto.
    + unfold seq.
      destruct (mkdir_parents true cwd anch rp fs) as [fs1 [[]|e1]] eqn:P.
      * intros Hs. destruct (mkdir_single_raised _ _ _ _ _ Hs) as (-> & D1 & He).
        split; [|exact D1].
        destruct He as [->|[->|(-> & name' & rp' & Hp & Dp)]]; auto.
        simpl in Hp. injection Hp as <- <-. simpl in Dp.
        destruct (mkdir_parents_spec _ _ _ _ _ _ P) as [_ Dok].
        rewrite (Dok eq_refl) in Dp. discriminate.
      * intros [= <- <-]. destruct (IH _ _ _ P) as [He Dp].
        split; [exact He|]. now apply is_dir_parent_false.
    + simpl. rewrite D. intros [= <- <-]. auto.
Qed.

Lemma Path_mkdir_raised cwd p fs fs' e :
  Path_mkdir true true cwd p fs = (fs', Raised e) ->
  (e = FileExistsError \/ e = NotADirectoryError) /\ is_dir cwd p fs' = false.
Proof. unfold Path_mkdir. destruct p as [anch rp]. apply mkdir_parents_raised. Qed.

(** X13.  [ensure_dirs()] returns exactly when both paths are
    directories afterwards; when it raises, one of them is not. *)
Theorem ensure_dirs_returns_iff_directories_exist (c : config) cwd fs vfs logs :
  Path_new (VFS_PATH c) = Returned vfs ->
  Path_new (LOG_PATH c) = Returned logs ->
  (snd (ensure_dirs c cwd fs) = Returned tt <->
   is_dir cwd vfs (fst (ensure_dirs c cwd fs))
   && is_dir cwd logs (fst (ensure_dirs c cwd fs)) = true).
Proof.
  intros Hv Hl. unfold ensure_dirs, seq. rewrite Hv.
  destruct (Path_mkdir true true cwd vfs fs) as [fs1 [[]|e1]] eqn:M1.
  - rewrite Hl.
    destruct (Path_mkdir_spec _ _ _ _ M1) as [_ D1].
    destruct (Path_mkdir true true cwd logs fs1) as [fs2 [[]|e2]] eqn:M2; simpl.
    + destruct (Path_mkdir_spec _ _ _ _ M2) as [S2 D2].
      rewrite (is_dir_mono _ _ _ _ S2 D1), D2. tauto.
    + destruct (Path_mkdir_raised _ _ _ _ _ M2) as [_ D2]. rewrite D2, andb_false_r.
      split; discriminate.
  - simpl. destruct (Path_mkdir_raised _ _ _ _ _ M1) as [_ D1]. rewrite D1.
    split; discriminate.
Qed.

Lemma ensure_dirs_returns_iff_directories_exist_witness :
  snd (ensure_dirs defaults ["home"; "u"] {[ ["home"; "u"; "logs"] := File ]})
    = Returned tt <->
  is_dir ["home"; "u"] (path_of_string "./vfs")
    (fst (ensure_dirs defaults ["home"; "u"] {[ ["home"; "u"; "logs"] := File ]}))
  && is_dir ["home"; "u"] (path_of_string "./logs")
    (fst (ensure_dirs defaults ["home"; "u"] {[ ["home"; "u"; "logs"] := File ]})) = true.
Proof.
  apply (ensure_dirs_returns_iff_directories_exist defaults ["home"; "u"]
           {[ ["home"; "u"; "logs"] := File ]}); reflexivity.
Defined.

Lemma walk_plain fs cur comps r :
  forallb (fun c => negb (String.eqb c "..")) comps = true ->
  walk fs cur comps = Returned r -> r = (cur ++ comps)%list.
Proof.
  revert cur. induction comps as [|c comps IH]; intros cur; simpl.
  - intros _ [= <-]. now rewrite app_nil_r.
  - intros H. apply andb_true_iff in H as [Hc H].
    apply negb_true_iff in Hc. rewrite Hc.
    destruct (node_at fs (cur ++ [c])) as [[]|]; try discriminate.
    intros W. rewrite (IH _ H W), <- app_assoc. reflexivity.
Qed.

Lemma plain_rev (rp : list string) :
  forallb (fun c => negb (String.eqb c "..")) rp = true ->
  forallb (fun c => negb (String.eqb c "..")) (rev rp) = true.
Proof.
  rewrite !forallb_forall. intros H x Hx. apply H. now apply in_rev.
Qed.

Lemma chain_nonempty base rp k : k ∈ chain base rp -> k <> [].
Proof.
  induction rp as [|name rp IH]; simpl.
  - intros H. inversion H.
  - rewrite elem_of_app, list_elem_of_singleton. intros [H| ->]; [auto|].
    destruct base; simpl; [|discriminate]. destruct (rev rp); discriminate.
Qed.

Lemma node_at_lookup fs k : k <> [] -> node_at fs k = fs !! k.
Proof. destruct k; [congruence|reflexivity]. Qed.

(** On a path free of [..], a directory has all its ancestors as
    directories. *)
Lemma is_dir_chain cwd anch rp fs k :
  forallb (fun c => negb (String.eqb c "..")) rp = true ->
  is_dir cwd (mkPath anch rp) fs = true ->
  k ∈ chain (origin cwd (mkPath anch rp)) rp -> node_at fs k = Some Dir.
Proof.
  unfold origin. simpl anchored. set (base := if anch then [] else cwd).
  induction rp as [|name rp IH]; simpl.
  - intros _ _ H. inversion H.
  - intros Hp D. apply andb_true_iff in Hp as [Hn Hp].
    rewrite elem_of_app, list_elem_of_singleton. intros [H| ->].
    + apply IH; auto. now apply is_dir_parent in D.
    + revert D. unfold is_dir, origin. simpl. fold base. rewrite walk_app.
      destruct (walk fs base (rev rp)) as [dir|e] eqn:W; simpl; [|discriminate].
      apply (walk_plain _ _ _ _ (plain_rev _ Hp)) in W. subst dir.
      apply negb_true_iff in Hn. rewrite Hn. rewrite <- app_assoc.
      destruct (node_at fs (base ++ rev rp ++ [name])) as [[]|]; auto; discriminate.
Qed.

(** What [mkdir(parents=True)] adds on a path free of [..] lies on the
    path. *)
Lemma os_mkdir_within cwd anch rp fs fs' k n :
  forallb (fun c => negb (String.eqb c "..")) rp = true ->
  os_mkdir cwd (mkPath anch rp) fs = Returned fs' ->
  fs' !! k = Some n ->
  fs !! k = Some n \/ k ∈ chain (origin cwd (mkPath anch rp)) rp.
Proof.
  intros Hp H. destruct (os_mkdir_adds _ _ _ _ H) as (name & rp' & dir & Hrp & W & _ & ->).
  simpl in Hrp. subst rp. simpl in Hp. apply andb_true_iff in Hp as [_ Hp].
  apply (walk_plain _ _ _ _ (plain_rev _ Hp)) in W. subst dir.
  destruct (decide (k = ((origin cwd (mkPath anch (name :: rp')) ++ rev rp') ++ [name])%list))
    as [->|Hk].
  - intros _. right. simpl. rewrite elem_of_app, list_elem_of_singleton. right.
    now rewrite <- app_assoc.
  - rewrite lookup_insert_ne by congruence. auto.
Qed.

Lemma mkdir_parents_within ok cwd anch rp fs k n :
  forallb (fun c => negb (String.eqb c "..")) rp = true ->
  fst (mkdir_parents ok cwd anch rp fs) !! k = Some n ->
  fs !! k = Some n \/ k ∈ chain (origin cwd (mkPath anch rp)) rp.
Proof.
  change (origin cwd (mkPath anch rp)) with (if anch then [] else cwd).
  set (base := if anch then [] else cwd).
  revert ok fs. induction rp as [|name rp IH]; intros ok fs Hp.
  - simpl. unfold os_mkdir. simpl. destruct (ok && _); simpl; auto.
  - pose proof Hp as Hp'. simpl in Hp'. apply andb_true_iff in Hp' as [Hn Hp'].
    simpl mkdir_parents.
    destruct (os_mkdir cwd (mkPath anch (name :: rp)) fs) as [fs1|e0] eqn:E.
    + simpl fst. apply (os_mkdir_within cwd anch (name :: rp) fs fs1 k n Hp E).
    + destruct e0;
        try (destruct (ok && is_dir cwd (mkPath anch (name :: rp)) fs); simpl; solve [auto]).
      unfold seq. pose proof (IH true fs Hp') as H1.
      destruct (mkdir_parents true cwd anch rp fs) as [fs1 [[]|e1]]; simpl fst in *.
      * unfold mkdir_single.
        destruct (os_mkdir cwd (mkPath anch (name :: rp)) fs1) as [fs2|e2] eqn:E2.
        -- simpl fst. intros H2.
           destruct (os_mkdir_within cwd anch (name :: rp) fs1 fs2 k n Hp E2 H2) as [H|H];
             [|now right].
           destruct (H1 H) as [?|?]; [now left|].
           right. simpl. rewrite elem_of_app. now left.
        -- assert (Hsame : forall o : filesystem * outcome unit, fst o = fs1 ->
                     fst o !! k = Some n -> fs !! k = Some n \/ k ∈ chain base (name :: rp)).
           { intros o -> H. destruct (H1 H) as [?|?]; [now left|].
             right. simpl. rewrite elem_of_app. now left. }
           destruct e2; try destruct (ok && is_dir cwd (mkPath anch (name :: rp)) fs1);
             apply Hsame; reflexivity.
      * intros H. destruct (H1 H) as [?|?]; [now left|].
        right. simpl. rewrite elem_of_app. now left.
Qed.

Lemma not_blocked_spec fs (l : list (list string)) :
  forallb (fun k => negb (is_file fs k)) l = true <->
  forall k, k ∈ l -> node_at fs k <> Some File.
Proof.
  rewrite forallb_forall. unfold is_file. split; intros H k Hk.
  - apply list_elem_of_In in Hk. specialize (H k Hk).
    destruct (node_at fs k) as [[]|]; simpl in H; congruence.
  - apply list_elem_of_In in Hk. specialize (H k Hk).
    destruct (node_at fs k) as [[]|]; simpl; congruence.
Qed.

(** X15.  For paths without [..] components: when [ensure_dirs()]
    returns, no regular file sat at either path or at one of their
    ancestors below the starting directory (a regular file there makes
    it raise), and the file system is the one before with a directory
    at each of those places that was empty, and nothing else. *)
Theorem ensure_dirs_on_plain_paths (c : config) cwd fs vfs logs :
  Path_new (VFS_PATH c) = Returned vfs ->
  Path_new (LOG_PATH c) = Returned logs ->
  plain vfs = true -> plain logs = true ->
  snd (ensure_dirs c cwd fs) = Returned tt ->
  forallb (fun k => negb (is_file fs k)) (wanted cwd vfs ++ wanted cwd logs)%list = true /\
  forall k, fst (ensure_dirs c cwd fs) !! k =
    match fs !! k with
    | Some n => Some n
    | None => if bool_decide (k ∈ (wanted cwd vfs ++ wanted cwd logs)%list)
              then Some Dir else None
    end.
Proof.
  intros Hv Hl Pv Pl. rewrite not_blocked_spec.
  unfold wanted, plain in *. destruct vfs as [av rv], logs as [al rl]. simpl rparts in *.
  unfold ensure_dirs, seq. rewrite Hv, Hl. unfold Path_mkdir. simpl anchored. simpl rparts.
  pose proof (fun k n => mkdir_parents_within true cwd av rv fs k n Pv) as W1.
  destruct (mkdir_parents true cwd av rv fs) as [fs1 [[]|e1]] eqn:M1; simpl fst in *;
    [|discriminate].
  pose proof (fun k n => mkdir_parents_within true cwd al rl fs1 k n Pl) as W2.
  destruct (mkdir_parents_spec _ _ _ _ _ _ M1) as [S1 D1]. specialize (D1 eq_refl).
  destruct (mkdir_parents true cwd al rl fs1) as [fs2 [[]|e2]] eqn:M2; simpl fst in *;
    simpl snd; [intros _|discriminate].
  destruct (mkdir_parents_spec _ _ _ _ _ _ M2) as [S2 D2]. specialize (D2 eq_refl).
  pose proof (is_dir_mono _ _ _ _ S2 D1) as D1'.
  assert (Hdirs : forall k, k ∈ (chain (origin cwd (mkPath av rv)) rv ++
                                 chain (origin cwd (mkPath al rl)) rl)%list ->
                            node_at fs2 k = Some Dir).
  { intros k Hk. apply elem_of_app in Hk as [Hk|Hk].
    - exact (is_dir_chain cwd av rv fs2 k Pv D1' Hk).
    - exact (is_dir_chain cwd al rl fs2 k Pl D2 Hk). }
  split.
  - intros k Hk N.
    assert (N2 : node_at fs2 k = Some File).
    { eapply node_at_mono; [|exact N]. etrans; eassumption. }
    rewrite (Hdirs k Hk) in N2. discriminate.
  - intros k. destruct (fs !! k) as [n|] eqn:E.
    + eapply lookup_weaken; [exact E|]. etrans; eassumption.
    + case_bool_decide as Hk.
      * rewrite <- (Hdirs k Hk). symmetry. apply node_at_lookup.
        apply elem_of_app in Hk as [Hk|Hk]; eapply chain_nonempty; eassumption.
      * destruct (fs2 !! k) as [n|] eqn:E2; [|reflexivity].
        exfalso. apply Hk. rewrite elem_of_app.
        destruct (W2 _ _ E2) as [H|H]; [|now right].
        destruct (W1 _ _ H) as [H'|H']; [congruence|now left].
Qed.

Lemma ensure_dirs_on_plain_paths_witness :
  forallb (fun k => negb (is_file {[ ["home"; "u"; "notes"] := File ]} k))
    (wanted ["home"; "u"] (path_of_string "./vfs") ++
     wanted ["home"; "u"] (path_of_string "./logs"))%list = true.
Proof.
  refine (proj1 (ensure_dirs_on_plain_paths defaults ["home"; "u"]
            {[ ["home"; "u"; "notes"] := File ]}
            (path_of_string "./vfs") (path_of_string "./logs") _ _ _ _ _)).
  - reflexivity.
  - reflexivity.
  - reflexivity.
  - reflexivity.
  - vm_compute. reflexivity.
Defined.

Lemma mkdir_parents_new_dir ok cwd anch rp fs (k : list string) (n : node) :
  fst (mkdir_parents ok cwd anch rp fs) !! k = Some n ->
  fs !! k = Some n \/ (fs !! k = None /\ n = Dir).
Proof.
  destruct (mkdir_parents_only_dirs ok cwd anch rp fs) as [S D]. intros H.
  destruct (fs !! k) as [m|] eqn:E.
  - left. pose proof (lookup_weaken _ _ _ _ E S). congruence.
  - right. split; [reflexivity|]. eapply D; eassumption.
Qed.

(** X16.  For paths without [..] components, whatever [ensure_dirs()]
    creates lies on one of the two paths, also when it raises: an entry
    found afterwards was there before, or is a directory at one of the
    places on the way to [VFS_PATH] or [LOG_PATH]. *)
Theorem ensure_dirs_creates_only_on_its_paths (c : config) cwd fs vfs logs
    (k : list string) (n : node) :
  Path_new (VFS_PATH c) = Returned vfs ->
  Path_new (LOG_PATH c) = Returned logs ->
  plain vfs = true -> plain logs = true ->
  fst (ensure_dirs c cwd fs) !! k = Some n ->
  fs !! k = Some n \/
  (n = Dir /\ k ∈ (wanted cwd vfs ++ wanted cwd logs)%list).
Proof.
  intros Hv Hl Pv Pl.
  unfold wanted, plain in *. destruct vfs as [av rv], logs as [al rl]. simpl rparts in *.
  unfold ensure_dirs, seq. rewrite Hv, Hl. unfold Path_mkdir. simpl anchored. simpl rparts.
  rewrite elem_of_app.
  pose proof (mkdir_parents_within true cwd av rv fs k) as W1.
  pose proof (mkdir_parents_new_dir true cwd av rv fs k) as N1.
  destruct (mkdir_parents true cwd av rv fs) as [fs1 [[]|e1]]; simpl fst in *.
  - pose proof (mkdir_parents_within true cwd al rl fs1 k n Pl) as W2.
    pose proof (mkdir_parents_new_dir true cwd al rl fs1 k n) as N2.
    destruct (mkdir_parents true cwd al rl fs1) as [fs2 o]; simpl fst in *.
    intros H. destruct (N2 H) as [H1|[E1 ->]].
    + destruct (N1 _ H1) as [?|[E ->]]; [now left|].
      destruct (W1 _ Pv H1) as [?|?]; [now left|right; auto].
    + destruct (W2 H) as [?|?]; [congruence|right; auto].
  - intros H. destruct (N1 _ H) as [?|[E ->]]; [now left|].
    destruct (W1 _ Pv H) as [?|?]; [now left|right; auto].
Qed.

Lemma ensure_dirs_creates_only_on_its_paths_witness :
  (∅ : filesystem) !! ["home"; "u"; "logs"] = Some Dir \/
  (Dir = Dir /\
   ["home"; "u"; "logs"] ∈ (wanted ["home"; "u"] (path_of_string "./vfs") ++
                            wanted ["home"; "u"] (path_of_string "./logs"))%list).
Proof.
  apply (ensure_dirs_creates_only_on_its_paths defaults ["home"; "u"] ∅
           (path_of_string "./vfs") (path_of_string "./logs")
           ["home"; "u"; "logs"] Dir); reflexivity.
Defined.

End Tree.

(** ** The console *)

Section ConsoleRun.
Local Open Scope string_scope.

Lemma load_paths_are_strings dotenv penv c :
  load dotenv penv = Returned c ->
  exists v l, VFS_PATH c = VStr v /\ LOG_PATH c = VStr l.
Proof.
  intros L. unfold load in L.
  repeat match type of L with
  | bind ?o _ = Returned _ => destruct o; cbn [bind] in L; [|discriminate]
  end.
  injection L as <-. simpl.
  destruct (getenv_cases (load_dotenv dotenv penv) "VFS_PATH" (VStr "./vfs"))
    as [[_ ->]|(v & _ & ->)];
  destruct (getenv_cases (load_dotenv dotenv penv) "LOG_PATH" (VStr "./logs"))
    as [[_ ->]|(l & _ & ->)]; eauto.
Qed.

(** X17.  [main()] prints only once both directories exist.  Run with
    constants that the import of [config] produced, it ends as
    [ensure_dirs()] does and leaves the file system [ensure_dirs()]
    left: either it returns, having printed the five lines of
    [banner()] and the closing line after whatever was on standard
    output, with both paths directories; or it raises the exception of
    [ensure_dirs()], having printed nothing, with one of the paths not a
    directory. *)
Theorem main_prints_only_after_directories_exist
    (repr : float -> string) dotenv penv (c : config) cwd (w : world) :
  load dotenv penv = Returned c ->
  exists v l,
    VFS_PATH c = VStr v /\ LOG_PATH c = VStr l /\
    files (fst (main repr c cwd w)) = fst (ensure_dirs c cwd (files w)) /\
    snd (main repr c cwd w) = snd (ensure_dirs c cwd (files w)) /\
    ((snd (main repr c cwd w) = Returned tt /\
      stdout (fst (main repr c cwd w))
      = (stdout w ++ banner repr c
         ++ ["Stub OS ready. Replace with full kernel/devices."])%list /\
      is_dir cwd (path_of_string v) (files (fst (main repr c cwd w))) = true /\
      is_dir cwd (path_of_string l) (files (fst (main repr c cwd w))) = true) \/
     (exists e,
        snd (main repr c cwd w) = Raised e /\
        stdout (fst (main repr c cwd w)) = stdout w /\
        is_dir cwd (path_of_string v) (files (fst (main repr c cwd w)))
        && is_dir cwd (path_of_string l) (files (fst (main repr c cwd w))) = false)).
Proof.
  intros L. destruct (load_paths_are_strings _ _ _ L) as (v & l & Hv & Hl).
  exists v, l. split; [exact Hv|]. split; [exact Hl|].
  unfold main, ensure_dirs, seq. rewrite Hv, Hl. simpl Path_new. cbv iota beta.
  destruct (Path_mkdir true true cwd (path_of_string v) (files w))
    as [fs1 [[]|e1]] eqn:M1.
  - destruct (Path_mkdir_spec _ _ _ _ M1) as [_ D1].
    destruct (Path_mkdir true true cwd (path_of_string l) fs1)
      as [fs2 [[]|e2]] eqn:M2; simpl.
    + destruct (Path_mkdir_spec _ _ _ _ M2) as [S2 D2].
      split; [reflexivity|]. split; [reflexivity|]. left.
      rewrite (is_dir_mono _ _ _ _ S2 D1), D2. auto.
    + destruct (Path_mkdir_raised _ _ _ _ _ M2) as [_ D2].
      split; [reflexivity|]. split; [reflexivity|]. right. exists e2.
      rewrite D2, andb_false_r. auto.
  - simpl. destruct (Path_mkdir_raised _ _ _ _ _ M1) as [_ D1].
    split; [reflexivity|]. split; [reflexivity|]. right. exists e1. rewrite D1. auto.
Qed.

Lemma main_prints_only_after_directories_exist_witness :
  exists v l,
    VFS_PATH defaults = VStr v /\ LOG_PATH defaults = VStr l /\
    files (fst (main (fun _ => "?") defaults ["home"; "u"] (mkWorld ∅ [])))
    = fst (ensure_dirs defaults ["home"; "u"] (files (mkWorld ∅ []))) /\
    snd (main (fun _ => "?") defaults ["home"; "u"] (mkWorld ∅ []))
    = snd (ensure_dirs defaults ["home"; "u"] (files (mkWorld ∅ []))) /\
    ((snd (main (fun _ => "?") defaults ["home"; "u"] (mkWorld ∅ [])) = Returned tt /\
      stdout (fst (main (fun _ => "?") defaults ["home"; "u"] (mkWorld ∅ [])))
      = (stdout (mkWorld ∅ []) ++ banner (fun _ => "?") defaults
         ++ ["Stub OS ready. Replace with full kernel/devices."])%list /\
      is_dir ["home"; "u"] (path_of_string v)
        (files (fst (main (fun _ => "?") defaults ["home"; "u"] (mkWorld ∅ [])))) = true /\
      is_dir ["home"; "u"] (path_of_string l)
        (files (fst (main (fun _ => "?") defaults ["home"; "u"] (mkWorld ∅ [])))) = true) \/
     (exists e,
        snd (main (fun _ => "?") defaults ["home"; "u"] (mkWorld ∅ [])) = Raised e /\
        stdout (fst (main (fun _ => "?") defaults ["home"; "u"] (mkWorld ∅ [])))
        = stdout (mkWorld ∅ []) /\
        is_dir ["home"; "u"] (path_of_string v)
          (files (fst (main (fun _ => "?") defaults ["home"; "u"] (mkWorld ∅ []))))
        && is_dir ["home"; "u"] (path_of_string l)
          (files (fst (main (fun _ => "?") defaults ["home"; "u"] (mkWorld ∅ []))))
        = false)).
Proof.
  apply (main_prints_only_after_directories_exist (fun _ => "?") ∅ ∅ defaults
           ["home"; "u"] (mkWorld ∅ [])).
  vm_compute. reflexivity.
Defined.

End ConsoleRun.
